(** * aiplatform-util: the push/pull reconciliation of [pkg/sync]

    A shallow embedding of [pkg/sync/push.go] and [pkg/sync/pull.go]:
    the metadata comparison ([needsUpload], [needsDownload]), the exclusion
    check ([shouldExclude]) and the two directional runs ([Push], [Pull]).

    The object store, the local file system and the [path/filepath]
    helpers are collaborators of the package.  Their pure part is the
    interface [Filepath]; their effectful part is an environment [Env] of
    responses, each of which may depend on everything the run has done so
    far (the event log).  A run returns its result together with that log. *)

From Stdlib Require Import ZArith String Ascii.
From stdpp Require Import base option list gmap sets strings sorting pretty.

Local Open Scope Z_scope.

(** ** Go values *)

(** [error]: the values the code tells apart.  [os.IsNotExist] does not look
    through [fmt.Errorf("...: %w", err)]. *)
Inductive error : Type :=
| ErrNotExist
| ErrBadPattern
| ErrOther (detail : string)
| Wrapped (msg : string) (cause : error).

Definition IsNotExist (err : option error) : bool :=
  match err with
  | Some ErrNotExist => true
  | _ => false
  end.

(** A Go pair [(value, error)]. *)
Inductive result (A : Type) : Type :=
| Ok (a : A)
| Err (e : error).
Arguments Ok {A} a.
Arguments Err {A} e.

Definition isOk {A} (r : result A) : bool :=
  match r with Ok _ => true | Err _ => false end.

(** [int] is 64 bits wide; [n++] wraps. *)
Definition wrap_int (x : Z) : Z := (x + 2 ^ 63) mod 2 ^ 64 - 2 ^ 63.
Definition int_incr (n : Z) : Z := wrap_int (n + 1).

(** [time.Time] without a monotonic reading (file times, object times):
    an instant, in nanoseconds since the Unix epoch.  [time.Duration] is a
    count of nanoseconds. *)
Definition Time := Z.
Definition Duration := Z.
Definition Time_Add (t : Time) (d : Duration) : Time := t + d.
Definition Time_After (t u : Time) : bool := u <? t.
Definition zeroTime : Time := -62135596800 * 10 ^ 9.
Definition Millisecond : Duration := 10 ^ 6.

(** ** [strings] *)

Definition HasPrefix (s prefix : string) : bool :=
  (String.length prefix <=? String.length s)%nat
  && String.eqb (substring 0 (String.length prefix) s) prefix.

Definition HasSuffix (s suffix : string) : bool :=
  (String.length suffix <=? String.length s)%nat
  && String.eqb
       (substring (String.length s - String.length suffix)
          (String.length suffix) s)
       suffix.

Definition TrimSuffix (s suffix : string) : string :=
  if HasSuffix s suffix
  then substring 0 (String.length s - String.length suffix) s
  else s.

(** ** [s3client] and [os] data *)

Record S3Object : Type := {
  Key : string;
  Size : Z;
  LastModified : Time;
  ETag : string;
}.

(** The zero value, which [remoteFiles[s3Key]] yields for a missing key. *)
Definition zeroS3Object : S3Object :=
  {| Key := ""; Size := 0; LastModified := zeroTime; ETag := "" |}.

Record FileInfo : Type := {
  fi_Size : Z;
  fi_ModTime : Time;
  fi_IsDir : bool;
}.

(** One call of the [filepath.Walk] callback: [(path, info, err)]. *)
Record WalkEntry : Type := {
  we_path : string;
  we_info : FileInfo;
  we_err : option error;
}.

(** ** [path/filepath] *)

Class Filepath : Type := {
  Match : string → string → bool * option error;
  Join : string → string → string;
  Rel : string → string → result string;
  ToSlash : string → string;
}.

(** ** Options and statistics *)

Record PushOptions : Type := {
  Prefix : string;
  DryRun : bool;
  Delete : bool;
  ExcludeGlobs : list string;
  MountPath : string;
}.

Record PushStats : Type := {
  Uploaded : Z;
  Skipped : Z;
  Deleted : Z;
  Failed : Z;
}.

Record PullOptions : Type := {
  pl_Prefix : string;
  pl_DryRun : bool;
  pl_Delete : bool;
  pl_MountPath : string;
}.

Record PullStats : Type := {
  Downloaded : Z;
  pl_Skipped : Z;
  pl_Deleted : Z;
  pl_Failed : Z;
}.

Definition zeroPushStats : PushStats :=
  {| Uploaded := 0; Skipped := 0; Deleted := 0; Failed := 0 |}.
Definition zeroPullStats : PullStats :=
  {| Downloaded := 0; pl_Skipped := 0; pl_Deleted := 0; pl_Failed := 0 |}.

(** ** What a run does, in order

    The lines a run prints for its decisions, the calls it makes that change
    the store or the file system (with their outcome), and two silent
    branches of the loops: [Seen] is [localFiles[s3Key] = true], [UpToDate]
    is the branch taken when nothing needs transferring. *)
Inductive Event : Type :=
| Seen (key : string)
| Uploading (key reason : string)
| UpToDate (key : string)
| CallUploadFile (localPath key : string) (err : option error)
| DeletingRemote (key : string)
| CallDeleteObject (key : string) (err : option error)
| CallMkdirAll (path : string) (err : option error)
| Downloading (key reason : string)
| CallDownloadFile (key localPath : string) (err : option error)
| DeletingLocal (relPath : string)
| CallRemove (path : string) (err : option error).

Definition mutating (ev : Event) : bool :=
  match ev with
  | CallUploadFile _ _ _ | CallDeleteObject _ _ | CallMkdirAll _ _
  | CallDownloadFile _ _ _ | CallRemove _ _ => true
  | _ => false
  end.

Definition failedCall (ev : Event) : bool :=
  match ev with
  | CallUploadFile _ _ (Some _) | CallDeleteObject _ (Some _)
  | CallDownloadFile _ _ (Some _) | CallRemove _ (Some _) => true
  | _ => false
  end.

(** ** The environment of a run

    Every response may depend on the log so far.  [Walk] gives the calls
    that [filepath.Walk] makes of its callback, as long as the callback
    returns [nil] (neither callback returns [filepath.SkipDir]).
    [RangeRank] fixes the order in which [for key := range remoteFiles]
    visits the keys, which Go leaves to the runtime: the keys are visited by
    increasing rank. *)
Record Env : Type := {
  ListObjects : string → bool → result (list S3Object);
  Stat : list Event → string → result FileInfo;
  Walk : list Event → string → list WalkEntry;
  UploadFile : list Event → string → string → option error;
  DeleteObject : list Event → string → option error;
  MkdirAll : list Event → string → option error;
  DownloadFile : list Event → string → string → option error;
  Remove : list Event → string → option error;
  RangeRank : string → nat;
}.

Definition rankLe (env : Env) (a b : string) : Prop :=
  (RangeRank env a ≤ RangeRank env b)%nat.

#[global] Instance rankLe_dec (env : Env) : RelDecision (rankLe env) :=
  λ a b, decide (RangeRank env a ≤ RangeRank env b)%nat.

(** [filepath.Walk root fn]: the callback is applied to the entries in turn
    and the first error it returns ends the walk and is the walk's result. *)
Fixpoint filepath_Walk {St : Type}
    (fn : St → WalkEntry → St * option error)
    (st : St) (entries : list WalkEntry) : St * option error :=
  match entries with
  | [] => (st, None)
  | e :: rest =>
    match fn st e with
    | (st', Some err) => (st', Some err)
    | (st', None) => filepath_Walk fn st' rest
    end
  end.

Section Sync.
Context `{Filepath}.

(** ** push.go *)

(** [needsUpload]: the first argument (the local path) is not used. *)
Definition needsUpload (_ : string) (localInfo : FileInfo)
    (remoteObj : S3Object) : bool * string :=
  if String.eqb (Key remoteObj) "" then (true, "new file")
  else if negb (fi_Size localInfo =? Size remoteObj) then (true, "size differs")
  else if Time_After (fi_ModTime localInfo)
            (Time_Add (LastModified remoteObj) (1 * 10 ^ 9))
       then (true, "local is newer")
  else (false, "").

(** One pattern of [shouldExclude]: the body of its loop, [true] where the
    loop returns [true]. *)
Definition excludedBy (path pattern : string) : bool :=
  let '(matched, err) := Match pattern path in
  if bool_decide (err = None) && matched then true
  else if HasSuffix pattern "/*"
          && HasPrefix path (TrimSuffix pattern "/*" +:+ "/")
       then true
  else if String.eqb path pattern then true
  else false.

Fixpoint shouldExclude (path : string) (patterns : list string) : bool :=
  match patterns with
  | [] => false
  | pattern :: rest =>
    if excludedBy path pattern then true else shouldExclude path rest
  end.

(** The map [remoteFiles], filled from the listing in order; keys that end
    in ["/"] are directory markers and are left out. *)
Definition buildRemoteFiles (remoteObjects : list S3Object)
    : gmap string S3Object :=
  foldl (λ m obj, if negb (HasSuffix (Key obj) "/")
                  then <[Key obj := obj]> m else m)
        ∅ remoteObjects.

Record PushState : Type := {
  ps_stats : PushStats;
  ps_localFiles : gset string;
  ps_log : list Event;
}.

Definition pushUploaded (s : PushStats) : PushStats :=
  {| Uploaded := int_incr (Uploaded s); Skipped := Skipped s;
     Deleted := Deleted s; Failed := Failed s |}.
Definition pushSkipped (s : PushStats) : PushStats :=
  {| Uploaded := Uploaded s; Skipped := int_incr (Skipped s);
     Deleted := Deleted s; Failed := Failed s |}.
Definition pushDeleted (s : PushStats) : PushStats :=
  {| Uploaded := Uploaded s; Skipped := Skipped s;
     Deleted := int_incr (Deleted s); Failed := Failed s |}.
Definition pushFailed (s : PushStats) : PushStats :=
  {| Uploaded := Uploaded s; Skipped := Skipped s;
     Deleted := Deleted s; Failed := int_incr (Failed s) |}.

(** The callback [Push] hands to [filepath.Walk]. *)
Definition pushWalkFn (env : Env) (opts : PushOptions)
    (remoteFiles : gmap string S3Object)
    (st : PushState) (e : WalkEntry) : PushState * option error :=
  match we_err e with
  | Some err => (st, Some err)
  | None =>
    if fi_IsDir (we_info e) then (st, None)
    else
      match Rel (MountPath opts) (we_path e) with
      | Err err => (st, Some err)
      | Ok relPath =>
        let s3Key := ToSlash relPath in
        if shouldExclude s3Key (ExcludeGlobs opts) then (st, None)
        else
          let localFiles := {[ s3Key ]} ∪ ps_localFiles st in
          let log := ps_log st ++ [Seen s3Key] in
          let '(needs, reason) :=
            needsUpload (we_path e) (we_info e)
              (default zeroS3Object (remoteFiles !! s3Key)) in
          if needs then
            let log := log ++ [Uploading s3Key reason] in
            if negb (DryRun opts) then
              match UploadFile env log (we_path e) s3Key with
              | Some err =>
                ({| ps_stats := pushFailed (ps_stats st);
                    ps_localFiles := localFiles;
                    ps_log := log ++ [CallUploadFile (we_path e) s3Key (Some err)] |},
                 None)
              | None =>
                ({| ps_stats := pushUploaded (ps_stats st);
                    ps_localFiles := localFiles;
                    ps_log := log ++ [CallUploadFile (we_path e) s3Key None] |},
                 None)
              end
            else
              ({| ps_stats := ps_stats st; ps_localFiles := localFiles;
                  ps_log := log |}, None)
          else
            let log := log ++ [UpToDate s3Key] in
            if negb (DryRun opts) then
              ({| ps_stats := pushSkipped (ps_stats st);
                  ps_localFiles := localFiles; ps_log := log |}, None)
            else
              ({| ps_stats := ps_stats st; ps_localFiles := localFiles;
                  ps_log := log |}, None)
      end
  end.

(** The keys of [remoteFiles] in the order the [range] loop visits them. *)
Definition rangeKeys (env : Env) (remoteFiles : gmap string S3Object)
    : list string :=
  merge_sort (rankLe env) (map_to_list remoteFiles).*1.

(** The body of [for key := range remoteFiles]. *)
Definition pushDeleteStep (env : Env) (opts : PushOptions)
    (st : PushState) (key : string) : PushState :=
  if negb (bool_decide (key ∈ ps_localFiles st)) then
    let log := ps_log st ++ [DeletingRemote key] in
    if negb (DryRun opts) then
      match DeleteObject env log key with
      | Some err =>
        {| ps_stats := pushFailed (ps_stats st);
           ps_localFiles := ps_localFiles st;
           ps_log := log ++ [CallDeleteObject key (Some err)] |}
      | None =>
        {| ps_stats := pushDeleted (ps_stats st);
           ps_localFiles := ps_localFiles st;
           ps_log := log ++ [CallDeleteObject key None] |}
      end
    else
      {| ps_stats := ps_stats st; ps_localFiles := ps_localFiles st;
         ps_log := log |}
  else st.

(** [if opts.Delete { ... }; return stats, nil] *)
Definition pushDeletions (env : Env) (opts : PushOptions)
    (remoteFiles : gmap string S3Object) (st : PushState)
    : result PushStats * list Event :=
  let st' :=
    if Delete opts
    then foldl (pushDeleteStep env opts) st (rangeKeys env remoteFiles)
    else st in
  (Ok (ps_stats st'), ps_log st').

Definition Push (env : Env) (opts : PushOptions)
    : result PushStats * list Event :=
  let st0 := {| ps_stats := zeroPushStats; ps_localFiles := ∅; ps_log := [] |} in
  match ListObjects env (Prefix opts) true with
  | Err err => (Err (Wrapped "failed to list remote objects" err), [])
  | Ok remoteObjects =>
    let remoteFiles := buildRemoteFiles remoteObjects in
    let prefixPath := Join (MountPath opts) (Prefix opts) in
    match Stat env [] prefixPath with
    | Err err =>
      if IsNotExist (Some err) then
        if negb (Delete opts) then (Ok zeroPushStats, [])
        else pushDeletions env opts remoteFiles st0
      else (Err (Wrapped "failed to stat prefix path" err), [])
    | Ok _ =>
      match filepath_Walk (pushWalkFn env opts remoteFiles) st0
              (Walk env [] prefixPath) with
      | (st, Some err) =>
        (Err (Wrapped "failed to walk directory" err), ps_log st)
      | (st, None) => pushDeletions env opts remoteFiles st
      end
    end
  end.

(** ** pull.go *)

(** [needsDownload] asks [os.Stat] for the local file. *)
Definition needsDownload (env : Env) (log : list Event)
    (obj : S3Object) (localPath : string) : bool * string :=
  match Stat env log localPath with
  | Err err =>
    if IsNotExist (Some err) then (true, "new file") else (true, "stat error")
  | Ok info =>
    if negb (fi_Size info =? Size obj) then (true, "size differs")
    else if Time_After (LastModified obj)
              (Time_Add (fi_ModTime info) (1 * 10 ^ 9))
         then (true, "remote is newer")
    else (false, "")
  end.

Record PullState : Type := {
  pl_stats : PullStats;
  pl_log : list Event;
}.

Definition pullDownloaded (s : PullStats) : PullStats :=
  {| Downloaded := int_incr (Downloaded s); pl_Skipped := pl_Skipped s;
     pl_Deleted := pl_Deleted s; pl_Failed := pl_Failed s |}.
Definition pullSkipped (s : PullStats) : PullStats :=
  {| Downloaded := Downloaded s; pl_Skipped := int_incr (pl_Skipped s);
     pl_Deleted := pl_Deleted s; pl_Failed := pl_Failed s |}.
Definition pullDeleted (s : PullStats) : PullStats :=
  {| Downloaded := Downloaded s; pl_Skipped := pl_Skipped s;
     pl_Deleted := int_incr (pl_Deleted s); pl_Failed := pl_Failed s |}.
Definition pullFailed (s : PullStats) : PullStats :=
  {| Downloaded := Downloaded s; pl_Skipped := pl_Skipped s;
     pl_Deleted := pl_Deleted s; pl_Failed := int_incr (pl_Failed s) |}.

(** The body of [for _, obj := range objects]. *)
Definition pullStep (env : Env) (opts : PullOptions)
    (st : PullState) (obj : S3Object) : PullState :=
  if HasSuffix (Key obj) "/" then st
  else
    let localPath := Join (pl_MountPath opts) (Key obj) in
    let '(needs, reason) := needsDownload env (pl_log st) obj localPath in
    if needs then
      let log := pl_log st ++ [Downloading (Key obj) reason] in
      if negb (pl_DryRun opts) then
        match DownloadFile env log (Key obj) localPath with
        | Some err =>
          {| pl_stats := pullFailed (pl_stats st);
             pl_log := log ++ [CallDownloadFile (Key obj) localPath (Some err)] |}
        | None =>
          {| pl_stats := pullDownloaded (pl_stats st);
             pl_log := log ++ [CallDownloadFile (Key obj) localPath None] |}
        end
      else {| pl_stats := pl_stats st; pl_log := log |}
    else
      let log := pl_log st ++ [UpToDate (Key obj)] in
      if negb (pl_DryRun opts) then
        {| pl_stats := pullSkipped (pl_stats st); pl_log := log |}
      else {| pl_stats := pl_stats st; pl_log := log |}.

(** The set [remoteKeys] of the delete pass. *)
Definition buildRemoteKeys (objects : list S3Object) : gset string :=
  foldl (λ s obj, if negb (HasSuffix (Key obj) "/")
                  then {[ Key obj ]} ∪ s else s)
        ∅ objects.

(** The callback [Pull] hands to [filepath.Walk]. *)
Definition pullWalkFn (env : Env) (opts : PullOptions)
    (remoteKeys : gset string)
    (st : PullState) (e : WalkEntry) : PullState * option error :=
  match we_err e with
  | Some err => (st, Some err)
  | None =>
    if fi_IsDir (we_info e) then (st, None)
    else
      match Rel (pl_MountPath opts) (we_path e) with
      | Err err => (st, Some err)
      | Ok relPath =>
        let relPath := ToSlash relPath in
        if negb (bool_decide (relPath ∈ remoteKeys)) then
          let log := pl_log st ++ [DeletingLocal relPath] in
          if negb (pl_DryRun opts) then
            match Remove env log (we_path e) with
            | Some err =>
              ({| pl_stats := pullFailed (pl_stats st);
                  pl_log := log ++ [CallRemove (we_path e) (Some err)] |}, None)
            | None =>
              ({| pl_stats := pullDeleted (pl_stats st);
                  pl_log := log ++ [CallRemove (we_path e) None] |}, None)
            end
          else ({| pl_stats := pl_stats st; pl_log := log |}, None)
        else (st, None)
      end
  end.

(** [if opts.Delete { ... }; return stats, nil] *)
Definition pullDeletions (env : Env) (opts : PullOptions)
    (objects : list S3Object) (st : PullState)
    : result PullStats * list Event :=
  if pl_Delete opts then
    let remoteKeys := buildRemoteKeys objects in
    let prefixPath := Join (pl_MountPath opts) (pl_Prefix opts) in
    match filepath_Walk (pullWalkFn env opts remoteKeys) st
            (Walk env (pl_log st) prefixPath) with
    | (st', werr) =>
      match werr with
      | Some err =>
        if negb (IsNotExist werr)
        then (Err (Wrapped "failed to walk directory" err), pl_log st')
        else (Ok (pl_stats st'), pl_log st')
      | None => (Ok (pl_stats st'), pl_log st')
      end
    end
  else (Ok (pl_stats st), pl_log st).

(** The download loop and what follows it. *)
Definition pullFrom (env : Env) (opts : PullOptions)
    (objects : list S3Object) (st : PullState)
    : result PullStats * list Event :=
  pullDeletions env opts objects (foldl (pullStep env opts) st objects).

Definition Pull (env : Env) (opts : PullOptions)
    : result PullStats * list Event :=
  match ListObjects env (pl_Prefix opts) true with
  | Err err => (Err (Wrapped "failed to list objects" err), [])
  | Ok objects =>
    if negb (pl_DryRun opts) then
      match MkdirAll env [] (pl_MountPath opts) with
      | Some err =>
        (Err (Wrapped "failed to create mount path" err),
         [CallMkdirAll (pl_MountPath opts) (Some err)])
      | None =>
        pullFrom env opts objects
          {| pl_stats := zeroPullStats;
             pl_log := [CallMkdirAll (pl_MountPath opts) None] |}
      end
    else
      pullFrom env opts objects {| pl_stats := zeroPullStats; pl_log := [] |}
  end.

End Sync.

(** ** An instance of [Filepath]: Unix paths

    [path/filepath] on a system whose separator is ["/"], for names made of
    single-byte characters.  The properties of the runs below hold for every
    instance; this one is what the closed examples run on. *)
Module Unix.

Definition isChar (c d : ascii) : bool := Ascii.eqb c d.

(** [scanChunk] after the leading stars: the chunk up to the next star
    outside a bracket expression, and the rest. *)
Fixpoint scanBody (inrange : bool) (pattern : string) : string * string :=
  match pattern with
  | EmptyString => (EmptyString, EmptyString)
  | String c p' =>
    if isChar c "\" then
      match p' with
      | EmptyString => (String c EmptyString, EmptyString)
      | String d p'' =>
        let '(chunk, rest) := scanBody inrange p'' in
        (String c (String d chunk), rest)
      end
    else if isChar c "[" then
      let '(chunk, rest) := scanBody true p' in (String c chunk, rest)
    else if isChar c "]" then
      let '(chunk, rest) := scanBody false p' in (String c chunk, rest)
    else if isChar c "*" && negb inrange then (EmptyString, pattern)
    else
      let '(chunk, rest) := scanBody inrange p' in (String c chunk, rest)
  end.

Fixpoint dropStars (pattern : string) : bool * string :=
  match pattern with
  | String c p' =>
    if isChar c "*" then (true, snd (dropStars p')) else (false, pattern)
  | EmptyString => (false, pattern)
  end.

Definition scanChunk (pattern : string) : bool * string * string :=
  let '(star, pattern) := dropStars pattern in
  let '(chunk, rest) := scanBody false pattern in
  (star, chunk, rest).

(** [getEsc]: one (possibly escaped) character of a bracket expression. *)
Definition getEsc (chunk : string) : ascii * string * option error :=
  match chunk with
  | EmptyString => (zero, EmptyString, Some ErrBadPattern)
  | String c rest =>
    if isChar c "-" || isChar c "]" then (zero, EmptyString, Some ErrBadPattern)
    else
      let chunk := if isChar c "\" then rest else chunk in
      match chunk with
      | EmptyString => (zero, EmptyString, Some ErrBadPattern)
      | String r nchunk =>
        (r, nchunk,
         if String.eqb nchunk EmptyString then Some ErrBadPattern else None)
      end
  end.

Definition inRange (lo r hi : ascii) : bool :=
  (nat_of_ascii lo <=? nat_of_ascii r)%nat
  && (nat_of_ascii r <=? nat_of_ascii hi)%nat.

(** The ranges of a bracket expression, up to its closing bracket. *)
Fixpoint matchRanges (fuel : nat) (chunk : string) (r : ascii)
    (matched : bool) (nrange : nat) : bool * string * option error :=
  match fuel with
  | O => (matched, chunk, Some ErrBadPattern)
  | S fuel =>
    let closing :=
      match chunk, nrange with
      | String c rest, S _ => if isChar c "]" then Some rest else None
      | _, _ => None
      end in
    match closing with
    | Some rest => (matched, rest, None)
    | None =>
      match getEsc chunk with
      | (_, _, Some err) => (matched, EmptyString, Some err)
      | (lo, chunk, None) =>
        match chunk with
        | String c rest =>
          if isChar c "-" then
            match getEsc rest with
            | (_, _, Some err) => (matched, EmptyString, Some err)
            | (hi, chunk, None) =>
              matchRanges fuel chunk r (matched || inRange lo r hi) (S nrange)
            end
          else matchRanges fuel chunk r (matched || inRange lo r lo) (S nrange)
        | EmptyString => (matched, EmptyString, Some ErrBadPattern)
        end
      end
    end
  end.

(** [matchChunk]: once the match has failed the chunk is still read to its
    end, so that a malformed pattern is reported. *)
Fixpoint matchChunkLoop (fuel : nat) (chunk s : string) (failed : bool)
    : string * bool * option error :=
  match fuel with
  | O => (EmptyString, false, Some ErrBadPattern)
  | S fuel =>
    match chunk with
    | EmptyString =>
      if failed then (EmptyString, false, None) else (s, true, None)
    | String c chunk' =>
      let failed := failed || String.eqb s EmptyString in
      let s0 := match s with String a _ => a | EmptyString => zero end in
      let s' := match s with String _ t => t | EmptyString => EmptyString end in
      if isChar c "[" then
        let r := if failed then zero else s0 in
        let s := if failed then s else s' in
        let '(negated, chunk) :=
          match chunk' with
          | String n rest => if isChar n "^" then (true, rest) else (false, chunk')
          | EmptyString => (false, chunk')
          end in
        match matchRanges (S (String.length chunk)) chunk r false 0 with
        | (_, _, Some err) => (EmptyString, false, Some err)
        | (matched, chunk, None) =>
          matchChunkLoop fuel chunk s (failed || Bool.eqb matched negated)
        end
      else if isChar c "?" then
        if failed then matchChunkLoop fuel chunk' s failed
        else matchChunkLoop fuel chunk' s' (isChar s0 "/")
      else
        let literal (c : ascii) (chunk' : string) :=
          if failed then matchChunkLoop fuel chunk' s failed
          else matchChunkLoop fuel chunk' s' (negb (isChar c s0)) in
        if isChar c "\" then
          match chunk' with
          | EmptyString => (EmptyString, false, Some ErrBadPattern)
          | String d chunk'' => literal d chunk''
          end
        else literal c chunk'
    end
  end.

Definition matchChunk (chunk s : string) : string * bool * option error :=
  matchChunkLoop (S (String.length chunk)) chunk s false.

Fixpoint hasSeparator (name : string) : bool :=
  match name with
  | EmptyString => false
  | String c rest => isChar c "/" || hasSeparator rest
  end.

Inductive starOutcome : Type :=
| StarFound (t : string)
| StarErr (err : error)
| StarNone.

(** The search after a star: the chunk is tried after each skipped
    character; a separator cannot be skipped. *)
Fixpoint starSearch (chunk rest name : string) : starOutcome :=
  match name with
  | EmptyString => StarNone
  | String c name' =>
    if isChar c "/" then StarNone
    else
      match matchChunk chunk name' with
      | (t, true, _) =>
        if String.eqb rest EmptyString && negb (String.eqb t EmptyString)
        then starSearch chunk rest name'
        else StarFound t
      | (_, false, Some err) => StarErr err
      | (_, false, None) => starSearch chunk rest name'
      end
  end.

Fixpoint MatchLoop (fuel : nat) (pattern name : string) : bool * option error :=
  match fuel with
  | O => (false, Some ErrBadPattern)
  | S fuel =>
    if String.eqb pattern EmptyString then (String.eqb name EmptyString, None)
    else
      let '(star, chunk, rest) := scanChunk pattern in
      if star && String.eqb chunk EmptyString then (negb (hasSeparator name), None)
      else
        match matchChunk chunk name with
        | (t, ok, err) =>
          if ok && (String.eqb t EmptyString || negb (String.eqb rest EmptyString))
          then MatchLoop fuel rest t
          else
            match err with
            | Some e => (false, Some e)
            | None =>
              if star then
                match starSearch chunk rest name with
                | StarFound t => MatchLoop fuel rest t
                | StarErr e => (false, Some e)
                | StarNone => (false, None)
                end
              else (false, None)
            end
        end
  end.

Definition filepath_Match (pattern name : string) : bool * option error :=
  MatchLoop (S (String.length pattern)) pattern name.

(** [filepath.Join] and [filepath.Rel] on clean paths, the target below the
    base; [filepath.ToSlash] changes nothing where the separator is ["/"]. *)
Definition filepath_Join (a b : string) : string :=
  if String.eqb b EmptyString then a
  else if String.eqb a EmptyString then b
  else a +:+ "/" +:+ b.

Definition filepath_Rel (basepath targpath : string) : result string :=
  if String.eqb targpath basepath then Ok "."
  else if HasPrefix targpath (basepath +:+ "/")
  then Ok (substring (S (String.length basepath))
             (String.length targpath - S (String.length basepath)) targpath)
  else Err (ErrOther "Rel: target outside base").

#[export] Instance paths : Filepath := {|
  Match := filepath_Match;
  Join := filepath_Join;
  Rel := filepath_Rel;
  ToSlash := λ s, s;
|}.

End Unix.

(** ** Reading a run

    The two snapshots a push compares, and the plan that can be read off the
    log of a run. *)
Section Plan.
Context `{Filepath}.

(** What it is for one pattern to exclude a path. *)
Definition excludes (pattern path : string) : Prop :=
  Match pattern path = (true, None)
  ∨ (∃ dir rest, pattern = dir +:+ "/*" ∧ path = dir +:+ "/" +:+ rest)
  ∨ path = pattern.

(** The error, if any, that the callbacks of [Push] and [Pull] return on an
    entry; it depends on the entry alone. *)
Definition entryError (mount : string) (e : WalkEntry) : option error :=
  match we_err e with
  | Some err => Some err
  | None =>
    if fi_IsDir (we_info e) then None
    else match Rel mount (we_path e) with
         | Err err => Some err
         | Ok _ => None
         end
  end.

Fixpoint walkError (mount : string) (entries : list WalkEntry) : option error :=
  match entries with
  | [] => None
  | e :: rest =>
    match entryError mount e with
    | Some err => Some err
    | None => walkError mount rest
    end
  end.

(** The key of a walked entry that is a file. *)
Definition localKey (mount : string) (e : WalkEntry) : option string :=
  if fi_IsDir (we_info e) then None
  else match Rel mount (we_path e) with
       | Ok relPath => Some (ToSlash relPath)
       | Err _ => None
       end.

Definition sourceKeys (mount : string) (entries : list WalkEntry) : list string :=
  omap (localKey mount) entries.

Definition consideredKeys (opts : PushOptions) (entries : list WalkEntry)
    : list string :=
  filter (λ k, shouldExclude k (ExcludeGlobs opts) = false)
    (sourceKeys (MountPath opts) entries).

(** The keys of a listing that are not directory markers. *)
Definition remoteKeys (objects : list S3Object) : list string :=
  filter (λ k, HasSuffix k "/" = false) (Key <$> objects).

Definition pushRoot (opts : PushOptions) : string :=
  Join (MountPath opts) (Prefix opts).

(** The local snapshot of a push: empty when the root does not exist. *)
Definition pushSource (env : Env) (opts : PushOptions) : list WalkEntry :=
  match Stat env [] (pushRoot opts) with
  | Ok _ => Walk env [] (pushRoot opts)
  | Err _ => []
  end.

(** The remote snapshot of a push. *)
Definition pushTarget (env : Env) (opts : PushOptions) : gmap string S3Object :=
  match ListObjects env (Prefix opts) true with
  | Ok objects => buildRemoteFiles objects
  | Err _ => ∅
  end.

(** A push gets both snapshots: the listing succeeds, and the root is either
    absent or walked without error. *)
Definition pushEnumerates (env : Env) (opts : PushOptions) : Prop :=
  isOk (ListObjects env (Prefix opts) true) = true ∧
  match Stat env [] (pushRoot opts) with
  | Ok _ => walkError (MountPath opts) (Walk env [] (pushRoot opts)) = None
  | Err err => IsNotExist (Some err) = true
  end.

Definition transferOf (ev : Event) : option (string * string) :=
  match ev with
  | Uploading k r | Downloading k r => Some (k, r)
  | _ => None
  end.
Definition skipOf (ev : Event) : option string :=
  match ev with UpToDate k => Some k | _ => None end.
Definition deleteOf (ev : Event) : option string :=
  match ev with DeletingRemote k | DeletingLocal k => Some k | _ => None end.
Definition decisionOf (ev : Event) : option string :=
  match ev with
  | Uploading k _ | Downloading k _ | UpToDate k => Some k
  | _ => None
  end.
Definition transferCallOf (ev : Event) : option string :=
  match ev with
  | CallUploadFile _ k _ | CallDownloadFile k _ _ => Some k
  | _ => None
  end.
Definition deleteCallOf (ev : Event) : option string :=
  match ev with CallDeleteObject k _ => Some k | _ => None end.
Definition removeCallOf (ev : Event) : option string :=
  match ev with CallRemove p _ => Some p | _ => None end.

Definition seenOf (ev : Event) : option string :=
  match ev with Seen k => Some k | _ => None end.

Definition toTransfer (log : list Event) : list (string * string) :=
  omap transferOf log.
Definition toSkip (log : list Event) : list string := omap skipOf log.
Definition toDelete (log : list Event) : list string := omap deleteOf log.
Definition decided (log : list Event) : list string := omap decisionOf log.
Definition transferCalls (log : list Event) : list string :=
  omap transferCallOf log.
Definition deleteCalls (log : list Event) : list string :=
  omap deleteCallOf log.
Definition removeCalls (log : list Event) : list string :=
  omap removeCallOf log.

Definition seen (log : list Event) : list string := omap seenOf log.

(** What a stretch [new] of the log of a push walk says, when the walk went
    over files with the keys [ks] (those not excluded) and took the set
    [localFiles] to [localFiles']. *)
Definition walkedOver (opts : PushOptions) (remoteFiles : gmap string S3Object)
    (ks : list string) (localFiles localFiles' : gset string)
    (new : list Event) : Prop :=
  decided new = ks ∧ seen new = ks ∧
  toDelete new = [] ∧ deleteCalls new = [] ∧
  localFiles' = list_to_set ks ∪ localFiles ∧
  transferCalls new = (if DryRun opts then [] else (toTransfer new).*1) ∧
  (∀ k, k ∈ ks → remoteFiles !! k = None →
        (k, "new file") ∈ toTransfer new).

(** What a stretch [new] of the log of the delete pass of a push says, when
    the pass went over the keys [ks] with the set [localFiles]. *)
Definition sweptOver (opts : PushOptions) (localFiles : gset string)
    (ks : list string) (new : list Event) : Prop :=
  toDelete new = filter (λ k, k ∉ localFiles) ks ∧
  deleteCalls new = (if DryRun opts then [] else toDelete new) ∧
  decided new = [] ∧ seen new = [] ∧
  toTransfer new = [] ∧ transferCalls new = [].

Definition pushStart : PushState :=
  {| ps_stats := zeroPushStats; ps_localFiles := ∅; ps_log := [] |}.

(** Every call of [UploadFile] comes after the key was marked as seen. *)
Definition uploadsAfterSeen (log : list Event) : Prop :=
  ∀ i p k r, log !! i = Some (CallUploadFile p k r) →
    ∃ j, (j < i)%nat ∧ log !! j = Some (Seen k).

(** A pull gets what it enumerates: the listing succeeds, a live run can
    create the mount path, and the walk of the delete pass, whenever it is
    made, reports no error but that the root does not exist. *)
Definition pullEnumerates (env : Env) (opts : PullOptions) : Prop :=
  isOk (ListObjects env (pl_Prefix opts) true) = true ∧
  (pl_DryRun opts = false → MkdirAll env [] (pl_MountPath opts) = None) ∧
  (pl_Delete opts = true → ∀ log,
     match walkError (pl_MountPath opts)
             (Walk env log (Join (pl_MountPath opts) (pl_Prefix opts))) with
     | Some err => IsNotExist (Some err) = true
     | None => True
     end).

Definition failures (log : list Event) : nat :=
  length (filter (λ ev, failedCall ev = true) log).

End Plan.

(** ** A small world to run the code on

    A workspace [/ws] with five files and a bucket with five objects and a
    directory marker.  The upload of [b.txt] and the download of [old.txt]
    fail. *)
Module Example.

Definition sec (n : Z) : Time := n * 10 ^ 9.

Definition file (size : Z) (mtime : Time) : FileInfo :=
  {| fi_Size := size; fi_ModTime := mtime; fi_IsDir := false |}.
Definition dir : FileInfo :=
  {| fi_Size := 4096; fi_ModTime := sec 100; fi_IsDir := true |}.
Definition object (key : string) (size : Z) (mtime : Time) : S3Object :=
  {| Key := key; Size := size; LastModified := mtime; ETag := "" |}.

Definition remote : list S3Object :=
  [ object "a.txt" 10 (sec 1000);
    object "b.txt" 5 (sec 1000);
    object "cache.tmp" 3 (sec 1000);
    object "d.txt" 7 (sec 1000);
    object "logs/" 0 (sec 1000);
    object "old.txt" 1 (sec 1000) ].

Definition entry (path : string) (info : FileInfo) : WalkEntry :=
  {| we_path := path; we_info := info; we_err := None |}.

Definition tree : list WalkEntry :=
  [ entry "/ws" dir;
    entry "/ws/a.txt" (file 10 (sec 1000));
    entry "/ws/b.txt" (file 6 (sec 1000));
    entry "/ws/c.txt" (file 2 (sec 1000));
    entry "/ws/cache.tmp" (file 3 (sec 1000));
    entry "/ws/d.txt" (file 7 (sec 1000 + 1001 * Millisecond)) ].

Definition statLocal (path : string) : result FileInfo :=
  match list_find (λ e, we_path e = path) tree with
  | Some (_, e) => Ok (we_info e)
  | None => Err ErrNotExist
  end.

Definition env : Env := {|
  ListObjects := λ _ _, Ok remote;
  Stat := λ _ path, statLocal path;
  Walk := λ _ _, tree;
  UploadFile := λ _ _ key,
    if String.eqb key "b.txt" then Some (ErrOther "access denied") else None;
  DeleteObject := λ _ _, None;
  MkdirAll := λ _ _, None;
  DownloadFile := λ _ key _,
    if String.eqb key "old.txt" then Some (ErrOther "size mismatch") else None;
  Remove := λ _ _, None;
  RangeRank := λ _, 0%nat;
|}.

(** The same world without the workspace directory. *)
Definition envNoRoot : Env := {|
  ListObjects := ListObjects env;
  Stat := λ _ _, Err ErrNotExist;
  Walk := λ _ _, [];
  UploadFile := UploadFile env;
  DeleteObject := DeleteObject env;
  MkdirAll := MkdirAll env;
  DownloadFile := DownloadFile env;
  Remove := Remove env;
  RangeRank := RangeRank env;
|}.

(** The same world with a bucket that cannot be listed. *)
Definition envNoListing : Env := {|
  ListObjects := λ _ _, Err (ErrOther "connection refused");
  Stat := Stat envNoRoot;
  Walk := Walk envNoRoot;
  UploadFile := UploadFile env;
  DeleteObject := DeleteObject env;
  MkdirAll := MkdirAll env;
  DownloadFile := DownloadFile env;
  Remove := Remove env;
  RangeRank := RangeRank env;
|}.

Definition pushOpts (dry del : bool) (globs : list string) : PushOptions :=
  {| Prefix := ""; DryRun := dry; Delete := del; ExcludeGlobs := globs;
     MountPath := "/ws" |}.
Definition pullOpts (dry del : bool) : PullOptions :=
  {| pl_Prefix := ""; pl_DryRun := dry; pl_Delete := del;
     pl_MountPath := "/ws" |}.

Definition push : Env → PushOptions → result PushStats * list Event :=
  @Push Unix.paths.
Definition pull : Env → PullOptions → result PullStats * list Event :=
  @Pull Unix.paths.

Definition pushStatsOf (r : result PushStats * list Event) : PushStats :=
  match r.1 with Ok stats => stats | Err _ => zeroPushStats end.

End Example.

(** * The rest of the repository

    What [pkg/sync] is built on and what calls it: [pkg/config], the client
    of [pkg/s3client], and the commands of [cmd]. *)

(** ** [strings], continued *)

Definition TrimPrefix (s prefix : string) : string :=
  if HasPrefix s prefix
  then substring (String.length prefix)
         (String.length s - String.length prefix) s
  else s.

Fixpoint TrimLeftFunc (f : ascii → bool) (s : string) : string :=
  match s with
  | EmptyString => EmptyString
  | String c rest => if f c then TrimLeftFunc f rest else s
  end.

Fixpoint TrimRightFunc (f : ascii → bool) (s : string) : string :=
  match s with
  | EmptyString => EmptyString
  | String c rest =>
    let t := TrimRightFunc f rest in
    if String.eqb t EmptyString && f c then EmptyString else String c t
  end.

Fixpoint inCutset (cutset : string) (c : ascii) : bool :=
  match cutset with
  | EmptyString => false
  | String d rest => Ascii.eqb c d || inCutset rest c
  end.

(** [strings.Trim] for a cutset of single-byte characters. *)
Definition Trim (s cutset : string) : string :=
  TrimRightFunc (inCutset cutset) (TrimLeftFunc (inCutset cutset) s).

(** The white space of [strings.TrimSpace] among the single-byte
    characters: tab, line feed, vertical tab, form feed, carriage return and
    space. *)
Definition isSpace (c : ascii) : bool :=
  let n := nat_of_ascii c in
  ((9 <=? n) && (n <=? 13))%nat || (n =? 32)%nat.

Definition TrimSpace (s : string) : string :=
  TrimRightFunc isSpace (TrimLeftFunc isSpace s).

(** The string made of one double quote. *)
Definition quote : string := String (ascii_of_nat 34) EmptyString.

(** ** [pkg/config]

    The package as the commands use it: the version of [config.go] that
    reads each value from a file of [/etc/config-nv] first and from the
    environment otherwise. *)
Module config.

Record Config : Type := {
  AccessKeyID : string;
  SecretAccessKey : string;
  Endpoint : string;
  BucketName : string;
  MountPath : string;
}.

(** What [Load] reads: the files of the machine, its environment variables
    (an unset variable reads as the empty string) and the home directory. *)
Record Os : Type := {
  ReadFile : string → result string;
  Getenv : string → string;
  UserHomeDir : result string;
}.

Definition configDir : string := "/etc/config-nv".

Definition getConfigValue (os : Os) (key : string) : string :=
  let filePath := configDir +:+ "/" +:+ key in
  match ReadFile os filePath with
  | Ok data => TrimSpace data
  | Err _ => Getenv os key
  end.

Definition Validate (c : Config) : option error :=
  if String.eqb (AccessKeyID c) "" then
    Some (ErrOther "AWS_ACCESS_KEY_ID is required (set via /etc/config-nv/AWS_ACCESS_KEY_ID file or environment variable)")
  else if String.eqb (SecretAccessKey c) "" then
    Some (ErrOther "AWS_SECRET_ACCESS_KEY is required (set via /etc/config-nv/AWS_SECRET_ACCESS_KEY file or environment variable)")
  else if String.eqb (Endpoint c) "" then
    Some (ErrOther "AWS_ENDPOINT is required (set via /etc/config-nv/AWS_ENDPOINT file or environment variable)")
  else None.

Definition Load (os : Os) : result Config :=
  let mountPath := getConfigValue os "MOUNT_PATH" in
  let resolved :=
    if String.eqb mountPath "" then
      match UserHomeDir os with
      | Err err => Err (Wrapped "failed to get home directory" err)
      | Ok home => Ok (home +:+ "/test/workspace")
      end
    else Ok mountPath in
  match resolved with
  | Err err => Err err
  | Ok mountPath =>
    let cfg := {| AccessKeyID := getConfigValue os "AWS_ACCESS_KEY_ID";
                  SecretAccessKey := getConfigValue os "AWS_SECRET_ACCESS_KEY";
                  Endpoint := getConfigValue os "AWS_ENDPOINT";
                  BucketName := getConfigValue os "S3_BUCKET";
                  MountPath := mountPath |} in
    match Validate cfg with
    | Some err => Err err
    | None => Ok cfg
    end
  end.

End config.

(** ** [pkg/s3client] *)
Module s3client.

(** [minio.ObjectInfo], as far as the client reads it; [oi_Err] is the error
    an item of a listing may carry. *)
Record ObjectInfo : Type := {
  oi_Key : string;
  oi_Size : Z;
  oi_LastModified : Time;
  oi_ETag : string;
  oi_Err : option error;
}.

(** [minio.Options]; [Creds] are the arguments of
    [credentials.NewStaticV4]. *)
Record Options : Type := {
  Creds : string * string * string;
  Secure : bool;
  Region : string;
}.

Record PutObjectOptions : Type := {
  ContentType : string;
  NumThreads : Z;
  PartSize : Z;
  SendContentMd5 : bool;
}.

Record Bucket : Type := {
  Name : string;
  CreationDate : Time;
}.

(** A client: its configuration and the MinIO client, which is known by the
    endpoint and the options it was made with. *)
Record Client : Type := {
  cfg : config.Config;
  minioClient : string * Options;
}.

(** The calls [DownloadFile], [UploadFile] and [DeleteObject] make, in
    order, with their outcome; each of the three takes the calls made before
    it and returns them with its own.  [CallCopy] is [io.Copy] into the local file;
    its flag tells whether the reader was wrapped to report progress. *)
Inductive Call : Type :=
| CallMkdirAll (dir : string) (err : option error)
| CallStatObject (key : string) (err : option error)
| CallGetObject (key : string) (err : option error)
| CallCreate (path : string) (err : option error)
| CallCopy (path key : string) (progress : bool) (written : Z)
    (err : option error)
| CallChtimes (path : string) (mtime : Time) (err : option error)
| CallCloseFile (path : string)
| CallCloseObject (key : string)
| CallStat (path : string) (err : option error)
| CallOpen (path : string) (err : option error)
| CallPutObject (key : string) (size : Z) (progress : bool)
    (options : PutObjectOptions) (err : option error)
| CallRemoveObject (key : string) (err : option error).

(** The MinIO client and the file system; each response may depend on the
    calls made so far. *)
Record World : Type := {
  minio_New : string → Options → option error;
  minio_ListObjects : string → string → bool → list ObjectInfo;
  minio_ListBuckets : result (list Bucket);
  StatObject : list Call → string → string → result ObjectInfo;
  GetObject : list Call → string → string → option error;
  PutObject : list Call → string → string → Z → PutObjectOptions → result Z;
  RemoveObject : list Call → string → string → option error;
  os_MkdirAll : list Call → string → option error;
  os_Create : list Call → string → option error;
  io_Copy : list Call → string → string → Z * option error;
  os_Chtimes : list Call → string → Time → option error;
  os_Stat : list Call → string → result FileInfo;
  os_Open : list Call → string → option error;
}.

(** *** The progress reader *)

(** What the wrapped reader returns besides the byte count. *)
Inductive ReadError : Type :=
| EOF
| ReadFailed (err : error).

Record ProgressReader : Type := {
  total : Z;
  current : Z;
  key : string;
  lastReported : Z;
}.

Definition NewProgressReader (total : Z) (key : string) : ProgressReader :=
  {| total := total; current := 0; key := key; lastReported := 0 |}.

Definition isEOF (err : option ReadError) : bool :=
  match err with Some EOF => true | _ => false end.

(** [Read], given what the wrapped reader returned: the reader afterwards
    and, when progress is printed, the byte count and the total printed. *)
Definition Read (pr : ProgressReader) (n : Z) (err : option ReadError)
    : ProgressReader * option (Z * Z) :=
  let current := wrap_int (current pr + n) in
  if (10 * 1024 * 1024 <=? wrap_int (current - lastReported pr)) || isEOF err
  then ({| total := total pr; current := current; key := key pr;
           lastReported := current |}, Some (current, total pr))
  else ({| total := total pr; current := current; key := key pr;
           lastReported := lastReported pr |}, None).

(** A reader over the calls of [Read] that a copy makes, with the progress
    lines printed. *)
Fixpoint ReadAll (pr : ProgressReader) (reads : list (Z * option ReadError))
    : ProgressReader * list (Z * Z) :=
  match reads with
  | [] => (pr, [])
  | (n, err) :: rest =>
    let '(pr', line) := Read pr n err in
    let '(pr'', lines) := ReadAll pr' rest in
    (pr'', match line with Some l => l :: lines | None => lines end)
  end.

(** *** The client *)

Definition New (w : World) (cfg : config.Config) : result Client :=
  let endpoint := TrimPrefix (config.Endpoint cfg) "https://" in
  let endpoint := TrimPrefix endpoint "http://" in
  let useSSL := HasPrefix (config.Endpoint cfg) "https://" in
  let options :=
    {| Creds := (config.AccessKeyID cfg, config.SecretAccessKey cfg, "");
       Secure := useSSL;
       Region := "hcm04" |} in
  match minio_New w endpoint options with
  | Some err => Err (Wrapped "failed to create MinIO client" err)
  | None => Ok {| cfg := cfg; minioClient := (endpoint, options) |}
  end.

(** The loop of [ListObjects] over the items of the listing. *)
Fixpoint collectObjects (objectCh : list ObjectInfo) (objects : list S3Object)
    : result (list S3Object) :=
  match objectCh with
  | [] => Ok objects
  | object :: rest =>
    match oi_Err object with
    | Some err => Err (Wrapped "error listing objects" err)
    | None =>
      collectObjects rest
        (objects ++ [ {| Key := oi_Key object;
                         Size := oi_Size object;
                         LastModified := oi_LastModified object;
                         ETag := Trim (oi_ETag object) quote |} ])
    end
  end.

Definition ListObjects (w : World) (c : Client) (prefix : string)
    (recursive : bool) : result (list S3Object) :=
  collectObjects
    (minio_ListObjects w (config.BucketName (cfg c)) prefix recursive) [].

Definition tenMB : Z := 10 * 1024 * 1024.

(** [fmt.Errorf("size mismatch for %s: expected %d, got %d", ...)] *)
Definition sizeMismatch (key : string) (expected got : Z) : error :=
  ErrOther ("size mismatch for " +:+ key +:+ ": expected " +:+ pretty expected
            +:+ ", got " +:+ pretty got).

Section Files.
Variable Dir : string → string.

Definition DownloadFile (w : World) (c : Client) (log : list Call)
    (key localPath : string) : option error * list Call :=
  let bucket := config.BucketName (cfg c) in
  let dir := Dir localPath in
  match os_MkdirAll w log dir with
  | Some err =>
    (Some (Wrapped ("failed to create directory " +:+ dir) err),
     log ++ [CallMkdirAll dir (Some err)])
  | None =>
    let log := log ++ [CallMkdirAll dir None] in
    match StatObject w log bucket key with
    | Err err =>
      (Some (Wrapped ("failed to stat object " +:+ key) err),
       log ++ [CallStatObject key (Some err)])
    | Ok objInfo =>
      let log := log ++ [CallStatObject key None] in
      match GetObject w log bucket key with
      | Some err =>
        (Some (Wrapped ("failed to get object " +:+ key) err),
         log ++ [CallGetObject key (Some err)])
      | None =>
        let log := log ++ [CallGetObject key None] in
        match os_Create w log localPath with
        | Some err =>
          (Some (Wrapped ("failed to create local file " +:+ localPath) err),
           log ++ [CallCreate localPath (Some err); CallCloseObject key])
        | None =>
          let log := log ++ [CallCreate localPath None] in
          let closes := [CallCloseFile localPath; CallCloseObject key] in
          let progress := tenMB <? oi_Size objInfo in
          match io_Copy w log localPath key with
          | (written, Some err) =>
            (Some (Wrapped ("failed to download " +:+ key) err),
             log ++ [CallCopy localPath key progress written (Some err)]
                 ++ closes)
          | (written, None) =>
            let log := log ++ [CallCopy localPath key progress written None] in
            let cherr := os_Chtimes w log localPath (oi_LastModified objInfo) in
            let log :=
              log ++ [CallChtimes localPath (oi_LastModified objInfo) cherr] in
            if negb (written =? oi_Size objInfo)
            then (Some (sizeMismatch key (oi_Size objInfo) written),
                  log ++ closes)
            else (None, log ++ closes)
          end
        end
      end
    end
  end.

Definition uploadOpts : PutObjectOptions :=
  {| ContentType := "application/octet-stream";
     NumThreads := 10;
     PartSize := 16 * 1024 * 1024;
     SendContentMd5 := false |}.

Definition UploadFile (w : World) (c : Client) (log : list Call)
    (localPath key : string) : option error * list Call :=
  let bucket := config.BucketName (cfg c) in
  match os_Stat w log localPath with
  | Err err =>
    (Some (Wrapped ("failed to stat local file " +:+ localPath) err),
     log ++ [CallStat localPath (Some err)])
  | Ok fileInfo =>
    let log := log ++ [CallStat localPath None] in
    match os_Open w log localPath with
    | Some err =>
      (Some (Wrapped ("failed to open local file " +:+ localPath) err),
       log ++ [CallOpen localPath (Some err)])
    | None =>
      let log := log ++ [CallOpen localPath None] in
      let progress := tenMB <? fi_Size fileInfo in
      match PutObject w log bucket key (fi_Size fileInfo) uploadOpts with
      | Err err =>
        (Some (Wrapped ("failed to upload " +:+ key) err),
         log ++ [CallPutObject key (fi_Size fileInfo) progress uploadOpts
                   (Some err);
                 CallCloseFile localPath])
      | Ok size =>
        let log :=
          log ++ [CallPutObject key (fi_Size fileInfo) progress uploadOpts None;
                  CallCloseFile localPath] in
        if negb (size =? fi_Size fileInfo)
        then (Some (sizeMismatch key (fi_Size fileInfo) size), log)
        else (None, log)
      end
    end
  end.

End Files.

Definition DeleteObject (w : World) (c : Client) (log : list Call)
    (key : string) : option error * list Call :=
  match RemoveObject w log (config.BucketName (cfg c)) key with
  | Some err =>
    (Some (Wrapped ("failed to delete " +:+ key) err),
     log ++ [CallRemoveObject key (Some err)])
  | None => (None, log ++ [CallRemoveObject key None])
  end.

Definition GetObjectMetadata (w : World) (c : Client) (log : list Call)
    (key : string) : result S3Object :=
  match StatObject w log (config.BucketName (cfg c)) key with
  | Err err => Err (Wrapped ("failed to get metadata for " +:+ key) err)
  | Ok objInfo =>
    Ok {| Key := key;
          Size := oi_Size objInfo;
          LastModified := oi_LastModified objInfo;
          ETag := Trim (oi_ETag objInfo) quote |}
  end.

Definition ListBuckets (w : World) (c : Client) : result (list Bucket) :=
  match minio_ListBuckets w with
  | Err err => Err (Wrapped "failed to list buckets" err)
  | Ok buckets =>
    Ok (map (λ bucket, {| Name := Name bucket;
                          CreationDate := CreationDate bucket |}) buckets)
  end.

End s3client.

(** ** [cmd] *)
Module cmd.

(** What [rm] did: the keys it announced, the calls the client made, and
    the two counters of its summary. *)
Record RmState : Type := {
  rm_announced : list string;
  rm_calls : list s3client.Call;
  rm_deleted : Z;
  rm_failed : Z;
}.

Definition rmStart : RmState :=
  {| rm_announced := []; rm_calls := []; rm_deleted := 0; rm_failed := 0 |}.

(** The body of [for _, key := range keysToDelete]. *)
Definition rmStep (w : s3client.World) (client : s3client.Client)
    (dryRun : bool) (st : RmState) (key : string) : RmState :=
  let announced := rm_announced st ++ [key] in
  if negb dryRun then
    match s3client.DeleteObject w client (rm_calls st) key with
    | (Some _, calls) =>
      {| rm_announced := announced; rm_calls := calls;
         rm_deleted := rm_deleted st; rm_failed := int_incr (rm_failed st) |}
    | (None, calls) =>
      {| rm_announced := announced; rm_calls := calls;
         rm_deleted := int_incr (rm_deleted st); rm_failed := rm_failed st |}
    end
  else
    {| rm_announced := announced; rm_calls := rm_calls st;
       rm_deleted := rm_deleted st; rm_failed := rm_failed st |}.

(** The keys [rm] goes over: with a prefix the listed keys that are not
    directory markers, otherwise the arguments. *)
Definition rmKeys (w : s3client.World) (client : s3client.Client)
    (prefix : string) (recursive : bool) (args : list string)
    : result (list string) :=
  if negb (String.eqb prefix "") then
    match s3client.ListObjects w client prefix recursive with
    | Err err => Err (Wrapped "failed to list objects" err)
    | Ok objects =>
      Ok (foldl (λ keysToDelete obj,
                   if negb (HasSuffix (Key obj) "/")
                   then keysToDelete ++ [Key obj] else keysToDelete)
                [] objects)
    end
  else if (length args =? 0)%nat then
    Err (ErrOther "either provide file keys as arguments or use --prefix flag")
  else Ok args.

(** [rmCmd.RunE] with the flags [--prefix], [--dry-run], [--recursive] and
    the arguments [args]. *)
Definition rmRun (os : config.Os) (w : s3client.World) (prefix : string)
    (dryRun recursive : bool) (args : list string)
    : option error * RmState :=
  match config.Load os with
  | Err err => (Some (Wrapped "failed to load configuration" err), rmStart)
  | Ok cfg =>
    if String.eqb (config.BucketName cfg) "" then
      (Some (ErrOther "S3_BUCKET is required for remove operations (set via /etc/config-nv/S3_BUCKET file or environment variable)"),
       rmStart)
    else
      match s3client.New w cfg with
      | Err err => (Some (Wrapped "failed to create S3 client" err), rmStart)
      | Ok client =>
        match rmKeys w client prefix recursive args with
        | Err err => (Some err, rmStart)
        | Ok keysToDelete =>
          if (length keysToDelete =? 0)%nat then (None, rmStart)
          else (None, foldl (rmStep w client dryRun) rmStart keysToDelete)
        end
      end
  end.

(** What [ls] prints, without the layout: the buckets, or that there are
    no objects, or the bucket, the prefix when one is given, a row for each
    object and the total.  A row is a directory row, or carries the size
    and, unless it is the zero time, the modification time. *)
Inductive LsRow : Type :=
| RowDir (key : string)
| RowFile (key : string) (size : Z) (modified : option Time).

Inductive LsOutput : Type :=
| LsBuckets (buckets : list s3client.Bucket)
| LsNoObjects
| LsListing (bucket : string) (prefix : option string) (rows : list LsRow)
    (total : nat).

Definition IsZero (t : Time) : bool := t =? zeroTime.

(** The body of [for _, obj := range objects] of [ls]. *)
Definition lsRow (obj : S3Object) : LsRow :=
  if (Size obj =? 0) && String.eqb (ETag obj) "" && IsZero (LastModified obj)
  then RowDir (Key obj)
  else RowFile (Key obj) (Size obj)
         (if negb (IsZero (LastModified obj)) then Some (LastModified obj)
          else None).

(** [lsCmd.RunE] with the flags [--prefix] and [--recursive]. *)
Definition lsRun (os : config.Os) (w : s3client.World) (prefix : string)
    (recursive : bool) : option error * option LsOutput :=
  match config.Load os with
  | Err err => (Some (Wrapped "failed to load configuration" err), None)
  | Ok cfg =>
    match s3client.New w cfg with
    | Err err => (Some (Wrapped "failed to create S3 client" err), None)
    | Ok client =>
      if String.eqb (config.BucketName cfg) "" then
        match s3client.ListBuckets w client with
        | Err err => (Some (Wrapped "failed to list buckets" err), None)
        | Ok buckets => (None, Some (LsBuckets buckets))
        end
      else
        match s3client.ListObjects w client prefix recursive with
        | Err err => (Some (Wrapped "failed to list objects" err), None)
        | Ok objects =>
          if (length objects =? 0)%nat then (None, Some LsNoObjects)
          else
            (None,
             Some (LsListing (config.BucketName cfg)
                     (if negb (String.eqb prefix "") then Some prefix else None)
                     (lsRow <$> objects) (length objects)))
        end
    end
  end.

Section Sync.
Context `{Filepath}.

(** The lines of the summary of a push or a pull that carry a counter. *)
Definition summary (transferred : string) (n : Z) (skipped : Z)
    (withDeleted : bool) (deleted : Z) (failed : Z) : list (string * Z) :=
  [(transferred, n); ("Skipped", skipped)]
  ++ (if withDeleted then [("Deleted", deleted)] else [])
  ++ (if 0 <? failed then [("Failed", failed)] else []).

(** [pushCmd.RunE] with the flags [--prefix], [--dry-run], [--delete] and
    [--exclude]: the error it returns, the log of the push and the summary
    it prints.  [env] gives the world as [sync.Push] sees it through the
    client it is handed. *)
Definition pushRun (os : config.Os) (w : s3client.World)
    (env : s3client.Client → Env)
    (prefix : string) (dryRun deleteRemote : bool) (exclude : list string)
    : option error * list Event * list (string * Z) :=
  match config.Load os with
  | Err err => (Some (Wrapped "failed to load configuration" err), [], [])
  | Ok cfg =>
    if String.eqb (config.BucketName cfg) "" then
      (Some (ErrOther "S3_BUCKET is required for push operations (set via /etc/config-nv/S3_BUCKET file or environment variable)"),
       [], [])
    else
      match s3client.New w cfg with
      | Err err => (Some (Wrapped "failed to create S3 client" err), [], [])
      | Ok client =>
        match Push (env client) {| Prefix := prefix; DryRun := dryRun;
                          Delete := deleteRemote; ExcludeGlobs := exclude;
                          MountPath := config.MountPath cfg |} with
        | (Err err, log) => (Some (Wrapped "push failed" err), log, [])
        | (Ok stats, log) =>
          (None, log,
           summary "Uploaded" (Uploaded stats) (Skipped stats) deleteRemote
             (Deleted stats) (Failed stats))
        end
      end
  end.


End Sync.

End cmd.

(** ** Reading a run, continued *)
Section Walked.
Context `{Filepath}.

(** The entries a walk hands to the callback before the callback returns an
    error. *)
Fixpoint walkedBefore (mount : string) (entries : list WalkEntry)
    : list WalkEntry :=
  match entries with
  | [] => []
  | e :: rest =>
    match entryError mount e with
    | Some _ => []
    | None => e :: walkedBefore mount rest
    end
  end.

End Walked.

Definition transferDone (ev : Event) : bool :=
  match ev with
  | CallUploadFile _ _ None | CallDownloadFile _ _ None => true
  | _ => false
  end.

Definition deleteDone (ev : Event) : bool :=
  match ev with
  | CallDeleteObject _ None | CallRemove _ None => true
  | _ => false
  end.

Definition countOf (f : Event → bool) (log : list Event) : nat :=
  length (filter (λ ev, f ev = true) log).

(** The counters of a state and its log agree: each counter is the number
    of events of its kind, and in a live run every decision and every
    selection for deletion is in exactly one of the four. *)
Definition tallied (live : bool) (uploaded skipped deleted failed : Z)
    (log : list Event) : Prop :=
  uploaded = wrap_int (Z.of_nat (countOf transferDone log)) ∧
  skipped = (if live then wrap_int (Z.of_nat (length (toSkip log))) else 0) ∧
  deleted = wrap_int (Z.of_nat (countOf deleteDone log)) ∧
  failed = wrap_int (Z.of_nat (failures log)) ∧
  (live = true →
   (length (decided log) + length (toDelete log)
    = countOf transferDone log + length (toSkip log)
      + countOf deleteDone log + failures log)%nat).


(** The options of the dry run of a push, and what a run announces: its log
    without the calls that change the bucket or the local tree. *)
Definition dryRunOf (opts : PushOptions) : PushOptions :=
  {| Prefix := Prefix opts; DryRun := true; Delete := Delete opts;
     ExcludeGlobs := ExcludeGlobs opts; MountPath := MountPath opts |}.

Definition announced (log : list Event) : list Event :=
  filter (λ ev, mutating ev = false) log.

(** A state of a run and the state of its dry run at the same point. *)
Definition dryOf (st dry : PushState) : Prop :=
  ps_localFiles dry = ps_localFiles st ∧ ps_log dry = announced (ps_log st).

(** ** Reading the calls of the client *)

(** What a call opens and what a call closes: a local file (by its path) or
    the reader of an object (by its key). *)
Definition openedBy (call : s3client.Call) : option (string + string) :=
  match call with
  | s3client.CallCreate path None | s3client.CallOpen path None =>
    Some (inl path)
  | s3client.CallGetObject key None => Some (inr key)
  | _ => None
  end.

Definition closedBy (call : s3client.Call) : option (string + string) :=
  match call with
  | s3client.CallCloseFile path => Some (inl path)
  | s3client.CallCloseObject key => Some (inr key)
  | _ => None
  end.

(** The calls that write: to the local tree or to the bucket. *)
Definition writes (call : s3client.Call) : bool :=
  match call with
  | s3client.CallCreate _ _ | s3client.CallCopy _ _ _ _ _
  | s3client.CallChtimes _ _ _ | s3client.CallPutObject _ _ _ _ _
  | s3client.CallRemoveObject _ _ => true
  | _ => false
  end.

Definition removedKey (call : s3client.Call) : option string :=
  match call with
  | s3client.CallRemoveObject key _ => Some key
  | _ => None
  end.

Definition removeDone (call : s3client.Call) : bool :=
  match call with
  | s3client.CallRemoveObject _ None => true
  | _ => false
  end.

Definition removeFailed (call : s3client.Call) : bool :=
  match call with
  | s3client.CallRemoveObject _ (Some _) => true
  | _ => false
  end.

Definition callsOf (f : s3client.Call → bool) (calls : list s3client.Call)
    : nat :=
  length (filter (λ call, f call = true) calls).

(** The fields of an item of a listing, as [ListObjects] returns them. *)
Definition listed (object : s3client.ObjectInfo) : S3Object :=
  {| Key := s3client.oi_Key object;
     Size := s3client.oi_Size object;
     LastModified := s3client.oi_LastModified object;
     ETag := Trim (s3client.oi_ETag object) quote |}.

(** The byte counts of a sequence of reads, added up. *)
Definition bytesRead (reads : list (Z * option s3client.ReadError)) : Z :=
  foldr (λ read sum, read.1 + sum) 0 reads.

(** The counters of [rm] agree with the calls it made. *)
Definition rmTallied (dryRun : bool) (st : cmd.RmState) : Prop :=
  omap removedKey (cmd.rm_calls st)
    = (if dryRun then [] else cmd.rm_announced st) ∧
  length (cmd.rm_calls st)
    = (if dryRun then 0%nat else length (cmd.rm_announced st)) ∧
  cmd.rm_deleted st
    = wrap_int (Z.of_nat (callsOf removeDone (cmd.rm_calls st))) ∧
  cmd.rm_failed st
    = wrap_int (Z.of_nat (callsOf removeFailed (cmd.rm_calls st))) ∧
  (callsOf removeDone (cmd.rm_calls st)
   + callsOf removeFailed (cmd.rm_calls st))%nat
    = length (cmd.rm_calls st).

(** A state in which no transfer has been announced or made. *)
Definition noUpload (st : PushState) : Prop :=
  toTransfer (ps_log st) = [] ∧ transferCalls (ps_log st) = [] ∧
  Uploaded (ps_stats st) = 0.

Definition noDownload (st : PullState) : Prop :=
  toTransfer (pl_log st) = [] ∧ transferCalls (pl_log st) = [] ∧
  Downloaded (pl_stats st) = 0.

(** ** A machine to run the commands on

    The example world again, with a configuration and a MinIO endpoint: the
    endpoint is read from a file of [/etc/config-nv], the rest from the
    environment.  The bucket lists three objects and a directory marker;
    the removal of [b.txt] fails. *)
Module Machine.

Definition newline : string := String (ascii_of_nat 10) EmptyString.

Definition getenv (key : string) : string :=
  if String.eqb key "AWS_ACCESS_KEY_ID" then "AKIA"
  else if String.eqb key "AWS_SECRET_ACCESS_KEY" then "secret"
  else if String.eqb key "AWS_ENDPOINT" then "http://unused.example.com"
  else if String.eqb key "S3_BUCKET" then "volume"
  else if String.eqb key "MOUNT_PATH" then "/ws"
  else "".

Definition os : config.Os := {|
  config.ReadFile := λ path,
    if String.eqb path "/etc/config-nv/AWS_ENDPOINT"
    then Ok (" https://s3.example.com" +:+ newline)
    else Err ErrNotExist;
  config.Getenv := getenv;
  config.UserHomeDir := Ok "/home/user";
|}.

(** The same machine with a blank endpoint file. *)
Definition osBlank : config.Os := {|
  config.ReadFile := λ path,
    if String.eqb path "/etc/config-nv/AWS_ENDPOINT"
    then Ok (" " +:+ newline)
    else Err ErrNotExist;
  config.Getenv := getenv;
  config.UserHomeDir := Ok "/home/user";
|}.

(** The same machine without a bucket name. *)
Definition osNoBucket : config.Os := {|
  config.ReadFile := config.ReadFile os;
  config.Getenv := λ key, if String.eqb key "S3_BUCKET" then "" else getenv key;
  config.UserHomeDir := Ok "/home/user";
|}.

Definition cfg : config.Config := {|
  config.AccessKeyID := "AKIA";
  config.SecretAccessKey := "secret";
  config.Endpoint := "https://s3.example.com";
  config.BucketName := "volume";
  config.MountPath := "/ws";
|}.

Definition item (key : string) (size : Z) (etag : string)
    : s3client.ObjectInfo :=
  {| s3client.oi_Key := key; s3client.oi_Size := size;
     s3client.oi_LastModified := Example.sec 1000;
     s3client.oi_ETag := quote +:+ etag +:+ quote;
     s3client.oi_Err := None |}.

Definition items : list s3client.ObjectInfo :=
  [ item "data/a.txt" 10 "9a0364b9";
    item "data/b.txt" 5 "1f3870be";
    item "data/logs/" 0 "d41d8cd9";
    item "data/old.txt" 1 "c4ca4238" ].

Definition world : s3client.World := {|
  s3client.minio_New := λ _ _, None;
  s3client.minio_ListObjects := λ _ _ _, items;
  s3client.minio_ListBuckets :=
    Ok [ {| s3client.Name := "volume";
            s3client.CreationDate := Example.sec 500 |} ];
  s3client.StatObject := λ _ _ key, Ok (item key 10 "9a0364b9");
  s3client.GetObject := λ _ _ _, None;
  s3client.PutObject := λ _ _ _ size _, Ok size;
  s3client.RemoveObject := λ _ _ key,
    if String.eqb key "data/b.txt" then Some (ErrOther "access denied")
    else None;
  s3client.os_MkdirAll := λ _ _, None;
  s3client.os_Create := λ _ _, None;
  s3client.io_Copy := λ _ _ _, (10, None);
  s3client.os_Chtimes := λ _ _ _, None;
  s3client.os_Stat := λ _ path, Example.statLocal path;
  s3client.os_Open := λ _ _, None;
|}.

Definition client : s3client.Client := {|
  s3client.cfg := cfg;
  s3client.minioClient :=
    ("s3.example.com",
     {| s3client.Creds := ("AKIA", "secret", "");
        s3client.Secure := true;
        s3client.Region := "hcm04" |});
|}.

(** The example tree with an entry that cannot be read after [b.txt]. *)
Definition brokenTree : list WalkEntry :=
  [ Example.entry "/ws" Example.dir;
    Example.entry "/ws/a.txt" (Example.file 10 (Example.sec 1000));
    Example.entry "/ws/b.txt" (Example.file 6 (Example.sec 1000));
    {| we_path := "/ws/private"; we_info := Example.dir;
       we_err := Some (ErrOther "permission denied") |};
    Example.entry "/ws/c.txt" (Example.file 2 (Example.sec 1000)) ].

Definition envBrokenWalk : Env := {|
  ListObjects := ListObjects Example.env;
  Stat := Stat Example.env;
  Walk := λ _ _, brokenTree;
  UploadFile := UploadFile Example.env;
  DeleteObject := DeleteObject Example.env;
  MkdirAll := MkdirAll Example.env;
  DownloadFile := DownloadFile Example.env;
  Remove := Remove Example.env;
  RangeRank := RangeRank Example.env;
|}.

(** The example world with a bucket that holds what the tree holds of it. *)
Definition syncedRemote : list S3Object :=
  [ Example.object "a.txt" 10 (Example.sec 1000);
    Example.object "cache.tmp" 3 (Example.sec 1001);
    Example.object "logs/" 0 (Example.sec 1000) ].

Definition envSynced : Env := {|
  ListObjects := λ _ _, Ok syncedRemote;
  Stat := Stat Example.env;
  Walk := Walk Example.env;
  UploadFile := UploadFile Example.env;
  DeleteObject := DeleteObject Example.env;
  MkdirAll := MkdirAll Example.env;
  DownloadFile := DownloadFile Example.env;
  Remove := Remove Example.env;
  RangeRank := RangeRank Example.env;
|}.

Definition pullStatsOf (r : result PullStats * list Event) : PullStats :=
  match r.1 with Ok stats => stats | Err _ => zeroPullStats end.

End Machine.

(** * Properties *)

(** ** [strings] *)

Lemma substring_0_0 (s : string) : substring 0 0 s = EmptyString.
Proof. by destruct s. Qed.

Lemma substring_whole (s : string) : substring 0 (String.length s) s = s.
Proof. induction s as [|c s IH]; simpl; [done | by rewrite IH]. Qed.

Lemma substring_skip (t u : string) (n : nat) :
  substring (String.length t) n (t +:+ u) = substring 0 n u.
Proof. induction t as [|c t IH]; simpl; [done | apply IH]. Qed.

Lemma substring_take_app (t u : string) :
  substring 0 (String.length t) (t +:+ u) = t.
Proof.
  induction t as [|c t IH]; simpl; [apply substring_0_0 | by rewrite IH].
Qed.

Lemma substring_split (s : string) (n m : nat) :
  (n + m = String.length s)%nat →
  s = substring 0 n s +:+ substring n m s.
Proof.
  revert n m. induction s as [|c s IH]; intros n m Hlen; simpl in *.
  - by destruct n, m.
  - destruct n as [|n]; simpl.
    + destruct m as [|m]; [done|]. simpl in Hlen.
      injection Hlen as ->. by rewrite substring_whole.
    + change (String c s = String c (substring 0 n s +:+ substring n m s)).
      f_equal. apply IH. lia.
Qed.

Lemma length_append (t u : string) :
  String.length (t +:+ u) = (String.length t + String.length u)%nat.
Proof. induction t as [|c t IH]; simpl; [done | by rewrite IH]. Qed.

Lemma append_cons (c : ascii) (s t : string) :
  String c s +:+ t = String c (s +:+ t).
Proof. done. Qed.

Lemma append_assoc (s t u : string) : (s +:+ t) +:+ u = s +:+ t +:+ u.
Proof.
  induction s as [|c s IH]; [done|]. by rewrite !append_cons, IH.
Qed.

Lemma String_eqb_true (s t : string) : String.eqb s t = true ↔ s = t.
Proof. apply String.eqb_eq. Qed.

Lemma HasPrefix_spec (s prefix : string) :
  HasPrefix s prefix = true ↔ ∃ t, s = prefix +:+ t.
Proof.
  unfold HasPrefix. rewrite andb_true_iff, String_eqb_true, Nat.leb_le.
  split.
  - intros [Hlen Heq].
    exists (substring (String.length prefix)
              (String.length s - String.length prefix) s).
    pose proof (substring_split s (String.length prefix)
                  (String.length s - String.length prefix)) as Hs.
    rewrite Heq in Hs. apply Hs. lia.
  - intros [t ->]. rewrite length_append, substring_take_app. split; [lia|done].
Qed.

Lemma HasSuffix_spec (s suffix : string) :
  HasSuffix s suffix = true ↔ ∃ t, s = t +:+ suffix.
Proof.
  unfold HasSuffix. rewrite andb_true_iff, String_eqb_true, Nat.leb_le.
  split.
  - intros [Hlen Heq].
    exists (substring 0 (String.length s - String.length suffix) s).
    pose proof (substring_split s (String.length s - String.length suffix)
                  (String.length suffix)) as Hs.
    rewrite Heq in Hs. apply Hs. lia.
  - intros [t ->]. rewrite length_append. split; [lia|].
    replace (String.length t + String.length suffix - String.length suffix)%nat
      with (String.length t) by lia.
    by rewrite substring_skip, substring_whole.
Qed.

Lemma TrimSuffix_app (t suffix : string) : TrimSuffix (t +:+ suffix) suffix = t.
Proof.
  unfold TrimSuffix.
  assert (HasSuffix (t +:+ suffix) suffix = true) as ->
    by (apply HasSuffix_spec; eauto).
  rewrite length_append.
  replace (String.length t + String.length suffix - String.length suffix)%nat
    with (String.length t) by lia.
  apply substring_take_app.
Qed.

Section Properties.
Context `{Filepath}.

(** ** The metadata comparison *)

Lemma Time_After_Add (t u : Time) :
  Time_After t (Time_Add u (1 * 10 ^ 9)) = true ↔ t - u > 1000 * Millisecond.
Proof.
  unfold Time_After, Time_Add, Millisecond. rewrite Z.ltb_lt.
  change (10 ^ 9) with 1000000000. change (10 ^ 6) with 1000000. lia.
Qed.

Lemma needsUpload_selected (path : string) (info : FileInfo) (obj : S3Object) :
  Key obj ≠ "" → fi_Size info = Size obj →
  needsUpload path info obj =
    if Time_After (fi_ModTime info) (Time_Add (LastModified obj) (1 * 10 ^ 9))
    then (true, "local is newer") else (false, "").
Proof.
  intros Hkey Hsize. unfold needsUpload.
  destruct (String.eqb_spec (Key obj) "") as [?|_]; [done|].
  rewrite Hsize, Z.eqb_refl. done.
Qed.

Lemma needsDownload_selected (env : Env) (log : list Event) (obj : S3Object)
    (localPath : string) (info : FileInfo) :
  Stat env log localPath = Ok info → fi_Size info = Size obj →
  needsDownload env log obj localPath =
    if Time_After (LastModified obj) (Time_Add (fi_ModTime info) (1 * 10 ^ 9))
    then (true, "remote is newer") else (false, "").
Proof.
  intros Hstat Hsize. unfold needsDownload.
  rewrite Hstat, Hsize, Z.eqb_refl. done.
Qed.

(** C2. With equal sizes on both sides, a path is selected for transfer
    exactly when the source modification time exceeds the target's by more
    than one second, in both directions: [needsUpload] compares the local
    file (source) with the remote object (target), [needsDownload] the
    remote object (source) with the local file (target).  A source exactly
    1000ms newer is not selected, one exactly 1001ms newer is. *)
Theorem tolerance_boundary (env : Env) (log : list Event)
    (path localPath : string) (info : FileInfo) (obj : S3Object) :
  Key obj ≠ "" →
  Stat env log localPath = Ok info →
  fi_Size info = Size obj →
  ((needsUpload path info obj).1 = true
     ↔ fi_ModTime info - LastModified obj > 1000 * Millisecond) ∧
  ((needsDownload env log obj localPath).1 = true
     ↔ LastModified obj - fi_ModTime info > 1000 * Millisecond) ∧
  (fi_ModTime info = LastModified obj + 1000 * Millisecond →
     (needsUpload path info obj).1 = false) ∧
  (fi_ModTime info = LastModified obj + 1001 * Millisecond →
     (needsUpload path info obj).1 = true) ∧
  (LastModified obj = fi_ModTime info + 1000 * Millisecond →
     (needsDownload env log obj localPath).1 = false) ∧
  (LastModified obj = fi_ModTime info + 1001 * Millisecond →
     (needsDownload env log obj localPath).1 = true).
Proof.
  intros Hkey Hstat Hsize.
  rewrite (needsUpload_selected path info obj Hkey Hsize).
  rewrite (needsDownload_selected env log obj localPath info Hstat Hsize).
  assert (∀ (b : bool) (r : string),
            (if b then (true, r) else (false, "")).1 = b) as Hsel
    by (by intros []).
  rewrite !Hsel, <- !not_true_iff_false, !Time_After_Add.
  unfold Millisecond. change (10 ^ 6) with 1000000. lia.
Qed.

(** C7 (as amended). A path whose counterpart has the same size and whose
    source modification time exceeds the target's by more than the tolerance
    is transferred with the reason "local is newer" by a push and "remote is
    newer" by a pull.  The reasons of a push are "new file", "size differs"
    and "local is newer"; those of a pull are "new file", "stat error",
    "size differs" and "remote is newer". *)
Theorem newer_reason :
  (∀ (path : string) (info : FileInfo) (obj : S3Object),
     Key obj ≠ "" → fi_Size info = Size obj →
     fi_ModTime info - LastModified obj > 1000 * Millisecond →
     needsUpload path info obj = (true, "local is newer")) ∧
  (∀ (env : Env) (log : list Event) (obj : S3Object) (localPath : string)
     (info : FileInfo),
     Stat env log localPath = Ok info → fi_Size info = Size obj →
     LastModified obj - fi_ModTime info > 1000 * Millisecond →
     needsDownload env log obj localPath = (true, "remote is newer")) ∧
  (∀ (path : string) (info : FileInfo) (obj : S3Object),
     (needsUpload path info obj).1 = true →
     (needsUpload path info obj).2
       ∈ ["new file"; "size differs"; "local is newer"]) ∧
  (∀ (env : Env) (log : list Event) (obj : S3Object) (localPath : string),
     (needsDownload env log obj localPath).1 = true →
     (needsDownload env log obj localPath).2
       ∈ ["new file"; "stat error"; "size differs"; "remote is newer"]).
Proof.
  repeat split.
  - intros path info obj Hkey Hsize Hnewer.
    rewrite needsUpload_selected by done.
    apply Time_After_Add in Hnewer. by rewrite Hnewer.
  - intros env log obj localPath info Hstat Hsize Hnewer.
    rewrite (needsDownload_selected env log obj localPath info) by done.
    apply Time_After_Add in Hnewer. by rewrite Hnewer.
  - intros path info obj. unfold needsUpload.
    repeat case_match; simpl; intros; try done; set_solver.
  - intros env log obj localPath. unfold needsDownload.
    repeat case_match; simpl; intros; try done; set_solver.
Qed.

(** ** The exclusion check *)

Lemma dir_wildcard_spec (path pattern : string) :
  HasSuffix pattern "/*" && HasPrefix path (TrimSuffix pattern "/*" +:+ "/") = true
  ↔ ∃ dir rest, pattern = dir +:+ "/*" ∧ path = dir +:+ "/" +:+ rest.
Proof.
  rewrite andb_true_iff, HasSuffix_spec. split.
  - intros [[dir ->] Hpre]. rewrite TrimSuffix_app in Hpre.
    apply HasPrefix_spec in Hpre as [rest ->].
    exists dir, rest. split; [done | apply append_assoc].
  - intros (dir & rest & -> & ->). split; [eauto|].
    rewrite TrimSuffix_app. apply HasPrefix_spec. exists rest.
    symmetry. apply append_assoc.
Qed.

Lemma excludedBy_spec (path pattern : string) :
  excludedBy path pattern = true ↔ excludes pattern path.
Proof.
  unfold excludedBy, excludes. rewrite <- dir_wildcard_spec.
  destruct (Match pattern path) as [matched err] eqn:Hm.
  destruct (String.eqb_spec path pattern) as [Heq|Hne].
  - split; [auto|]. intros _. by repeat case_match.
  - destruct (HasSuffix pattern "/*" && HasPrefix path _) eqn:Hdir.
    + split; [auto|]. intros _. by repeat case_match.
    + case_bool_decide as Herr; simpl.
      * subst err. destruct matched; split; try done; auto.
        intros [?|[?|?]]; done.
      * split; [done|]. intros [?|[?|?]]; try done. congruence.
Qed.

(** C4 (as amended). [shouldExclude] returns [true] exactly when some rule
    matches the path in one of three ways: as a glob matched by
    [filepath.Match] (whose syntax has [*] and [?]), as a directory rule
    [dir/*] with the path starting with [dir/], or by being equal to the
    path.  A rule whose glob is malformed does not match as a glob, and the
    evaluation goes on: the rule can still match as a directory rule or by
    equality, and the rules after it are tried. *)
Theorem shouldExclude_spec (path : string) (patterns : list string) :
  (shouldExclude path patterns = true
     ↔ ∃ pattern, pattern ∈ patterns ∧
         (Match pattern path = (true, None)
          ∨ (∃ dir rest, pattern = dir +:+ "/*" ∧ path = dir +:+ "/" +:+ rest)
          ∨ path = pattern)) ∧
  (∀ pattern rest, (Match pattern path).2 ≠ None →
     shouldExclude path (pattern :: rest) =
       (HasSuffix pattern "/*"
          && HasPrefix path (TrimSuffix pattern "/*" +:+ "/")
        || String.eqb path pattern
        || shouldExclude path rest)).
Proof.
  split.
  - induction patterns as [|pattern rest IH]; simpl.
    + split; [done|]. intros (p & Hin & _). by apply elem_of_nil in Hin.
    + destruct (excludedBy path pattern) eqn:Hex.
      * split; [|done]. intros _. exists pattern. split; [left|].
        by apply excludedBy_spec.
      * rewrite IH. split.
        -- intros (p & Hin & Hp). exists p. split; [by right | done].
        -- intros (p & Hin & Hp). apply elem_of_cons in Hin as [->|Hin].
           ++ apply excludedBy_spec in Hp. congruence.
           ++ eauto.
  - intros pattern rest Hbad. simpl. unfold excludedBy.
    destruct (Match pattern path) as [matched err]. simpl in Hbad.
    case_bool_decide; [done|]. simpl.
    by repeat case_match.
Qed.

(** ** The walk *)

Lemma filepath_Walk_error {St : Type} (fn : St → WalkEntry → St * option error)
    (mount : string) :
  (∀ st e, (fn st e).2 = entryError mount e) →
  ∀ entries st, (filepath_Walk fn st entries).2 = walkError mount entries.
Proof.
  intros Hfn. induction entries as [|e rest IH]; intros st; simpl; [done|].
  specialize (Hfn st e). destruct (fn st e) as [st' [err|]]; simpl in Hfn;
    rewrite <- Hfn; [done | apply IH].
Qed.

Lemma filepath_Walk_ind {St : Type} (fn : St → WalkEntry → St * option error)
    (P : St → list WalkEntry → St → Prop) :
  (∀ st, P st [] st) →
  (∀ st e st1 rest st',
     fn st e = (st1, None) → P st1 rest st' → P st (e :: rest) st') →
  ∀ entries st st', filepath_Walk fn st entries = (st', None) → P st entries st'.
Proof.
  intros Hnil Hcons. induction entries as [|e rest IH]; intros st st' Hwalk;
    simpl in Hwalk.
  - injection Hwalk as <-. apply Hnil.
  - destruct (fn st e) as [st1 [err|]] eqn:Hfn; [done|]. eauto.
Qed.

Lemma filepath_Walk_invariant {St : Type}
    (fn : St → WalkEntry → St * option error) (I : St → Prop) :
  (∀ st e, I st → I (fn st e).1) →
  ∀ entries st, I st → I (filepath_Walk fn st entries).1.
Proof.
  intros Hfn. induction entries as [|e rest IH]; intros st Hst; simpl; [done|].
  specialize (Hfn st e Hst). destruct (fn st e) as [st' [err|]]; simpl in *;
    [done | by apply IH].
Qed.

Lemma foldl_invariant {A B : Type} (f : A → B → A) (I : A → Prop) :
  (∀ a b, I a → I (f a b)) → ∀ l a, I a → I (foldl f a l).
Proof. intros Hf. induction l as [|b l IH]; intros a Ha; simpl; auto. Qed.

Lemma pushWalkFn_error (env : Env) (opts : PushOptions)
    (remoteFiles : gmap string S3Object) (st : PushState) (e : WalkEntry) :
  (pushWalkFn env opts remoteFiles st e).2 = entryError (MountPath opts) e.
Proof.
  unfold pushWalkFn, entryError. by repeat case_match.
Qed.

Lemma consideredKeys_cons (opts : PushOptions) (e : WalkEntry)
    (rest : list WalkEntry) :
  consideredKeys opts (e :: rest) =
    consideredKeys opts [e] ++ consideredKeys opts rest.
Proof.
  unfold consideredKeys, sourceKeys.
  change (e :: rest) with ([e] ++ rest). by rewrite omap_app, filter_app.
Qed.

Lemma walkedOver_nil (opts : PushOptions) (remoteFiles : gmap string S3Object)
    (localFiles : gset string) :
  walkedOver opts remoteFiles [] localFiles localFiles [].
Proof.
  unfold walkedOver. simpl. repeat split; try done; try set_solver.
  by destruct (DryRun opts).
Qed.

Lemma walkedOver_app (opts : PushOptions) (remoteFiles : gmap string S3Object)
    (ks1 ks2 : list string) (L0 L1 L2 : gset string) (new1 new2 : list Event) :
  walkedOver opts remoteFiles ks1 L0 L1 new1 →
  walkedOver opts remoteFiles ks2 L1 L2 new2 →
  walkedOver opts remoteFiles (ks1 ++ ks2) L0 L2 (new1 ++ new2).
Proof.
  unfold walkedOver, decided, seen, toDelete, deleteCalls, transferCalls,
    toTransfer.
  intros (Hd1 & Hs1 & Hx1 & Hc1 & HL1 & Ht1 & Hn1)
         (Hd2 & Hs2 & Hx2 & Hc2 & HL2 & Ht2 & Hn2).
  rewrite !omap_app, Hd1, Hd2, Hs1, Hs2, Hx1, Hx2, Hc1, Hc2, Ht1, Ht2.
  repeat split; try done.
  - subst L1 L2. rewrite list_to_set_app_L. set_solver.
  - destruct (DryRun opts); [done|]. by rewrite fmap_app.
  - intros k Hk Hnone. apply elem_of_app. apply elem_of_app in Hk as [Hk|Hk]; auto.
Qed.

Lemma needsUpload_new (path : string) (info : FileInfo) :
  needsUpload path info zeroS3Object = (true, "new file").
Proof. done. Qed.

Lemma pushWalkFn_ok (env : Env) (opts : PushOptions)
    (remoteFiles : gmap string S3Object) (st st1 : PushState) (e : WalkEntry) :
  pushWalkFn env opts remoteFiles st e = (st1, None) →
  ∃ new, ps_log st1 = ps_log st ++ new ∧
    walkedOver opts remoteFiles (consideredKeys opts [e])
      (ps_localFiles st) (ps_localFiles st1) new.
Proof.
  unfold pushWalkFn, consideredKeys, sourceKeys, localKey. simpl.
  intros Hfn. destruct (we_err e); [done|].
  destruct (fi_IsDir (we_info e)).
  { simplify_eq. exists []. rewrite app_nil_r. split; [done|]. apply walkedOver_nil. }
  destruct (Rel (MountPath opts) (we_path e)) as [relPath|]; [|done]. simpl.
  rewrite filter_cons, filter_nil.
  destruct (shouldExclude (ToSlash relPath) (ExcludeGlobs opts)) eqn:Hex.
  { simplify_eq. rewrite decide_False by done. exists []. rewrite app_nil_r.
    split; [done|]. apply walkedOver_nil. }
  rewrite decide_True by done.
  destruct (needsUpload _ _ _) as [needs reason] eqn:Hneeds.
  assert (remoteFiles !! ToSlash relPath = None → needs = true ∧ reason = "new file")
    as Hnew.
  { intros Hnone. rewrite Hnone in Hneeds. simpl in Hneeds.
    rewrite needsUpload_new in Hneeds. by simplify_eq. }
  destruct needs, (DryRun opts) eqn:Hdry; simpl in Hfn;
    try destruct (UploadFile _ _ _ _); simplify_eq/=;
    rewrite <- ?(assoc_L (++)); eexists; (split; [done|]);
    unfold walkedOver; rewrite ?Hdry; simpl;
    (repeat split; try done; try set_solver).
Qed.

Lemma pushWalk_ok (env : Env) (opts : PushOptions)
    (remoteFiles : gmap string S3Object) (entries : list WalkEntry)
    (st st' : PushState) :
  filepath_Walk (pushWalkFn env opts remoteFiles) st entries = (st', None) →
  ∃ new, ps_log st' = ps_log st ++ new ∧
    walkedOver opts remoteFiles (consideredKeys opts entries)
      (ps_localFiles st) (ps_localFiles st') new.
Proof.
  revert entries st st'. apply filepath_Walk_ind.
  - intros st. exists []. rewrite app_nil_r. split; [done|]. apply walkedOver_nil.
  - intros st e st1 rest st' Hfn (new2 & Hlog2 & Hover2).
    apply pushWalkFn_ok in Hfn as (new1 & Hlog1 & Hover1).
    exists (new1 ++ new2). rewrite Hlog2, Hlog1, (assoc_L (++)). split; [done|].
    rewrite consideredKeys_cons. by eapply walkedOver_app.
Qed.

(** ** The remote snapshot *)

Lemma remoteKeys_snoc (objects : list S3Object) (obj : S3Object) :
  remoteKeys (objects ++ [obj]) =
    remoteKeys objects ++ (if HasSuffix (Key obj) "/" then [] else [Key obj]).
Proof.
  unfold remoteKeys. rewrite fmap_app, filter_app. f_equal. simpl.
  rewrite filter_cons, filter_nil. destruct (HasSuffix (Key obj) "/"); by case_decide.
Qed.

Lemma buildRemoteFiles_lookup (objects : list S3Object) (k : string) :
  (is_Some (buildRemoteFiles objects !! k) ↔ k ∈ remoteKeys objects) ∧
  (∀ obj, buildRemoteFiles objects !! k = Some obj → Key obj = k ∧ obj ∈ objects).
Proof.
  unfold buildRemoteFiles.
  induction objects as [|obj objects IH] using rev_ind.
  - simpl. rewrite lookup_empty. split; [|done].
    split; [by intros [? ?] | by intros ?%elem_of_nil].
  - rewrite foldl_app, remoteKeys_snoc. simpl.
    destruct IH as [IHdom IHkey].
    destruct (HasSuffix (Key obj) "/"); simpl.
    + rewrite app_nil_r. split; [done|]. intros o Ho.
      destruct (IHkey o Ho). split; [done | set_solver].
    + destruct (decide (Key obj = k)) as [<-|Hne].
      * rewrite lookup_insert_eq. split; [split; [set_solver | eauto]|].
        intros o [= <-]. split; [done | set_solver].
      * rewrite lookup_insert_ne by done. split.
        -- rewrite IHdom. set_solver.
        -- intros o Ho. destruct (IHkey o Ho). split; [done | set_solver].
Qed.

Lemma rangeKeys_elem (env : Env) (remoteFiles : gmap string S3Object)
    (k : string) :
  k ∈ rangeKeys env remoteFiles ↔ is_Some (remoteFiles !! k).
Proof.
  unfold rangeKeys. rewrite merge_sort_Permutation.
  rewrite list_elem_of_fmap. split.
  - intros ([k' obj] & -> & Hin). apply elem_of_map_to_list in Hin. eauto.
  - intros [obj Hobj]. exists (k, obj). split; [done|].
    by apply elem_of_map_to_list.
Qed.

Lemma rangeKeys_NoDup (env : Env) (remoteFiles : gmap string S3Object) :
  NoDup (rangeKeys env remoteFiles).
Proof.
  unfold rangeKeys. rewrite merge_sort_Permutation. apply NoDup_fst_map_to_list.
Qed.

(** ** The delete pass of a push *)

Lemma pushDeleteStep_spec (env : Env) (opts : PushOptions) (st : PushState)
    (key : string) :
  ∃ new, ps_log (pushDeleteStep env opts st key) = ps_log st ++ new ∧
    ps_localFiles (pushDeleteStep env opts st key) = ps_localFiles st ∧
    sweptOver opts (ps_localFiles st) [key] new.
Proof.
  unfold pushDeleteStep, sweptOver. rewrite filter_cons, filter_nil.
  case_bool_decide as Hin; simpl.
  - exists []. rewrite app_nil_r, decide_False by auto. simpl.
    by destruct (DryRun opts).
  - rewrite decide_True by done.
    destruct (DryRun opts); simpl; [|destruct (DeleteObject _ _ _)]; simpl;
      rewrite <- ?(assoc_L (++)); eexists; (split; [done|]); done.
Qed.

Lemma pushDeletes_spec (env : Env) (opts : PushOptions) (ks : list string)
    (st : PushState) :
  ∃ new, ps_log (foldl (pushDeleteStep env opts) st ks) = ps_log st ++ new ∧
    ps_localFiles (foldl (pushDeleteStep env opts) st ks) = ps_localFiles st ∧
    sweptOver opts (ps_localFiles st) ks new.
Proof.
  revert st. induction ks as [|k ks IH]; intros st; simpl.
  - exists []. rewrite app_nil_r. unfold sweptOver. simpl.
    by destruct (DryRun opts).
  - destruct (pushDeleteStep_spec env opts st k) as (new1 & Hlog1 & HL1 & Hs1).
    destruct (IH (pushDeleteStep env opts st k)) as (new2 & Hlog2 & HL2 & Hs2).
    exists (new1 ++ new2). rewrite Hlog2, Hlog1, HL2, HL1, (assoc_L (++)).
    split; [done|]. split; [done|]. rewrite HL1 in Hs2.
    revert Hs1 Hs2.
    unfold sweptOver, decided, seen, toDelete, deleteCalls, transferCalls,
      toTransfer.
    intros (Hd1 & Hc1 & Hx1 & Hy1 & Ht1 & Hu1) (Hd2 & Hc2 & Hx2 & Hy2 & Ht2 & Hu2).
    rewrite !omap_app, Hc1, Hc2, Hd1, Hd2, Hx1, Hx2, Hy1, Hy2, Ht1, Ht2, Hu1, Hu2.
    change (k :: ks) with ([k] ++ ks). rewrite filter_app.
    repeat split; try done. by destruct (DryRun opts).
Qed.

(** ** The shape of a push *)

Lemma Push_Ok_inv (env : Env) (opts : PushOptions) (stats : PushStats)
    (log : list Event) :
  Push env opts = (Ok stats, log) →
  ∃ objects st,
    ListObjects env (Prefix opts) true = Ok objects ∧
    filepath_Walk (pushWalkFn env opts (buildRemoteFiles objects)) pushStart
      (pushSource env opts) = (st, None) ∧
    pushDeletions env opts (buildRemoteFiles objects) st = (Ok stats, log).
Proof.
  unfold Push, pushSource, pushRoot. fold pushStart.
  destruct (ListObjects env (Prefix opts) true) as [objects|]; [|done].
  intros HPush. exists objects.
  destruct (Stat env [] _) as [info|err].
  - destruct (filepath_Walk _ _ _) as [st [werr|]]; [done|]. eauto.
  - exists pushStart. split; [done|]. split; [done|].
    destruct (IsNotExist (Some err)); [|done].
    destruct (Delete opts) eqn:Hdel; simpl in HPush; [done|].
    unfold pushDeletions. by rewrite Hdel.
Qed.

Lemma Push_isOk (env : Env) (opts : PushOptions) :
  isOk (Push env opts).1 = true ↔ pushEnumerates env opts.
Proof.
  unfold Push, pushEnumerates, pushRoot.
  destruct (ListObjects env (Prefix opts) true) as [objects|];
    [|simpl; by split; [|intros []]].
  destruct (Stat env [] _) as [info|err].
  - pose proof (filepath_Walk_error
      (pushWalkFn env opts (buildRemoteFiles objects)) (MountPath opts)
      (pushWalkFn_error env opts (buildRemoteFiles objects))
      (Walk env [] (Join (MountPath opts) (Prefix opts)))
      {| ps_stats := zeroPushStats; ps_localFiles := ∅; ps_log := [] |}) as Herr.
    destruct (filepath_Walk _ _ _) as [st [werr|]]; simpl in Herr;
      rewrite <- Herr; simpl; [by split; [|intros []] | done].
  - destruct (IsNotExist (Some err)).
    + by destruct (Delete opts).
    + simpl. by split; [|intros []].
Qed.

(** An invariant of the walk that entails an invariant of the delete pass
    holds of the state a push ends in, whatever the result of the push. *)
Lemma Push_invariant (env : Env) (opts : PushOptions)
    (Iw Id : PushState → Prop) :
  Iw pushStart →
  (∀ remoteFiles st e, Iw st → Iw (pushWalkFn env opts remoteFiles st e).1) →
  (∀ st, Iw st → Id st) →
  (∀ st key, Id st → Id (pushDeleteStep env opts st key)) →
  ∃ st, Id st ∧ (Push env opts).2 = ps_log st ∧
    ∀ stats, (Push env opts).1 = Ok stats → stats = ps_stats st.
Proof.
  intros Hstart Hwalk Hwd Hdel.
  assert (∀ remoteFiles st, Iw st →
    ∃ st', Id st' ∧ (pushDeletions env opts remoteFiles st).2 = ps_log st' ∧
      ∀ stats, (pushDeletions env opts remoteFiles st).1 = Ok stats →
               stats = ps_stats st') as Hsweep.
  { intros remoteFiles st Hst. unfold pushDeletions. simpl.
    eexists. split; [|split; [done|]]; [|by intros stats [= <-]].
    destruct (Delete opts); [|by apply Hwd].
    apply foldl_invariant; [apply Hdel | by apply Hwd]. }
  assert (∀ (r : error) (log : list Event), log = [] →
    ∃ st, Id st ∧ (Err r : result PushStats, log).2 = ps_log st ∧
      ∀ stats, (Err r : result PushStats, log).1 = Ok stats →
               stats = ps_stats st) as Hfail.
  { intros r log ->. exists pushStart. split; [auto|]. by split. }
  unfold Push. fold pushStart.
  destruct (ListObjects env (Prefix opts) true) as [objects|];
    [|by apply Hfail].
  destruct (Stat env [] _) as [info|err].
  - pose proof (filepath_Walk_invariant
      (pushWalkFn env opts (buildRemoteFiles objects)) Iw
      (Hwalk (buildRemoteFiles objects))
      (Walk env [] (Join (MountPath opts) (Prefix opts))) pushStart Hstart)
      as Hst.
    destruct (filepath_Walk _ _ _) as [st [werr|]]; simpl in Hst.
    + exists st. split; [auto|]. by split.
    + by apply Hsweep.
  - destruct (IsNotExist (Some err)); [|by apply Hfail].
    destruct (Delete opts) eqn:Hdelete; simpl; [by apply Hsweep|].
    exists pushStart. split; [auto|]. split; [done|]. by intros stats [= <-].
Qed.

(** ** Reading the plan off the log *)

Lemma decided_Permutation (log : list Event) :
  decided log ≡ₚ (toTransfer log).*1 ++ toSkip log.
Proof.
  unfold decided, toTransfer, toSkip.
  induction log as [|ev log IH]; simpl; [done|].
  destruct ev; simpl; try done; try (by f_equiv).
  rewrite IH. apply Permutation_middle.
Qed.

Lemma consideredKeys_all (opts : PushOptions) (entries : list WalkEntry) :
  ExcludeGlobs opts = [] →
  consideredKeys opts entries = sourceKeys (MountPath opts) entries.
Proof.
  intros Hnone. unfold consideredKeys. rewrite Hnone. simpl.
  induction (sourceKeys _ _) as [|k ks IH]; simpl; [done|].
  rewrite filter_cons, decide_True by done. by rewrite IH.
Qed.

Lemma consideredKeys_elem (opts : PushOptions) (entries : list WalkEntry)
    (k : string) :
  k ∈ consideredKeys opts entries
  ↔ k ∈ sourceKeys (MountPath opts) entries
    ∧ shouldExclude k (ExcludeGlobs opts) = false.
Proof. unfold consideredKeys. rewrite list_elem_of_filter. tauto. Qed.

(** The plan of a push that returns statistics. *)
Lemma Push_plan (env : Env) (opts : PushOptions) (objects : list S3Object)
    (stats : PushStats) (log : list Event) :
  ListObjects env (Prefix opts) true = Ok objects →
  Push env opts = (Ok stats, log) →
  ∃ new1 new2, log = new1 ++ new2 ∧
    walkedOver opts (buildRemoteFiles objects)
      (consideredKeys opts (pushSource env opts))
      ∅ (list_to_set (consideredKeys opts (pushSource env opts))) new1 ∧
    if Delete opts
    then sweptOver opts
           (list_to_set (consideredKeys opts (pushSource env opts)))
           (rangeKeys env (buildRemoteFiles objects)) new2
    else new2 = [].
Proof.
  intros Hlist HPush.
  apply Push_Ok_inv in HPush as (objects' & st & Hlist' & Hwalk & Hsweep).
  rewrite Hlist in Hlist'. injection Hlist' as <-.
  apply pushWalk_ok in Hwalk as (new1 & Hlog1 & Hover). simpl in Hlog1.
  assert (ps_localFiles st
          = list_to_set (consideredKeys opts (pushSource env opts))) as HL.
  { destruct Hover as (_ & _ & _ & _ & -> & _). simpl. set_solver. }
  rewrite HL in Hover. exists new1.
  unfold pushDeletions in Hsweep. destruct (Delete opts).
  - destruct (pushDeletes_spec env opts
                (rangeKeys env (buildRemoteFiles objects)) st)
      as (new2 & Hlog2 & _ & Hswept).
    exists new2. injection Hsweep as _ <-. rewrite Hlog2, Hlog1.
    rewrite HL in Hswept. done.
  - exists []. injection Hsweep as _ <-. by rewrite app_nil_r.
Qed.

(** C1. With no exclusion rule and without the delete pass, a push that
    returns statistics decides every file of the local snapshot exactly
    once: the keys to transfer and the keys to skip together are the keys
    of the snapshot, no key is in both, and a key with no counterpart in
    the remote snapshot is to be transferred with the reason "new file". *)
Theorem push_partition (env : Env) (opts : PushOptions) (stats : PushStats)
    (log : list Event) :
  ExcludeGlobs opts = [] →
  Delete opts = false →
  Push env opts = (Ok stats, log) →
  NoDup (sourceKeys (MountPath opts) (pushSource env opts)) →
  (toTransfer log).*1 ++ toSkip log
    ≡ₚ sourceKeys (MountPath opts) (pushSource env opts) ∧
  (∀ k, ¬ (k ∈ (toTransfer log).*1 ∧ k ∈ toSkip log)) ∧
  (∀ k, k ∈ sourceKeys (MountPath opts) (pushSource env opts) →
        pushTarget env opts !! k = None →
        (k, "new file") ∈ toTransfer log) ∧
  toDelete log = [].
Proof.
  intros Hnone Hdelete HPush Hnodup.
  destruct (Push_Ok_inv env opts stats log HPush) as (objects & _ & Hlist & _).
  destruct (Push_plan env opts objects stats log Hlist HPush)
    as (new1 & new2 & -> & Hover & Hswept).
  rewrite Hdelete in Hswept. subst new2. rewrite app_nil_r.
  rewrite consideredKeys_all in Hover by done.
  destruct Hover as (Hdecided & _ & Hnodel & _ & _ & _ & Hnew).
  assert ((toTransfer new1).*1 ++ toSkip new1
            ≡ₚ sourceKeys (MountPath opts) (pushSource env opts)) as Hperm
    by (by rewrite <- decided_Permutation, Hdecided).
  split; [done|]. split; [|split; [|done]].
  - intros k [Hk1 Hk2]. rewrite <- Hperm in Hnodup.
    apply NoDup_app in Hnodup as (_ & Hdisjoint & _). by eapply Hdisjoint.
  - intros k Hk Hnot. apply Hnew; [done|].
    unfold pushTarget in Hnot. by rewrite Hlist in Hnot.
Qed.

(** C3. In a push with the delete pass that returns statistics, a remote
    key that is not a directory marker is selected for deletion exactly when
    it is not the key of a local file that the walk saw and did not exclude.
    So the key of an excluded local file is selected for deletion when the
    remote side has it.  A live run calls [DeleteObject] on exactly the
    selected keys, a dry run on none. *)
Theorem push_delete_sweep (env : Env) (opts : PushOptions)
    (objects : list S3Object) (stats : PushStats) (log : list Event) :
  Delete opts = true →
  ListObjects env (Prefix opts) true = Ok objects →
  Push env opts = (Ok stats, log) →
  (∀ key, key ∈ toDelete log
          ↔ key ∈ remoteKeys objects
            ∧ key ∉ consideredKeys opts (pushSource env opts)) ∧
  (∀ key, key ∈ sourceKeys (MountPath opts) (pushSource env opts) →
          shouldExclude key (ExcludeGlobs opts) = true →
          key ∈ remoteKeys objects → key ∈ toDelete log) ∧
  NoDup (toDelete log) ∧
  deleteCalls log = (if DryRun opts then [] else toDelete log).
Proof.
  intros Hdelete Hlist HPush.
  destruct (Push_plan env opts objects stats log Hlist HPush)
    as (new1 & new2 & -> & Hover & Hswept).
  rewrite Hdelete in Hswept.
  destruct Hover as (_ & _ & Hnodel & Hnocall & _).
  destruct Hswept as (Hdel & Hcall & _).
  assert (toDelete (new1 ++ new2)
          = filter (λ k, k ∉ (list_to_set
                      (consideredKeys opts (pushSource env opts)) : gset string))
              (rangeKeys env (buildRemoteFiles objects))) as Hall.
  { unfold toDelete in *. by rewrite omap_app, Hnodel, Hdel. }
  assert (∀ key, key ∈ toDelete (new1 ++ new2)
                 ↔ key ∈ remoteKeys objects
                   ∧ key ∉ consideredKeys opts (pushSource env opts)) as Hiff.
  { intros key. rewrite Hall, list_elem_of_filter, rangeKeys_elem.
    rewrite (proj1 (buildRemoteFiles_lookup objects key)).
    rewrite elem_of_list_to_set. tauto. }
  split; [done|]. split; [|split].
  - intros key Hsrc Hex Hremote. apply Hiff. split; [done|].
    rewrite consideredKeys_elem. intros [_ ?]. congruence.
  - rewrite Hall. apply NoDup_filter, rangeKeys_NoDup.
  - unfold deleteCalls, toDelete in *. rewrite !omap_app, Hnocall, Hcall, Hnodel.
    done.
Qed.

(** ** The steps of a push, by cases *)

Lemma pushWalkFn_shape (env : Env) (opts : PushOptions)
    (remoteFiles : gmap string S3Object) (st : PushState) (e : WalkEntry) :
  (pushWalkFn env opts remoteFiles st e).1 = st ∨
  ∃ k reason new stats',
    (pushWalkFn env opts remoteFiles st e).1
      = {| ps_stats := stats'; ps_localFiles := {[ k ]} ∪ ps_localFiles st;
           ps_log := ps_log st ++ new |} ∧
    ((new = [Seen k; Uploading k reason] ∧ DryRun opts = true
        ∧ stats' = ps_stats st)
     ∨ (∃ err, new = [Seen k; Uploading k reason;
                      CallUploadFile (we_path e) k (Some err)]
        ∧ DryRun opts = false ∧ stats' = pushFailed (ps_stats st))
     ∨ (new = [Seen k; Uploading k reason; CallUploadFile (we_path e) k None]
        ∧ DryRun opts = false ∧ stats' = pushUploaded (ps_stats st))
     ∨ (new = [Seen k; UpToDate k] ∧ DryRun opts = true ∧ stats' = ps_stats st)
     ∨ (new = [Seen k; UpToDate k] ∧ DryRun opts = false
        ∧ stats' = pushSkipped (ps_stats st))).
Proof.
  unfold pushWalkFn.
  destruct (we_err e); [by left|].
  destruct (fi_IsDir (we_info e)); [by left|].
  destruct (Rel (MountPath opts) (we_path e)) as [relPath|]; [|by left].
  simpl. destruct (shouldExclude _ _); [by left|].
  destruct (needsUpload _ _ _) as [needs reason]. right.
  exists (ToSlash relPath), reason.
  destruct needs, (DryRun opts); simpl; try destruct (UploadFile _ _ _ _);
    simpl; rewrite <- ?(assoc_L (++)); simpl;
    eexists _, _; (split; [reflexivity|]); eauto 10.
Qed.

Lemma pushDeleteStep_shape (env : Env) (opts : PushOptions) (st : PushState)
    (key : string) :
  pushDeleteStep env opts st key = st ∨
  ∃ new stats',
    pushDeleteStep env opts st key
      = {| ps_stats := stats'; ps_localFiles := ps_localFiles st;
           ps_log := ps_log st ++ new |} ∧
    (key ∉ ps_localFiles st) ∧
    ((new = [DeletingRemote key] ∧ DryRun opts = true ∧ stats' = ps_stats st)
     ∨ (∃ err, new = [DeletingRemote key; CallDeleteObject key (Some err)]
        ∧ DryRun opts = false ∧ stats' = pushFailed (ps_stats st))
     ∨ (new = [DeletingRemote key; CallDeleteObject key None]
        ∧ DryRun opts = false ∧ stats' = pushDeleted (ps_stats st))).
Proof.
  unfold pushDeleteStep. case_bool_decide as Hin; simpl; [by left|]. right.
  destruct (DryRun opts); simpl; try destruct (DeleteObject _ _ _);
    simpl; rewrite <- ?(assoc_L (++)); simpl;
    eexists _, _; (split; [reflexivity|]); (split; [done|]); eauto 10.
Qed.

(** ** Counting failures *)

Lemma wrap_int_0 : wrap_int 0 = 0.
Proof. done. Qed.

Lemma int_incr_wrap (x : Z) : int_incr (wrap_int x) = wrap_int (x + 1).
Proof.
  unfold int_incr, wrap_int. f_equal.
  replace ((x + 2 ^ 63) mod 2 ^ 64 - 2 ^ 63 + 1 + 2 ^ 63)
    with ((x + 2 ^ 63) mod 2 ^ 64 + 1) by lia.
  rewrite Zplus_mod_idemp_l. f_equal. lia.
Qed.

Lemma failures_app (log new : list Event) :
  failures (log ++ new) = (failures log + failures new)%nat.
Proof. unfold failures. by rewrite filter_app, length_app. Qed.

Lemma count_failure (x : Z) (log new : list Event) :
  x = wrap_int (Z.of_nat (failures log)) → failures new = 1%nat →
  int_incr x = wrap_int (Z.of_nat (failures (log ++ new))).
Proof.
  intros -> Hone. rewrite int_incr_wrap, failures_app, Hone. f_equal. lia.
Qed.

Lemma count_no_failure (x : Z) (log new : list Event) :
  x = wrap_int (Z.of_nat (failures log)) → failures new = 0%nat →
  x = wrap_int (Z.of_nat (failures (log ++ new))).
Proof.
  intros -> Hnone. rewrite failures_app, Hnone. f_equal. lia.
Qed.

Lemma Push_counts_failures (env : Env) (opts : PushOptions)
    (stats : PushStats) (log : list Event) :
  Push env opts = (Ok stats, log) →
  Failed stats = wrap_int (Z.of_nat (failures log)).
Proof.
  intros HPush.
  set (I := λ st : PushState,
         Failed (ps_stats st) = wrap_int (Z.of_nat (failures (ps_log st)))).
  destruct (Push_invariant env opts I I) as (st & Hst & Hlog & Hstats).
  - done.
  - intros remoteFiles st e Hst.
    destruct (pushWalkFn_shape env opts remoteFiles st e)
      as [->|(k & reason & new & stats' & -> & Hcase)]; [done|].
    unfold I in *. simpl.
    destruct Hcase as [(-> & _ & ->)|[(err & -> & _ & ->)|[(-> & _ & ->)|
                      [(-> & _ & ->)|(-> & _ & ->)]]]]; simpl;
      by first [apply count_failure | apply count_no_failure].
  - done.
  - intros st key Hst.
    destruct (pushDeleteStep_shape env opts st key)
      as [->|(new & stats' & -> & _ & Hcase)]; [done|].
    unfold I in *. simpl.
    destruct Hcase as [(-> & _ & ->)|[(err & -> & _ & ->)|(-> & _ & ->)]];
      simpl; by first [apply count_failure | apply count_no_failure].
  - rewrite HPush in Hlog, Hstats. simpl in *.
    rewrite (Hstats stats eq_refl), Hlog. apply Hst.
Qed.

(** ** Dry runs of a push *)

Lemma Forall_not_mutating_app (log new : list Event) :
  Forall (λ ev, mutating ev = false) log →
  forallb (λ ev, negb (mutating ev)) new = true →
  Forall (λ ev, mutating ev = false) (log ++ new).
Proof.
  intros Hlog Hnew. apply Forall_app. split; [done|].
  apply Forall_forall. intros ev Hev.
  rewrite forallb_forall in Hnew. apply list_elem_of_In in Hev.
  specialize (Hnew ev Hev). by destruct (mutating ev).
Qed.

Lemma Push_dry (env : Env) (opts : PushOptions) :
  DryRun opts = true →
  Forall (λ ev, mutating ev = false) (Push env opts).2 ∧
  ∀ stats, (Push env opts).1 = Ok stats → stats = zeroPushStats.
Proof.
  intros Hdry.
  set (I := λ st : PushState,
         ps_stats st = zeroPushStats
         ∧ Forall (λ ev, mutating ev = false) (ps_log st)).
  destruct (Push_invariant env opts I I) as (st & [Hzero Hst] & Hlog & Hstats).
  - split; [done | constructor].
  - intros remoteFiles st e [Hzero Hst].
    destruct (pushWalkFn_shape env opts remoteFiles st e)
      as [->|(k & reason & new & stats' & -> & Hcase)]; [done|].
    unfold I. simpl.
    destruct Hcase as [(-> & _ & ->)|[(err & -> & ? & ->)|[(-> & ? & ->)|
                      [(-> & _ & ->)|(-> & ? & ->)]]]]; try congruence;
      (split; [done | by apply Forall_not_mutating_app]).
  - done.
  - intros st key [Hzero Hst].
    destruct (pushDeleteStep_shape env opts st key)
      as [->|(new & stats' & -> & _ & Hcase)]; [done|].
    unfold I. simpl.
    destruct Hcase as [(-> & _ & ->)|[(err & -> & ? & ->)|(-> & ? & ->)]];
      try congruence; (split; [done | by apply Forall_not_mutating_app]).
  - rewrite Hlog. split; [done|]. intros stats Hok.
    by rewrite (Hstats stats Hok).
Qed.

(** ** The steps of a pull, by cases *)

Lemma pullStep_shape (env : Env) (opts : PullOptions) (st : PullState)
    (obj : S3Object) :
  (HasSuffix (Key obj) "/" = true ∧ pullStep env opts st obj = st) ∨
  ∃ reason new stats',
    HasSuffix (Key obj) "/" = false ∧
    pullStep env opts st obj
      = {| pl_stats := stats'; pl_log := pl_log st ++ new |} ∧
    ((new = [Downloading (Key obj) reason] ∧ pl_DryRun opts = true
        ∧ stats' = pl_stats st)
     ∨ (∃ err, new = [Downloading (Key obj) reason;
                      CallDownloadFile (Key obj)
                        (Join (pl_MountPath opts) (Key obj)) (Some err)]
        ∧ pl_DryRun opts = false ∧ stats' = pullFailed (pl_stats st))
     ∨ (new = [Downloading (Key obj) reason;
               CallDownloadFile (Key obj)
                 (Join (pl_MountPath opts) (Key obj)) None]
        ∧ pl_DryRun opts = false ∧ stats' = pullDownloaded (pl_stats st))
     ∨ (new = [UpToDate (Key obj)] ∧ pl_DryRun opts = true
        ∧ stats' = pl_stats st)
     ∨ (new = [UpToDate (Key obj)] ∧ pl_DryRun opts = false
        ∧ stats' = pullSkipped (pl_stats st))).
Proof.
  unfold pullStep. destruct (HasSuffix (Key obj) "/"); [by left|]. right.
  simpl. destruct (needsDownload _ _ _ _) as [needs reason]. exists reason.
  destruct needs, (pl_DryRun opts); simpl; try destruct (DownloadFile _ _ _ _);
    simpl; rewrite <- ?(assoc_L (++)); simpl;
    eexists _, _; (split; [reflexivity|]); (split; [reflexivity|]); eauto 10.
Qed.

Lemma pullWalkFn_shape (env : Env) (opts : PullOptions)
    (remoteKeys : gset string) (st : PullState) (e : WalkEntry) :
  (pullWalkFn env opts remoteKeys st e).1 = st ∨
  ∃ rel new stats',
    (pullWalkFn env opts remoteKeys st e).1
      = {| pl_stats := stats'; pl_log := pl_log st ++ new |} ∧
    (rel ∉ remoteKeys) ∧
    ((new = [DeletingLocal rel] ∧ pl_DryRun opts = true ∧ stats' = pl_stats st)
     ∨ (∃ err, new = [DeletingLocal rel; CallRemove (we_path e) (Some err)]
        ∧ pl_DryRun opts = false ∧ stats' = pullFailed (pl_stats st))
     ∨ (new = [DeletingLocal rel; CallRemove (we_path e) None]
        ∧ pl_DryRun opts = false ∧ stats' = pullDeleted (pl_stats st))).
Proof.
  unfold pullWalkFn.
  destruct (we_err e); [by left|].
  destruct (fi_IsDir (we_info e)); [by left|].
  destruct (Rel (pl_MountPath opts) (we_path e)) as [relPath|]; [|by left].
  simpl. case_bool_decide as Hin; simpl; [by left|]. right.
  exists (ToSlash relPath).
  destruct (pl_DryRun opts); simpl; try destruct (Remove _ _ _);
    simpl; rewrite <- ?(assoc_L (++)); simpl;
    eexists _, _; (split; [reflexivity|]); (split; [done|]); eauto 10.
Qed.

Lemma pullWalkFn_error (env : Env) (opts : PullOptions)
    (remoteKeys : gset string) (st : PullState) (e : WalkEntry) :
  (pullWalkFn env opts remoteKeys st e).2 = entryError (pl_MountPath opts) e.
Proof.
  unfold pullWalkFn, entryError. by repeat case_match.
Qed.

(** ** The shape of a pull *)

(** An invariant of the two loops of a pull holds of the state the pull ends
    in, whatever its result. *)
Lemma pullFrom_invariant (env : Env) (opts : PullOptions)
    (I : PullState → Prop) (objects : list S3Object) (st : PullState) :
  (∀ st obj, I st → I (pullStep env opts st obj)) →
  (∀ remoteKeys st e, I st → I (pullWalkFn env opts remoteKeys st e).1) →
  I st →
  ∃ st', I st' ∧ (pullFrom env opts objects st).2 = pl_log st' ∧
    ∀ stats, (pullFrom env opts objects st).1 = Ok stats → stats = pl_stats st'.
Proof.
  intros Hstep Hwalk Hst. unfold pullFrom, pullDeletions.
  pose proof (foldl_invariant (pullStep env opts) I Hstep objects st Hst) as Hst1.
  destruct (pl_Delete opts).
  - pose proof (filepath_Walk_invariant
      (pullWalkFn env opts (buildRemoteKeys objects)) I
      (Hwalk (buildRemoteKeys objects))
      (Walk env (pl_log (foldl (pullStep env opts) st objects))
         (Join (pl_MountPath opts) (pl_Prefix opts)))
      _ Hst1) as Hst2.
    destruct (filepath_Walk _ _ _) as [st' [werr|]]; simpl in Hst2;
      [destruct (IsNotExist (Some werr))|]; simpl;
      exists st'; (split; [done|]); (split; [done|]);
      by intros stats [= <-].
  - eexists. split; [done|]. split; [done|]. by intros stats [= <-].
Qed.

Lemma remoteKeys_cons (obj : S3Object) (objects : list S3Object) :
  remoteKeys (obj :: objects) =
    (if HasSuffix (Key obj) "/" then [] else [Key obj]) ++ remoteKeys objects.
Proof.
  unfold remoteKeys. rewrite fmap_cons, filter_cons.
  destruct (HasSuffix (Key obj) "/"); by case_decide.
Qed.

Lemma pullSteps_spec (env : Env) (opts : PullOptions)
    (objects : list S3Object) (st : PullState) :
  ∃ new, pl_log (foldl (pullStep env opts) st objects) = pl_log st ++ new ∧
    decided new = remoteKeys objects ∧
    transferCalls new = (if pl_DryRun opts then [] else (toTransfer new).*1) ∧
    toDelete new = [] ∧ removeCalls new = [].
Proof.
  revert st. induction objects as [|obj objects IH]; intros st; simpl.
  - exists []. rewrite app_nil_r. by destruct (pl_DryRun opts).
  - destruct (IH (pullStep env opts st obj))
      as (new2 & -> & Hd2 & Ht2 & Hx2 & Hr2).
    rewrite remoteKeys_cons.
    destruct (pullStep_shape env opts st obj)
      as [[-> ->]|(reason & new1 & stats' & -> & -> & Hcase)].
    { by exists new2. }
    exists (new1 ++ new2). simpl. rewrite (assoc_L (++)). split; [done|].
    unfold decided, transferCalls, toTransfer, toDelete, removeCalls in *.
    rewrite !omap_app, Hd2, Ht2, Hx2, Hr2.
    destruct Hcase as [(-> & -> & _)|[(err & -> & -> & _)|[(-> & -> & _)|
                      [(-> & -> & _)|(-> & -> & _)]]]]; done.
Qed.

Lemma pullWalk_spec (env : Env) (opts : PullOptions) (remoteKeys : gset string)
    (entries : list WalkEntry) (st : PullState) :
  ∃ new,
    pl_log (filepath_Walk (pullWalkFn env opts remoteKeys) st entries).1
      = pl_log st ++ new ∧
    decided new = [] ∧ toTransfer new = [] ∧ transferCalls new = [] ∧
    length (removeCalls new)
      = (if pl_DryRun opts then 0%nat else length (toDelete new)).
Proof.
  apply (filepath_Walk_invariant (pullWalkFn env opts remoteKeys)
           (λ st', ∃ new, pl_log st' = pl_log st ++ new ∧
              decided new = [] ∧ toTransfer new = [] ∧ transferCalls new = [] ∧
              length (removeCalls new)
                = (if pl_DryRun opts then 0%nat else length (toDelete new)))).
  - intros st1 e (new1 & Hlog1 & Hd1 & Ht1 & Hc1 & Hr1).
    destruct (pullWalkFn_shape env opts remoteKeys st1 e)
      as [->|(rel & new & stats' & -> & _ & Hcase)]; [by exists new1|].
    exists (new1 ++ new). simpl. rewrite Hlog1, (assoc_L (++)). split; [done|].
    unfold decided, transferCalls, toTransfer, removeCalls, toDelete in *.
    rewrite !omap_app, !length_app, Hd1, Ht1, Hc1, Hr1.
    destruct Hcase as [(-> & -> & _)|[(err & -> & -> & _)|(-> & -> & _)]];
      simpl; repeat split; try done; lia.
  - exists []. rewrite app_nil_r. by destruct (pl_DryRun opts).
Qed.

Lemma pullFrom_plan (env : Env) (opts : PullOptions)
    (objects : list S3Object) (st : PullState) :
  ∃ new, (pullFrom env opts objects st).2 = pl_log st ++ new ∧
    decided new = remoteKeys objects ∧
    transferCalls new = (if pl_DryRun opts then [] else (toTransfer new).*1) ∧
    length (removeCalls new)
      = (if pl_DryRun opts then 0%nat else length (toDelete new)).
Proof.
  destruct (pullSteps_spec env opts objects st)
    as (new1 & Hlog1 & Hd1 & Ht1 & Hx1 & Hr1).
  unfold pullFrom, pullDeletions.
  destruct (pl_Delete opts).
  2:{ exists new1. rewrite Hr1, Hx1. by destruct (pl_DryRun opts). }
  destruct (pullWalk_spec env opts (buildRemoteKeys objects)
              (Walk env (pl_log (foldl (pullStep env opts) st objects))
                 (Join (pl_MountPath opts) (pl_Prefix opts)))
              (foldl (pullStep env opts) st objects))
    as (new2 & Hlog2 & Hd2 & Hx2 & Ht2 & Hr2).
  exists (new1 ++ new2).
  split.
  - destruct (filepath_Walk _ _ _) as [st' [werr|]];
      [destruct (IsNotExist (Some werr))|]; simpl in *;
      by rewrite Hlog2, Hlog1, (assoc_L (++)).
  - unfold decided, transferCalls, toTransfer, removeCalls, toDelete in *.
    rewrite !omap_app, !length_app, Hd1, Hd2, Ht1, Ht2, Hx2, Hr1, Hx1, !app_nil_r.
    done.
Qed.

Lemma pullFrom_isOk (env : Env) (opts : PullOptions)
    (objects : list S3Object) (st : PullState) :
  (pl_Delete opts = true → ∀ log,
     match walkError (pl_MountPath opts)
             (Walk env log (Join (pl_MountPath opts) (pl_Prefix opts))) with
     | Some err => IsNotExist (Some err) = true
     | None => True
     end) →
  isOk (pullFrom env opts objects st).1 = true.
Proof.
  intros Hwalk. unfold pullFrom, pullDeletions.
  destruct (pl_Delete opts); [|done].
  specialize (Hwalk eq_refl (pl_log (foldl (pullStep env opts) st objects))).
  pose proof (filepath_Walk_error
    (pullWalkFn env opts (buildRemoteKeys objects)) (pl_MountPath opts)
    (pullWalkFn_error env opts (buildRemoteKeys objects))
    (Walk env (pl_log (foldl (pullStep env opts) st objects))
       (Join (pl_MountPath opts) (pl_Prefix opts)))
    (foldl (pullStep env opts) st objects)) as Herr.
  destruct (filepath_Walk _ _ _) as [st' [werr|]]; simpl in Herr; [|done].
  rewrite <- Herr in Hwalk. by rewrite Hwalk.
Qed.

Lemma Pull_isOk (env : Env) (opts : PullOptions) :
  pullEnumerates env opts → isOk (Pull env opts).1 = true.
Proof.
  intros (Hlist & Hmkdir & Hwalk). unfold Pull.
  destruct (ListObjects env (pl_Prefix opts) true) as [objects|]; [|done].
  destruct (pl_DryRun opts); simpl.
  - by apply pullFrom_isOk.
  - rewrite Hmkdir by done. by apply pullFrom_isOk.
Qed.

Lemma Pull_plan (env : Env) (opts : PullOptions) (objects : list S3Object) :
  ListObjects env (pl_Prefix opts) true = Ok objects →
  (pl_DryRun opts = false → MkdirAll env [] (pl_MountPath opts) = None) →
  decided (Pull env opts).2 = remoteKeys objects ∧
  transferCalls (Pull env opts).2
    = (if pl_DryRun opts then [] else (toTransfer (Pull env opts).2).*1) ∧
  length (removeCalls (Pull env opts).2)
    = (if pl_DryRun opts then 0%nat else length (toDelete (Pull env opts).2)).
Proof.
  intros Hlist Hmkdir. unfold Pull. rewrite Hlist.
  destruct (pl_DryRun opts) eqn:Hdry; simpl.
  - destruct (pullFrom_plan env opts objects
                {| pl_stats := zeroPullStats; pl_log := [] |})
      as (new & -> & Hd & Ht & Hr). simpl. by rewrite Hdry in Ht, Hr.
  - rewrite Hmkdir by done.
    destruct (pullFrom_plan env opts objects
                {| pl_stats := zeroPullStats;
                   pl_log := [CallMkdirAll (pl_MountPath opts) None] |})
      as (new & -> & Hd & Ht & Hr). simpl. by rewrite Hdry in Ht, Hr.
Qed.

Lemma Pull_counts_failures (env : Env) (opts : PullOptions)
    (stats : PullStats) (log : list Event) :
  Pull env opts = (Ok stats, log) →
  pl_Failed stats = wrap_int (Z.of_nat (failures log)).
Proof.
  set (I := λ st : PullState,
         pl_Failed (pl_stats st) = wrap_int (Z.of_nat (failures (pl_log st)))).
  assert (∀ objects st, I st →
    ∀ stats log, pullFrom env opts objects st = (Ok stats, log) →
      pl_Failed stats = wrap_int (Z.of_nat (failures log))) as Hfrom.
  { intros objects st Hst stats' log' Hrun.
    destruct (pullFrom_invariant env opts I objects st)
      as (st' & Hst' & Hlog & Hstats); [| |done|].
    - intros st1 obj Hst1.
      destruct (pullStep_shape env opts st1 obj)
        as [[_ ->]|(reason & new & stats1 & _ & -> & Hcase)]; [done|].
      unfold I in *. simpl.
      destruct Hcase as [(-> & _ & ->)|[(err & -> & _ & ->)|[(-> & _ & ->)|
                        [(-> & _ & ->)|(-> & _ & ->)]]]]; simpl;
        by first [apply count_failure | apply count_no_failure].
    - intros remoteKeys st1 e Hst1.
      destruct (pullWalkFn_shape env opts remoteKeys st1 e)
        as [->|(rel & new & stats1 & -> & _ & Hcase)]; [done|].
      unfold I in *. simpl.
      destruct Hcase as [(-> & _ & ->)|[(err & -> & _ & ->)|(-> & _ & ->)]];
        simpl; by first [apply count_failure | apply count_no_failure].
    - rewrite Hrun in Hlog, Hstats. simpl in *.
      rewrite (Hstats stats' eq_refl), Hlog. apply Hst'. }
  unfold Pull.
  destruct (ListObjects env (pl_Prefix opts) true) as [objects|]; [|done].
  destruct (pl_DryRun opts); simpl; [by apply Hfrom|].
  destruct (MkdirAll env [] (pl_MountPath opts)); [done|]. by apply Hfrom.
Qed.

Lemma Pull_dry (env : Env) (opts : PullOptions) :
  pl_DryRun opts = true →
  Forall (λ ev, mutating ev = false) (Pull env opts).2 ∧
  ∀ stats, (Pull env opts).1 = Ok stats → stats = zeroPullStats.
Proof.
  intros Hdry. unfold Pull.
  destruct (ListObjects env (pl_Prefix opts) true) as [objects|];
    [|by split; [constructor|]].
  rewrite Hdry. simpl.
  set (I := λ st : PullState,
         pl_stats st = zeroPullStats
         ∧ Forall (λ ev, mutating ev = false) (pl_log st)).
  destruct (pullFrom_invariant env opts I objects
              {| pl_stats := zeroPullStats; pl_log := [] |})
    as (st' & [Hzero Hst'] & Hlog & Hstats).
  - intros st obj [Hzero Hst].
    destruct (pullStep_shape env opts st obj)
      as [[_ ->]|(reason & new & stats1 & _ & -> & Hcase)]; [done|].
    unfold I. simpl.
    destruct Hcase as [(-> & _ & ->)|[(err & -> & ? & ->)|[(-> & ? & ->)|
                      [(-> & _ & ->)|(-> & ? & ->)]]]]; try congruence;
      (split; [done | by apply Forall_not_mutating_app]).
  - intros remoteKeys st e [Hzero Hst].
    destruct (pullWalkFn_shape env opts remoteKeys st e)
      as [->|(rel & new & stats1 & -> & _ & Hcase)]; [done|].
    unfold I. simpl.
    destruct Hcase as [(-> & _ & ->)|[(err & -> & ? & ->)|(-> & ? & ->)]];
      try congruence; (split; [done | by apply Forall_not_mutating_app]).
  - split; [done | constructor].
  - rewrite Hlog. split; [done|]. intros stats Hok.
    by rewrite (Hstats stats Hok).
Qed.

(** ** Partial failure *)

(** C5. In a live run the failure of one transfer or delete is counted and
    nothing more: whatever the outcome of each call, a push or a pull that
    gets what it enumerates returns statistics and no error, decides every
    item (every local file not excluded, every remote object that is not a
    directory marker), calls the transfer for every item it decided to
    transfer and the delete for every key or file it selected, and reports
    in [Failed] the number of calls that failed. *)
Theorem item_failures_do_not_abort (env : Env) (opts : PushOptions)
    (popts : PullOptions) :
  DryRun opts = false →
  pl_DryRun popts = false →
  (pushEnumerates env opts →
     ∃ stats log, Push env opts = (Ok stats, log) ∧
       decided log = consideredKeys opts (pushSource env opts) ∧
       transferCalls log = (toTransfer log).*1 ∧
       deleteCalls log = toDelete log ∧
       Failed stats = wrap_int (Z.of_nat (failures log))) ∧
  (pullEnumerates env popts →
     ∃ objects stats log,
       ListObjects env (pl_Prefix popts) true = Ok objects ∧
       Pull env popts = (Ok stats, log) ∧
       decided log = remoteKeys objects ∧
       transferCalls log = (toTransfer log).*1 ∧
       length (removeCalls log) = length (toDelete log) ∧
       pl_Failed stats = wrap_int (Z.of_nat (failures log))).
Proof.
  intros Hlive Hplive. split.
  - intros Henum. pose proof Henum as [Hlist _].
    apply Push_isOk in Henum.
    destruct (Push env opts) as [[stats|] log] eqn:HPush; [|done].
    destruct (ListObjects env (Prefix opts) true) as [objects|] eqn:Hobjects;
      [|done].
    exists stats, log. split; [done|].
    destruct (Push_plan env opts objects stats log Hobjects HPush)
      as (new1 & new2 & -> & Hover & Hswept).
    destruct Hover as (Hd1 & _ & Hx1 & Hc1 & _ & Ht1 & _).
    rewrite Hlive in Ht1.
    assert (decided new2 = [] ∧ toTransfer new2 = [] ∧ transferCalls new2 = []
            ∧ deleteCalls new2 = toDelete new2) as (Hd2 & Hy2 & Ht2 & Hc2).
    { destruct (Delete opts); [|by subst new2].
      destruct Hswept as (_ & Hc & Hd & _ & Hy & Ht). by rewrite Hlive in Hc. }
    unfold decided, transferCalls, toTransfer, deleteCalls, toDelete in *.
    rewrite !omap_app, Hd1, Hd2, Ht1, Ht2, Hy2, Hc1, Hc2, Hx1, !app_nil_r.
    repeat split; try done.
    by apply (Push_counts_failures env opts stats (new1 ++ new2)).
  - intros Henum. pose proof Henum as (Hlist & Hmkdir & _).
    apply Pull_isOk in Henum.
    destruct (Pull env popts) as [[stats|] log] eqn:HPull; [|done].
    destruct (ListObjects env (pl_Prefix popts) true) as [objects|] eqn:Hobjects;
      [|done].
    exists objects, stats, log. split; [done|]. split; [done|].
    destruct (Pull_plan env popts objects Hobjects Hmkdir) as (Hd & Ht & Hr).
    rewrite HPull, Hplive in *. simpl in *.
    repeat split; try done. by apply (Pull_counts_failures env popts).
Qed.

(** ** Dry runs *)

(** C6. A dry run calls nothing that changes the store or the file system
    (no upload, download, object delete, file removal or directory
    creation), whatever its result, and the statistics it returns count no
    transfer and no deletion. *)
Theorem dry_run_no_mutation (env : Env) (opts : PushOptions)
    (popts : PullOptions) :
  DryRun opts = true →
  pl_DryRun popts = true →
  (Forall (λ ev, mutating ev = false) (Push env opts).2 ∧
   ∀ stats, (Push env opts).1 = Ok stats →
            Uploaded stats = 0 ∧ Deleted stats = 0) ∧
  (Forall (λ ev, mutating ev = false) (Pull env popts).2 ∧
   ∀ stats, (Pull env popts).1 = Ok stats →
            Downloaded stats = 0 ∧ pl_Deleted stats = 0).
Proof.
  intros Hdry Hpdry.
  destruct (Push_dry env opts Hdry) as [Hlog Hstats].
  destruct (Pull_dry env popts Hpdry) as [Hplog Hpstats].
  split; (split; [done|]); intros stats Hok.
  - by rewrite (Hstats stats Hok).
  - by rewrite (Hpstats stats Hok).
Qed.

(** C10. The statistics a dry run returns have all four counters at zero:
    no transfer, no deletion, no failure, and no skipped item either. *)
Theorem dry_run_counters_zero (env : Env) (opts : PushOptions)
    (popts : PullOptions) :
  DryRun opts = true →
  pl_DryRun popts = true →
  (∀ stats, (Push env opts).1 = Ok stats →
     Uploaded stats = 0 ∧ Skipped stats = 0
     ∧ Deleted stats = 0 ∧ Failed stats = 0) ∧
  (∀ stats, (Pull env popts).1 = Ok stats →
     Downloaded stats = 0 ∧ pl_Skipped stats = 0
     ∧ pl_Deleted stats = 0 ∧ pl_Failed stats = 0).
Proof.
  intros Hdry Hpdry.
  destruct (Push_dry env opts Hdry) as [_ Hstats].
  destruct (Pull_dry env popts Hpdry) as [_ Hpstats].
  split; intros stats Hok.
  - by rewrite (Hstats stats Hok).
  - by rewrite (Hpstats stats Hok).
Qed.

(** ** A push whose local root does not exist *)

Lemma pushDeletes_no_upload (env : Env) (opts : PushOptions)
    (ks : list string) (st : PushState) :
  Uploaded (ps_stats st) = 0 → Skipped (ps_stats st) = 0 →
  Uploaded (ps_stats (foldl (pushDeleteStep env opts) st ks)) = 0 ∧
  Skipped (ps_stats (foldl (pushDeleteStep env opts) st ks)) = 0.
Proof.
  intros Hup Hskip.
  apply (foldl_invariant (pushDeleteStep env opts)
           (λ st, Uploaded (ps_stats st) = 0 ∧ Skipped (ps_stats st) = 0));
    [|done].
  intros st1 key [Hup1 Hskip1].
  destruct (pushDeleteStep_shape env opts st1 key)
    as [->|(new & stats' & -> & _ & Hcase)]; [done|]. simpl.
  by destruct Hcase as [(_ & _ & ->)|[(err & _ & _ & ->)|(_ & _ & ->)]].
Qed.

(** C8 (as amended). A push whose remote listing succeeds and whose local
    root does not exist: without the delete pass it returns statistics that
    are all zero and does nothing; with the delete pass it returns
    statistics, selects every remote key that is not a directory marker for
    deletion, and uploads nothing. *)
Theorem push_missing_root (env : Env) (opts : PushOptions)
    (objects : list S3Object) :
  ListObjects env (Prefix opts) true = Ok objects →
  Stat env [] (pushRoot opts) = Err ErrNotExist →
  (Delete opts = false → Push env opts = (Ok zeroPushStats, [])) ∧
  (Delete opts = true →
     ∃ stats log, Push env opts = (Ok stats, log) ∧
       (∀ key, key ∈ toDelete log ↔ key ∈ remoteKeys objects) ∧
       deleteCalls log = (if DryRun opts then [] else toDelete log) ∧
       toTransfer log = [] ∧ transferCalls log = [] ∧
       Uploaded stats = 0 ∧ Skipped stats = 0).
Proof.
  intros Hlist Hstat. unfold pushRoot in Hstat. unfold Push.
  rewrite Hlist, Hstat. simpl. split; intros Hdelete; rewrite Hdelete; simpl;
    [done|].
  unfold pushDeletions. rewrite Hdelete. fold pushStart.
  destruct (pushDeletes_spec env opts
              (rangeKeys env (buildRemoteFiles objects)) pushStart)
    as (new & Hlog & _ & Hdel & Hcall & _ & _ & Ht & Hc).
  simpl in Hlog. eexists _, _. split; [done|]. rewrite Hlog.
  destruct (pushDeletes_no_upload env opts
              (rangeKeys env (buildRemoteFiles objects)) pushStart)
    as [Hup Hskip]; [done..|].
  repeat split; try done.
  - rewrite Hdel. intros [_ Hkey]%list_elem_of_filter.
    apply (proj1 (buildRemoteFiles_lookup objects key)).
    by apply (proj1 (rangeKeys_elem env _ key)).
  - rewrite Hdel. intros Hkey. apply list_elem_of_filter. split; [set_solver|].
    apply (proj2 (rangeKeys_elem env _ key)).
    by apply (proj1 (buildRemoteFiles_lookup objects key)).
Qed.

(** ** Uploads and the delete pass *)

Lemma uploadsAfterSeen_app (log new : list Event) :
  uploadsAfterSeen log → uploadsAfterSeen new → uploadsAfterSeen (log ++ new).
Proof.
  intros Hlog Hnew i p k r Hi.
  destruct (decide (i < length log)%nat) as [Hlt|Hge].
  - rewrite lookup_app_l in Hi by done.
    destruct (Hlog i p k r Hi) as (j & Hj & Hseen).
    exists j. split; [done|]. rewrite lookup_app_l by lia. done.
  - rewrite lookup_app_r in Hi by lia.
    destruct (Hnew _ p k r Hi) as (j & Hj & Hseen).
    exists (length log + j)%nat. split; [lia|].
    rewrite lookup_app_r by lia.
    by replace (length log + j - length log)%nat with j by lia.
Qed.

Lemma uploadsAfterSeen_step (k : string) (new : list Event) :
  (∀ p k' r, CallUploadFile p k' r ∈ new → k' = k) →
  uploadsAfterSeen (Seen k :: new).
Proof.
  intros Hnew [|i] p k' r Hi; simpl in Hi; [done|].
  exists 0%nat. split; [lia|]. simpl.
  by rewrite (Hnew p k' r) by (by eapply list_elem_of_lookup_2).
Qed.

Lemma uploadsAfterSeen_none (new : list Event) :
  (∀ p k r, CallUploadFile p k r ∉ new) → uploadsAfterSeen new.
Proof.
  intros Hnew i p k r Hi. by apply list_elem_of_lookup_2, Hnew in Hi.
Qed.

(** C9. In every push (so in every live push with the delete pass), each
    call of [UploadFile] comes after the key was recorded in the set of
    local files, and a push that returns statistics has recorded every local
    file it did not exclude.  Hence a key whose upload was attempted, and
    failed, is not selected by the delete pass of the same run and
    [DeleteObject] is not called on it. *)
Theorem failed_upload_not_deleted (env : Env) (opts : PushOptions) :
  uploadsAfterSeen (Push env opts).2 ∧
  (∀ stats, (Push env opts).1 = Ok stats →
     seen (Push env opts).2 = consideredKeys opts (pushSource env opts)) ∧
  (∀ p k r, CallUploadFile p k r ∈ (Push env opts).2 →
     (DeletingRemote k ∉ (Push env opts).2)
     ∧ ∀ r', CallDeleteObject k r' ∉ (Push env opts).2).
Proof.
  set (Iw := λ st : PushState,
    uploadsAfterSeen (ps_log st)
    ∧ (∀ k, Seen k ∈ ps_log st → k ∈ ps_localFiles st)
    ∧ (∀ k, (DeletingRemote k ∉ ps_log st)
            ∧ ∀ r, CallDeleteObject k r ∉ ps_log st)).
  set (Id := λ st : PushState,
    uploadsAfterSeen (ps_log st)
    ∧ (∀ k, Seen k ∈ ps_log st → k ∈ ps_localFiles st)
    ∧ (∀ k, DeletingRemote k ∈ ps_log st
            ∨ (∃ r, CallDeleteObject k r ∈ ps_log st) →
            k ∉ ps_localFiles st)).
  destruct (Push_invariant env opts Iw Id)
    as (st & (Horder & Hseen & Hdel) & Hlog & _).
  - split; [by intros [|?] | split; [|split]]; simpl; set_solver.
  - intros remoteFiles st e (Horder & Hseen & Hdel).
    destruct (pushWalkFn_shape env opts remoteFiles st e)
      as [->|(k & reason & new & stats' & -> & Hcase)]; [done|].
    unfold Iw. simpl.
    assert (∃ rest, new = Seen k :: rest
                    ∧ (∀ p k' r, CallUploadFile p k' r ∈ rest → k' = k)
                    ∧ (∀ k', Seen k' ∉ rest)
                    ∧ (∀ k', DeletingRemote k' ∉ rest)
                    ∧ (∀ k' r, CallDeleteObject k' r ∉ rest))
      as (rest & -> & Hup & Hns & Hnd & Hnc).
    { destruct Hcase as [(-> & _)|[(err & -> & _)|[(-> & _)|
                        [(-> & _)|(-> & _)]]]];
        eexists; (split; [done|]); set_solver. }
    split; [|split].
    + apply uploadsAfterSeen_app; [done | by apply uploadsAfterSeen_step].
    + intros k'. rewrite elem_of_app, elem_of_cons.
      intros [?|[[= ->]|?]]; [set_solver | set_solver | by destruct (Hns k')].
    + intros k'. split; [|intros r]; rewrite elem_of_app, elem_of_cons;
        intros [Hin|[?|Hin]]; try done;
        first [ by apply (proj1 (Hdel k')) in Hin
              | by apply (proj2 (Hdel k')) in Hin
              | by apply Hnd in Hin | by apply Hnc in Hin ].
  - intros st (Horder & Hseen & Hdel). split; [done|]. split; [done|].
    intros k [Hin|[r Hin]]; [by apply (proj1 (Hdel k)) in Hin
                            | by apply (proj2 (Hdel k)) in Hin].
  - intros st key (Horder & Hseen & Hdel).
    destruct (pushDeleteStep_shape env opts st key)
      as [->|(new & stats' & -> & Hkey & Hcase)]; [done|].
    unfold Id. simpl.
    assert ((∀ p k r, CallUploadFile p k r ∉ new)
            ∧ (∀ k, Seen k ∉ new)
            ∧ (∀ k, DeletingRemote k ∈ new → k = key)
            ∧ (∀ k r, CallDeleteObject k r ∈ new → k = key))
      as (Hnu & Hns & Hnd & Hnc).
    { destruct Hcase as [(-> & _)|[(err & -> & _)|(-> & _)]]; set_solver. }
    split; [|split].
    + apply uploadsAfterSeen_app; [done | by apply uploadsAfterSeen_none].
    + intros k. rewrite elem_of_app. intros [?|Hin]; [auto|].
      by apply Hns in Hin.
    + intros k [Hin|[r Hin]]; apply elem_of_app in Hin as [Hin|Hin].
      * apply Hdel. auto.
      * by rewrite (Hnd k Hin).
      * apply Hdel. eauto.
      * by rewrite (Hnc k r Hin).
  - rewrite Hlog. split; [done|]. split.
    + intros stats Hok.
      destruct (Push env opts) as [res log] eqn:HPush. simpl in *. subst res.
      destruct (Push_Ok_inv env opts stats log HPush) as (objects & _ & Hlist & _).
      destruct (Push_plan env opts objects stats log Hlist HPush)
        as (new1 & new2 & Hnew & Hover & Hswept).
      destruct Hover as (_ & Hs1 & _).
      assert (seen new2 = []) as Hs2.
      { destruct (Delete opts); [|by subst new2].
        by destruct Hswept as (_ & _ & _ & Hs & _). }
      rewrite <- Hlog, Hnew. unfold seen in *.
      by rewrite omap_app, Hs1, Hs2, app_nil_r.
    + intros p k r Hin.
      apply list_elem_of_lookup in Hin as [i Hi].
      destruct (Horder i p k r Hi) as (j & _ & Hj).
      apply list_elem_of_lookup_2, Hseen in Hj.
      split; [|intros r']; intros Hin; eapply Hdel; eauto.
Qed.

End Properties.

(** * More properties of the runs *)

Section MoreProperties.
Context `{Filepath}.

(** ** A walk that fails *)

Lemma walkedBefore_all (mount : string) (entries : list WalkEntry) :
  walkError mount entries = None → walkedBefore mount entries = entries.
Proof.
  induction entries as [|e rest IH]; simpl; [done|].
  destruct (entryError mount e); [done|]. intros Hrest. by rewrite IH.
Qed.

Lemma walkedBefore_prefix (mount : string) (entries : list WalkEntry) :
  ∃ rest, entries = walkedBefore mount entries ++ rest.
Proof.
  induction entries as [|e entries [rest IH]]; simpl; [by exists []|].
  destruct (entryError mount e); [by eexists|].
  exists rest. simpl. by rewrite <- IH.
Qed.

Lemma filepath_Walk_walkedBefore {St : Type}
    (fn : St → WalkEntry → St * option error) (mount : string) :
  (∀ st e, (fn st e).2 = entryError mount e) →
  (∀ st e, entryError mount e ≠ None → (fn st e).1 = st) →
  ∀ entries st,
    filepath_Walk fn st (walkedBefore mount entries)
    = ((filepath_Walk fn st entries).1, None).
Proof.
  intros Herr Hsame. induction entries as [|e rest IH]; intros st; simpl;
    [done|].
  specialize (Herr st e). specialize (Hsame st e).
  destruct (entryError mount e) as [err|] eqn:He.
  - destruct (fn st e) as [st' r]. simpl in *. subst r.
    by rewrite Hsame.
  - simpl. destruct (fn st e) as [st' r]. simpl in *. subst r. apply IH.
Qed.

Lemma pushWalkFn_same (env : Env) (opts : PushOptions)
    (remoteFiles : gmap string S3Object) (st : PushState) (e : WalkEntry) :
  entryError (MountPath opts) e ≠ None →
  (pushWalkFn env opts remoteFiles st e).1 = st.
Proof.
  unfold pushWalkFn, entryError. by repeat case_match.
Qed.

Lemma pullWalkFn_same (env : Env) (opts : PullOptions)
    (remoteKeys : gset string) (st : PullState) (e : WalkEntry) :
  entryError (pl_MountPath opts) e ≠ None →
  (pullWalkFn env opts remoteKeys st e).1 = st.
Proof.
  unfold pullWalkFn, entryError. by repeat case_match.
Qed.

(** The log of a push whose listing succeeded: what the walk logged over the
    entries it reached, then what the delete pass logged, if it ran. *)
Lemma Push_log (env : Env) (opts : PushOptions) (objects : list S3Object) :
  ListObjects env (Prefix opts) true = Ok objects →
  ∃ new1 new2,
    (Push env opts).2 = new1 ++ new2 ∧
    walkedOver opts (buildRemoteFiles objects)
      (consideredKeys opts (walkedBefore (MountPath opts) (pushSource env opts)))
      ∅
      (list_to_set
         (consideredKeys opts
            (walkedBefore (MountPath opts) (pushSource env opts))))
      new1 ∧
    (new2 = [] ∨
     (isOk (Push env opts).1 = true ∧ Delete opts = true ∧
      sweptOver opts
        (list_to_set
           (consideredKeys opts
              (walkedBefore (MountPath opts) (pushSource env opts))))
        (rangeKeys env (buildRemoteFiles objects)) new2)).
Proof.
  intros Hlist.
  assert (∀ st new1,
    ps_log st = new1 →
    ps_localFiles st
      = list_to_set (consideredKeys opts
          (walkedBefore (MountPath opts) (pushSource env opts))) →
    ∃ new2,
      (pushDeletions env opts (buildRemoteFiles objects) st).2 = new1 ++ new2 ∧
      (new2 = [] ∨
       (Delete opts = true ∧
        sweptOver opts
          (list_to_set (consideredKeys opts
             (walkedBefore (MountPath opts) (pushSource env opts))))
          (rangeKeys env (buildRemoteFiles objects)) new2))) as Hsweep.
  { intros st new1 Hlog HL. unfold pushDeletions. simpl.
    destruct (Delete opts).
    - destruct (pushDeletes_spec env opts
                  (rangeKeys env (buildRemoteFiles objects)) st)
        as (new2 & Hlog2 & _ & Hswept).
      exists new2. rewrite Hlog2, Hlog. split; [done|]. right.
      by rewrite <- HL.
    - exists []. rewrite app_nil_r. auto. }
  unfold Push, pushSource, pushRoot in *. rewrite Hlist. fold pushStart.
  destruct (Stat env [] _) as [info|err].
  - pose proof (filepath_Walk_walkedBefore
      (pushWalkFn env opts (buildRemoteFiles objects)) (MountPath opts)
      (pushWalkFn_error env opts _) (pushWalkFn_same env opts _)
      (Walk env [] (Join (MountPath opts) (Prefix opts))) pushStart) as Hwalked.
    apply pushWalk_ok in Hwalked as (new1 & Hlog1 & Hover). simpl in Hlog1.
    assert (ps_localFiles
              (filepath_Walk (pushWalkFn env opts (buildRemoteFiles objects))
                 pushStart
                 (Walk env [] (Join (MountPath opts) (Prefix opts)))).1
            = list_to_set (consideredKeys opts
                (walkedBefore (MountPath opts)
                   (Walk env [] (Join (MountPath opts) (Prefix opts))))))
      as HL.
    { destruct Hover as (_ & _ & _ & _ & -> & _). simpl. set_solver. }
    rewrite HL in Hover. exists new1.
    destruct (filepath_Walk _ _ _) as [st [werr|]]; simpl in *.
    + exists []. rewrite app_nil_r. auto.
    + destruct (Hsweep st new1 Hlog1 HL) as (new2 & Hlog2 & Hcase).
      exists new2. split; [done|]. split; [done|].
      destruct Hcase as [?|[? ?]]; auto.
  - assert (walkedOver opts (buildRemoteFiles objects) []
              ∅ (list_to_set []) []) as Hnil by apply walkedOver_nil.
    exists []. destruct (IsNotExist (Some err)).
    + destruct (Hsweep pushStart [] eq_refl eq_refl) as (new2 & Hlog2 & Hcase).
      destruct (Delete opts) eqn:Hdelete; cbn [negb].
      * exists new2. split; [done|]. split; [done|].
        destruct Hcase as [?|[? ?]]; auto.
      * exists []. auto.
    + exists []. auto.
Qed.

Lemma transfers_decided (log : list Event) (k : string) :
  k ∈ (toTransfer log).*1 → k ∈ decided log.
Proof.
  intros Hk. rewrite decided_Permutation. apply elem_of_app. by left.
Qed.

Lemma sourceKeys_walkedBefore (mount : string) (entries : list WalkEntry)
    (k : string) :
  k ∈ sourceKeys mount (walkedBefore mount entries) →
  k ∈ sourceKeys mount entries.
Proof.
  destruct (walkedBefore_prefix mount entries) as [rest Hrest].
  intros Hk. rewrite Hrest. unfold sourceKeys in *. rewrite omap_app.
  apply elem_of_app. by left.
Qed.

(** X1. When the walk of the local tree fails, the push returns the error
    "failed to walk directory" and selects nothing for deletion; the files
    walked before the error have been decided, and in a live run their
    uploads have been made. *)
Theorem push_failed_walk (env : Env) (opts : PushOptions)
    (objects : list S3Object) (info : FileInfo) (werr : error) :
  ListObjects env (Prefix opts) true = Ok objects →
  Stat env [] (pushRoot opts) = Ok info →
  walkError (MountPath opts) (Walk env [] (pushRoot opts)) = Some werr →
  ∃ log,
    Push env opts = (Err (Wrapped "failed to walk directory" werr), log) ∧
    decided log
      = consideredKeys opts
          (walkedBefore (MountPath opts) (Walk env [] (pushRoot opts))) ∧
    transferCalls log = (if DryRun opts then [] else (toTransfer log).*1) ∧
    toDelete log = [] ∧ deleteCalls log = [].
Proof.
  intros Hlist Hstat Hwalk.
  destruct (Push_log env opts objects Hlist) as (new1 & new2 & Hlog & Hover & Hcase).
  assert ((Push env opts).1 = Err (Wrapped "failed to walk directory" werr))
    as Hres.
  { unfold Push. unfold pushRoot in *. rewrite Hlist, Hstat.
    pose proof (filepath_Walk_error
      (pushWalkFn env opts (buildRemoteFiles objects)) (MountPath opts)
      (pushWalkFn_error env opts _)
      (Walk env [] (Join (MountPath opts) (Prefix opts)))
      {| ps_stats := zeroPushStats; ps_localFiles := ∅; ps_log := [] |}) as Herr.
    rewrite Hwalk in Herr.
    destruct (filepath_Walk _ _ _) as [st r]. simpl in Herr. by subst r. }
  destruct Hcase as [->|[Hok _]]; [|by rewrite Hres in Hok].
  rewrite app_nil_r in Hlog. exists new1.
  split; [by rewrite <- Hlog, <- Hres; destruct (Push env opts)|].
  unfold pushSource in Hover. rewrite Hstat in Hover.
  by destruct Hover as (Hd & _ & Hx & Hc & _ & Ht & _).
Qed.

(** X2. A push without [Delete] selects no remote key for deletion and never
    calls [DeleteObject], whatever its result. *)
Theorem push_without_delete (env : Env) (opts : PushOptions) :
  Delete opts = false →
  toDelete (Push env opts).2 = [] ∧ deleteCalls (Push env opts).2 = [].
Proof.
  intros Hdelete.
  destruct (ListObjects env (Prefix opts) true) as [objects|err] eqn:Hlist.
  - destruct (Push_log env opts objects Hlist)
      as (new1 & new2 & -> & Hover & Hcase).
    destruct Hcase as [->|(_ & Hdel & _)]; [|congruence].
    rewrite app_nil_r. by destruct Hover as (_ & _ & Hx & Hc & _).
  - unfold Push. by rewrite Hlist.
Qed.

(** X3. In every push, a key that is marked as seen, decided or handed to
    [UploadFile] is the key of a walked file that no rule excludes:
    excluded files and directories are never uploaded. *)
Theorem push_respects_exclusions (env : Env) (opts : PushOptions) (k : string) :
  k ∈ seen (Push env opts).2 ∨ k ∈ decided (Push env opts).2
  ∨ k ∈ transferCalls (Push env opts).2 →
  shouldExclude k (ExcludeGlobs opts) = false ∧
  k ∈ sourceKeys (MountPath opts) (pushSource env opts).
Proof.
  destruct (ListObjects env (Prefix opts) true) as [objects|err] eqn:Hlist.
  2:{ unfold Push. rewrite Hlist. simpl. set_solver. }
  destruct (Push_log env opts objects Hlist)
    as (new1 & new2 & -> & Hover & Hcase).
  destruct Hover as (Hd & Hs & _ & _ & _ & Ht & _).
  assert (seen new2 = [] ∧ decided new2 = [] ∧ transferCalls new2 = [])
    as (Hs2 & Hd2 & Ht2).
  { destruct Hcase as [->|(_ & _ & Hswept)]; [done|].
    by destruct Hswept as (_ & _ & ? & ? & _ & ?). }
  assert (k ∈ transferCalls new1 → k ∈ decided new1) as Hcalls.
  { rewrite Ht. destruct (DryRun opts); [by intros ?%elem_of_nil|].
    apply transfers_decided. }
  unfold seen, decided, transferCalls in *.
  rewrite !omap_app, Hs2, Hd2, Ht2, !app_nil_r, Hs.
  intros Hk.
  assert (k ∈ consideredKeys opts
            (walkedBefore (MountPath opts) (pushSource env opts))) as Hin.
  { destruct Hk as [?|[Hk|Hk]]; [done| |]; [by rewrite <- Hd|].
    rewrite <- Hd. by apply Hcalls. }
  apply consideredKeys_elem in Hin as [Hsrc Hex].
  split; [done|]. by eapply sourceKeys_walkedBefore.
Qed.

(** ** Counters *)

Lemma countOf_app (f : Event → bool) (log new : list Event) :
  countOf f (log ++ new) = (countOf f log + countOf f new)%nat.
Proof. unfold countOf. by rewrite filter_app, length_app. Qed.

Lemma length_omap_app {A : Type} (f : Event → option A) (log new : list Event) :
  length (omap f (log ++ new)) = (length (omap f log) + length (omap f new))%nat.
Proof. by rewrite omap_app, length_app. Qed.

Lemma wrap_int_add (x y : Z) : wrap_int (wrap_int x + y) = wrap_int (x + y).
Proof.
  unfold wrap_int. f_equal.
  replace ((x + 2 ^ 63) mod 2 ^ 64 - 2 ^ 63 + y + 2 ^ 63)
    with ((x + 2 ^ 63) mod 2 ^ 64 + y) by lia.
  rewrite Zplus_mod_idemp_l. f_equal. lia.
Qed.

Lemma tallied_app (live : bool) (u s d f u' s' d' f' : Z)
    (log new : list Event) (nu ns nd nf : nat) :
  tallied live u s d f log →
  countOf transferDone new = nu → length (toSkip new) = ns →
  countOf deleteDone new = nd → failures new = nf →
  (live = true →
   (length (decided new) + length (toDelete new) = nu + ns + nd + nf)%nat) →
  (nu = 0%nat ∧ u' = u) ∨ u' = wrap_int (u + Z.of_nat nu) →
  (ns = 0%nat ∧ s' = s) ∨ s' = (if live then wrap_int (s + Z.of_nat ns) else s) →
  (nd = 0%nat ∧ d' = d) ∨ d' = wrap_int (d + Z.of_nat nd) →
  (nf = 0%nat ∧ f' = f) ∨ f' = wrap_int (f + Z.of_nat nf) →
  tallied live u' s' d' f' (log ++ new).
Proof.
  intros (Hu & Hs & Hd & Hf & Hsum) Hnu Hns Hnd Hnf Hnew Hu' Hs' Hd' Hf'.
  unfold tallied, toSkip, decided, toDelete.
  rewrite !countOf_app, !length_omap_app, failures_app.
  fold (toSkip log) (toSkip new) (decided log) (decided new)
       (toDelete log) (toDelete new).
  rewrite Hnu, Hns, Hnd, Hnf, !Nat2Z.inj_add.
  split; [|split; [|split; [|split]]].
  - destruct Hu' as [[-> ->]| ->]; subst u;
      [by rewrite Z.add_0_r | by rewrite wrap_int_add].
  - destruct Hs' as [[-> ->]| ->]; destruct live; subst s; try done;
      [by rewrite Z.add_0_r | by rewrite wrap_int_add].
  - destruct Hd' as [[-> ->]| ->]; subst d;
      [by rewrite Z.add_0_r | by rewrite wrap_int_add].
  - destruct Hf' as [[-> ->]| ->]; subst f;
      [by rewrite Z.add_0_r | by rewrite wrap_int_add].
  - intros Hlive. specialize (Hsum Hlive). specialize (Hnew Hlive). lia.
Qed.

Ltac tally :=
  eapply tallied_app;
  [ eassumption | reflexivity | reflexivity | reflexivity | reflexivity
  | intros; first [ discriminate | reflexivity ]
  | first [ by left | by right ] | first [ by left | by right ]
  | first [ by left | by right ] | first [ by left | by right ] ].

(** X4. The statistics of a push count what its log shows: [Uploaded] the
    uploads that succeeded, [Skipped] the files found up to date (in a live
    run; a dry run counts none), [Deleted] the deletions that succeeded and
    [Failed] the calls that failed, each modulo the 64-bit wrap of [int].
    In a live run every file decided and every key selected for deletion is
    counted exactly once. *)
Theorem push_counters (env : Env) (opts : PushOptions) (stats : PushStats)
    (log : list Event) :
  Push env opts = (Ok stats, log) →
  tallied (negb (DryRun opts)) (Uploaded stats) (Skipped stats)
    (Deleted stats) (Failed stats) log.
Proof.
  intros HPush.
  set (I := λ st : PushState,
         tallied (negb (DryRun opts)) (Uploaded (ps_stats st))
           (Skipped (ps_stats st)) (Deleted (ps_stats st))
           (Failed (ps_stats st)) (ps_log st)).
  destruct (Push_invariant env opts I I) as (st & Hst & Hlog & Hstats).
  - unfold I, tallied. simpl. by destruct (DryRun opts).
  - intros remoteFiles st e Hst.
    destruct (pushWalkFn_shape env opts remoteFiles st e)
      as [->|(k & reason & new & stats' & -> & Hcase)]; [done|].
    unfold I in *. simpl.
    destruct Hcase as [(-> & Hdry & ->)|[(err & -> & Hdry & ->)|
      [(-> & Hdry & ->)|[(-> & Hdry & ->)|(-> & Hdry & ->)]]]];
      rewrite Hdry in *; simpl; tally.
  - done.
  - intros st key Hst.
    destruct (pushDeleteStep_shape env opts st key)
      as [->|(new & stats' & -> & _ & Hcase)]; [done|].
    unfold I in *. simpl.
    destruct Hcase as [(-> & Hdry & ->)|[(err & -> & Hdry & ->)|
      (-> & Hdry & ->)]]; rewrite Hdry in *; simpl; tally.
  - rewrite HPush in Hlog, Hstats. simpl in *.
    rewrite (Hstats stats eq_refl), Hlog. apply Hst.
Qed.

(** X5. The statistics of a pull count what its log shows, as those of a
    push do: [Downloaded] the downloads that succeeded, [Skipped] the
    objects found up to date (none in a dry run), [Deleted] the local files
    removed and [Failed] the calls that failed; in a live run every object
    decided and every file selected for deletion is counted exactly once. *)
Theorem pull_counters (env : Env) (opts : PullOptions) (stats : PullStats)
    (log : list Event) :
  Pull env opts = (Ok stats, log) →
  tallied (negb (pl_DryRun opts)) (Downloaded stats) (pl_Skipped stats)
    (pl_Deleted stats) (pl_Failed stats) log.
Proof.
  set (I := λ st : PullState,
         tallied (negb (pl_DryRun opts)) (Downloaded (pl_stats st))
           (pl_Skipped (pl_stats st)) (pl_Deleted (pl_stats st))
           (pl_Failed (pl_stats st)) (pl_log st)).
  assert (∀ objects st, I st →
    pullFrom env opts objects st = (Ok stats, log) →
    tallied (negb (pl_DryRun opts)) (Downloaded stats) (pl_Skipped stats)
      (pl_Deleted stats) (pl_Failed stats) log) as Hfrom.
  { intros objects st Hst Hrun.
    destruct (pullFrom_invariant env opts I objects st)
      as (st' & Hst' & Hlog & Hstats); [| |done|].
    - intros st1 obj Hst1.
      destruct (pullStep_shape env opts st1 obj)
        as [[_ ->]|(reason & new & stats1 & _ & -> & Hcase)]; [done|].
      unfold I in *. simpl.
      destruct Hcase as [(-> & Hdry & ->)|[(err & -> & Hdry & ->)|
        [(-> & Hdry & ->)|[(-> & Hdry & ->)|(-> & Hdry & ->)]]]];
        rewrite Hdry in *; simpl; tally.
    - intros remoteKeys st1 e Hst1.
      destruct (pullWalkFn_shape env opts remoteKeys st1 e)
        as [->|(rel & new & stats1 & -> & _ & Hcase)]; [done|].
      unfold I in *. simpl.
      destruct Hcase as [(-> & Hdry & ->)|[(err & -> & Hdry & ->)|
        (-> & Hdry & ->)]]; rewrite Hdry in *; simpl; tally.
    - rewrite Hrun in Hlog, Hstats. simpl in *.
      rewrite (Hstats stats eq_refl), Hlog. apply Hst'. }
  unfold Pull.
  destruct (ListObjects env (pl_Prefix opts) true) as [objects|]; [|done].
  destruct (pl_DryRun opts); simpl.
  - by apply Hfrom.
  - destruct (MkdirAll env [] (pl_MountPath opts)); [done|]. by apply Hfrom.
Qed.

(** ** The delete pass of a pull *)

Lemma buildRemoteKeys_elem (objects : list S3Object) (k : string) :
  k ∈ buildRemoteKeys objects ↔ k ∈ remoteKeys objects.
Proof.
  unfold buildRemoteKeys.
  induction objects as [|obj objects IH] using rev_ind.
  - simpl. set_solver.
  - rewrite foldl_app, remoteKeys_snoc. simpl.
    destruct (HasSuffix (Key obj) "/"); simpl.
    + by rewrite app_nil_r.
    + rewrite elem_of_union, elem_of_app, IH. set_solver.
Qed.

Lemma sourceKeys_cons (mount : string) (e : WalkEntry)
    (entries : list WalkEntry) :
  sourceKeys mount (e :: entries)
  = match localKey mount e with Some k => [k] | None => [] end
    ++ sourceKeys mount entries.
Proof. unfold sourceKeys. simpl. by destruct (localKey mount e). Qed.

(** One call of the callback of the delete pass, on an entry on which it
    returns no error. *)
Lemma pullWalkFn_sweep (env : Env) (opts : PullOptions) (keys : gset string)
    (st : PullState) (e : WalkEntry) :
  entryError (pl_MountPath opts) e = None →
  ∃ new,
    pl_log (pullWalkFn env opts keys st e).1 = pl_log st ++ new ∧
    toDelete new
      = filter (λ k, k ∉ keys)
          match localKey (pl_MountPath opts) e with
          | Some k => [k] | None => []
          end ∧
    decided new = [].
Proof.
  unfold entryError, localKey, pullWalkFn.
  destruct (we_err e); [done|].
  destruct (fi_IsDir (we_info e));
    [intros _; exists []; by rewrite app_nil_r|].
  destruct (Rel (pl_MountPath opts) (we_path e)) as [relPath|]; [|done].
  intros _. simpl. rewrite filter_cons, filter_nil.
  case_bool_decide as Hin; simpl.
  - exists []. rewrite app_nil_r. by rewrite decide_False by auto.
  - rewrite decide_True by done.
    destruct (pl_DryRun opts); simpl; [by eexists|].
    destruct (Remove env _ _); simpl; rewrite <- (assoc_L (++)); by eexists.
Qed.

Lemma pullWalk_sweep (env : Env) (opts : PullOptions) (keys : gset string)
    (entries : list WalkEntry) (st : PullState) :
  ∃ new,
    pl_log (filepath_Walk (pullWalkFn env opts keys) st entries).1
      = pl_log st ++ new ∧
    toDelete new
      = filter (λ k, k ∉ keys)
          (sourceKeys (pl_MountPath opts)
             (walkedBefore (pl_MountPath opts) entries)) ∧
    decided new = [].
Proof.
  revert st. induction entries as [|e rest IH]; intros st; simpl.
  { exists []. by rewrite app_nil_r. }
  pose proof (pullWalkFn_error env opts keys st e) as Herr.
  pose proof (pullWalkFn_same env opts keys st e) as Hsame.
  destruct (entryError (pl_MountPath opts) e) as [err|] eqn:He.
  - destruct (pullWalkFn env opts keys st e) as [st' r]. simpl in *. subst r.
    exists []. rewrite Hsame by done. by rewrite app_nil_r.
  - destruct (pullWalkFn_sweep env opts keys st e He) as (new1 & Hlog1 & Hx1 & Hd1).
    destruct (pullWalkFn env opts keys st e) as [st' r]. simpl in *. subst r.
    destruct (IH st') as (new2 & Hlog2 & Hx2 & Hd2).
    exists (new1 ++ new2). rewrite Hlog2, Hlog1, (assoc_L (++)).
    split; [done|].
    unfold toDelete, decided in *. rewrite !omap_app, Hx1, Hx2, Hd1, Hd2.
    split; [|done]. rewrite <- filter_app.
    by destruct (localKey (pl_MountPath opts) e).
Qed.

Lemma filter_ext_elem {A : Type} (P Q : A → Prop)
    `{∀ x, Decision (P x)} `{∀ x, Decision (Q x)} (l : list A) :
  (∀ x, P x ↔ Q x) → filter P l = filter Q l.
Proof.
  intros HPQ. induction l as [|x l IH]; [done|].
  rewrite !filter_cons, IH.
  destruct (decide (P x)), (decide (Q x)); naive_solver.
Qed.

(** The log of the two loops of a pull: the downloads, then the delete
    pass over the local files walked. *)
Lemma pullFrom_sweep (env : Env) (opts : PullOptions)
    (objects : list S3Object) (st : PullState) :
  ∃ new1 new2,
    (pullFrom env opts objects st).2 = pl_log st ++ new1 ++ new2 ∧
    decided new1 = remoteKeys objects ∧ toDelete new1 = [] ∧
    removeCalls new1 = [] ∧ decided new2 = [] ∧
    if pl_Delete opts
    then toDelete new2
         = filter (λ k, k ∉ remoteKeys objects)
             (sourceKeys (pl_MountPath opts)
                (walkedBefore (pl_MountPath opts)
                   (Walk env (pl_log st ++ new1)
                      (Join (pl_MountPath opts) (pl_Prefix opts)))))
    else new2 = [].
Proof.
  destruct (pullSteps_spec env opts objects st)
    as (new1 & Hlog1 & Hd1 & _ & Hx1 & Hr1).
  exists new1. unfold pullFrom, pullDeletions.
  destruct (pl_Delete opts).
  2:{ exists []. simpl. by rewrite Hlog1, app_nil_r. }
  destruct (pullWalk_sweep env opts (buildRemoteKeys objects)
              (Walk env (pl_log (foldl (pullStep env opts) st objects))
                 (Join (pl_MountPath opts) (pl_Prefix opts)))
              (foldl (pullStep env opts) st objects))
    as (new2 & Hlog2 & Hx2 & Hd2).
  exists new2.
  split.
  - destruct (filepath_Walk _ _ _) as [st' [werr|]];
      [destruct (IsNotExist (Some werr))|]; simpl in *;
      by rewrite Hlog2, Hlog1, (assoc_L (++)).
  - do 4 (split; [done|]). rewrite Hx2, Hlog1. apply filter_ext_elem.
    intros k. by rewrite buildRemoteKeys_elem.
Qed.

(** The same for a pull that got its listing and went on to the loops. *)
Lemma Pull_sweep (env : Env) (opts : PullOptions) (objects : list S3Object) :
  ListObjects env (pl_Prefix opts) true = Ok objects →
  (pl_DryRun opts = false → MkdirAll env [] (pl_MountPath opts) = None) →
  ∃ log0 new1 new2,
    log0 = (if pl_DryRun opts then []
            else [CallMkdirAll (pl_MountPath opts) None]) ∧
    (Pull env opts).2 = log0 ++ new1 ++ new2 ∧
    decided new1 = remoteKeys objects ∧ toDelete new1 = [] ∧
    removeCalls new1 = [] ∧ decided new2 = [] ∧
    if pl_Delete opts
    then toDelete new2
         = filter (λ k, k ∉ remoteKeys objects)
             (sourceKeys (pl_MountPath opts)
                (walkedBefore (pl_MountPath opts)
                   (Walk env (log0 ++ new1)
                      (Join (pl_MountPath opts) (pl_Prefix opts)))))
    else new2 = [].
Proof.
  intros Hlist Hmkdir. unfold Pull. rewrite Hlist.
  destruct (pl_DryRun opts); simpl.
  - destruct (pullFrom_sweep env opts objects
                {| pl_stats := zeroPullStats; pl_log := [] |})
      as (new1 & new2 & Hlog & Hrest).
    by exists [], new1, new2.
  - rewrite Hmkdir by done.
    destruct (pullFrom_sweep env opts objects
                {| pl_stats := zeroPullStats;
                   pl_log := [CallMkdirAll (pl_MountPath opts) None] |})
      as (new1 & new2 & Hlog & Hrest).
    by exists [CallMkdirAll (pl_MountPath opts) None], new1, new2.
Qed.

(** X6. The delete pass of a pull: in a pull with [Delete] that returns
    statistics, the local files selected for deletion are, in the order of
    the walk, the walked files whose key is not the key of a listed object
    (directory markers apart); the walk is made after the downloads, and
    nothing is selected before it. *)
Theorem pull_delete_sweep (env : Env) (opts : PullOptions)
    (objects : list S3Object) (stats : PullStats) (log : list Event) :
  ListObjects env (pl_Prefix opts) true = Ok objects →
  pl_Delete opts = true →
  Pull env opts = (Ok stats, log) →
  ∃ before after,
    log = before ++ after ∧
    decided before = remoteKeys objects ∧ toDelete before = [] ∧
    decided after = [] ∧
    toDelete after
      = filter (λ k, k ∉ remoteKeys objects)
          (sourceKeys (pl_MountPath opts)
             (walkedBefore (pl_MountPath opts)
                (Walk env before
                   (Join (pl_MountPath opts) (pl_Prefix opts))))).
Proof.
  intros Hlist Hdelete HPull.
  assert (pl_DryRun opts = false → MkdirAll env [] (pl_MountPath opts) = None)
    as Hmkdir.
  { intros Hdry. unfold Pull in HPull. rewrite Hlist, Hdry in HPull.
    simpl in HPull. by destruct (MkdirAll env [] (pl_MountPath opts)). }
  destruct (Pull_sweep env opts objects Hlist Hmkdir)
    as (log0 & new1 & new2 & Hlog0 & Hlog & Hd1 & Hx1 & _ & Hd2 & Hx2).
  rewrite HPull, Hdelete in *. simpl in Hlog.
  exists (log0 ++ new1), new2. rewrite Hlog, (assoc_L (++)).
  split; [done|]. unfold decided, toDelete in *. rewrite !omap_app, Hd1, Hx1.
  by destruct (pl_DryRun opts); subst log0.
Qed.

(** X7. A pull without [Delete] selects no local file for deletion and
    never calls [os.Remove], whatever its result. *)
Theorem pull_without_delete (env : Env) (opts : PullOptions) :
  pl_Delete opts = false →
  toDelete (Pull env opts).2 = [] ∧ removeCalls (Pull env opts).2 = [].
Proof.
  intros Hdelete. unfold Pull.
  destruct (ListObjects env (pl_Prefix opts) true) as [objects|]; [|done].
  assert (∀ st, toDelete (pl_log st) = [] → removeCalls (pl_log st) = [] →
    toDelete (pullFrom env opts objects st).2 = [] ∧
    removeCalls (pullFrom env opts objects st).2 = []) as Hfrom.
  { intros st Hx Hr.
    destruct (pullFrom_sweep env opts objects st)
      as (new1 & new2 & -> & _ & Hx1 & Hr1 & _ & Hnew2).
    rewrite Hdelete in Hnew2. subst new2.
    unfold toDelete, removeCalls in *.
    by rewrite !omap_app, Hx, Hr, Hx1, Hr1. }
  destruct (pl_DryRun opts); simpl; [by apply Hfrom|].
  destruct (MkdirAll env [] (pl_MountPath opts)); [done|]. by apply Hfrom.
Qed.

(** X8. A pull fails in three ways only.  When the listing fails nothing is
    logged; when a live run cannot create the mount path nothing else is
    done; and when the walk of the delete pass fails, with an error other
    than that the root does not exist, every listed object has been decided
    before. *)
Theorem pull_errors (env : Env) (opts : PullOptions) (err : error)
    (log : list Event) :
  Pull env opts = (Err err, log) →
  (∃ cause, ListObjects env (pl_Prefix opts) true = Err cause ∧
     err = Wrapped "failed to list objects" cause ∧ log = [])
  ∨ (∃ cause, pl_DryRun opts = false ∧
       MkdirAll env [] (pl_MountPath opts) = Some cause ∧
       err = Wrapped "failed to create mount path" cause ∧
       log = [CallMkdirAll (pl_MountPath opts) (Some cause)])
  ∨ (∃ cause objects, pl_Delete opts = true ∧
       ListObjects env (pl_Prefix opts) true = Ok objects ∧
       err = Wrapped "failed to walk directory" cause ∧
       IsNotExist (Some cause) = false ∧
       decided log = remoteKeys objects).
Proof.
  intros HPull.
  destruct (ListObjects env (pl_Prefix opts) true) as [objects|cause] eqn:Hlist.
  2:{ left. exists cause. unfold Pull in HPull. rewrite Hlist in HPull.
      by injection HPull as <- <-. }
  right.
  destruct (pl_DryRun opts) eqn:Hdry;
    [|destruct (MkdirAll env [] (pl_MountPath opts)) as [cause|] eqn:Hmkdir].
  2:{ left. exists cause. unfold Pull in HPull.
      rewrite Hlist, Hdry, Hmkdir in HPull. simpl in HPull.
      by injection HPull as <- <-. }
  all: right.
  all: assert (pl_DryRun opts = false →
               MkdirAll env [] (pl_MountPath opts) = None) as Hm
         by (intros; congruence).
  all: destruct (Pull_sweep env opts objects Hlist Hm)
         as (log0 & new1 & new2 & Hlog0 & Hlog & Hd1 & _ & _ & Hd2 & _).
  all: assert (decided log = remoteKeys objects) as Hdecided
         by (rewrite HPull in Hlog; simpl in Hlog; rewrite Hlog;
             unfold decided in *; rewrite !omap_app, Hd1, Hd2, app_nil_r;
             rewrite Hdry in Hlog0; by subst log0).
  all: unfold Pull, pullFrom, pullDeletions in HPull.
  all: rewrite Hlist, Hdry in HPull; simpl in HPull; rewrite ?Hmkdir in HPull.
  all: destruct (pl_Delete opts); [|done].
  all: destruct (filepath_Walk _ _ _) as [st' [cause|]]; [|done].
  all: destruct (IsNotExist (Some cause)) eqn:Hne; [done|].
  all: simpl in HPull; injection HPull as <- <-.
  all: by exists cause, objects.
Qed.

(** ** The two directions *)

(** X9. The two comparisons on one file that exists on both sides.  With
    different sizes both directions transfer it: a push uploads it and a
    pull downloads it.  With equal sizes at most one direction does, and
    neither does exactly when the two modification times are within one
    second of each other. *)
Theorem sync_directions (env : Env) (log : list Event) (path : string)
    (info : FileInfo) (obj : S3Object) :
  Stat env log path = Ok info → Key obj ≠ "" →
  (fi_Size info ≠ Size obj →
     needsUpload path info obj = (true, "size differs") ∧
     needsDownload env log obj path = (true, "size differs")) ∧
  (fi_Size info = Size obj →
     ((needsUpload path info obj).1 && (needsDownload env log obj path).1
      = false) ∧
     ((needsUpload path info obj).1 || (needsDownload env log obj path).1
      = false
      ↔ Z.abs (fi_ModTime info - LastModified obj) ≤ 1000 * Millisecond)).
Proof.
  intros Hstat Hkey. split.
  - intros Hsize. unfold needsUpload, needsDownload. rewrite Hstat.
    destruct (String.eqb_spec (Key obj) "") as [?|_]; [done|].
    by destruct (Z.eqb_spec (fi_Size info) (Size obj)).
  - intros Hsize.
    rewrite (needsUpload_selected path info obj Hkey Hsize).
    rewrite (needsDownload_selected env log obj path info Hstat Hsize).
    destruct (Time_After (fi_ModTime info) _) eqn:Hup;
      [apply Time_After_Add in Hup
      |apply not_true_iff_false in Hup; rewrite Time_After_Add in Hup];
      (destruct (Time_After (LastModified obj) _) eqn:Hdown;
       [apply Time_After_Add in Hdown
       |apply not_true_iff_false in Hdown; rewrite Time_After_Add in Hdown]);
      unfold Millisecond in *; change (10 ^ 6) with 1000000 in *; simpl;
      (split; [first [done | lia]|]); (split; intros; first [done | lia]).
Qed.

(** ** What a dry run predicts *)

Lemma announced_app (log new : list Event) :
  announced (log ++ new) = announced log ++ announced new.
Proof. apply filter_app. Qed.

Lemma announced_one (ev : Event) :
  announced [ev] = if mutating ev then [] else [ev].
Proof.
  unfold announced. rewrite filter_cons, filter_nil.
  by destruct (mutating ev); case_decide.
Qed.

Lemma filepath_Walk_sim {S1 S2 : Type}
    (f1 : S1 → WalkEntry → S1 * option error)
    (f2 : S2 → WalkEntry → S2 * option error) (R : S1 → S2 → Prop) :
  (∀ s1 s2 e, R s1 s2 →
     (f2 s2 e).2 = (f1 s1 e).2 ∧ R (f1 s1 e).1 (f2 s2 e).1) →
  ∀ entries s1 s2, R s1 s2 →
    (filepath_Walk f2 s2 entries).2 = (filepath_Walk f1 s1 entries).2 ∧
    R (filepath_Walk f1 s1 entries).1 (filepath_Walk f2 s2 entries).1.
Proof.
  intros Hstep. induction entries as [|e rest IH]; intros s1 s2 HR; simpl;
    [done|].
  destruct (Hstep s1 s2 e HR) as [Herr HR'].
  destruct (f1 s1 e) as [s1' r1], (f2 s2 e) as [s2' r2]. simpl in *. subst r2.
  destruct r1; [done|]. by apply IH.
Qed.

Lemma foldl_sim {S1 S2 A : Type} (f1 : S1 → A → S1) (f2 : S2 → A → S2)
    (R : S1 → S2 → Prop) :
  (∀ s1 s2 x, R s1 s2 → R (f1 s1 x) (f2 s2 x)) →
  ∀ l s1 s2, R s1 s2 → R (foldl f1 s1 l) (foldl f2 s2 l).
Proof.
  intros Hstep. induction l as [|x l IH]; intros s1 s2 HR; simpl; [done|].
  by apply IH, Hstep.
Qed.

Lemma pushWalkFn_dry (env : Env) (opts : PushOptions)
    (remoteFiles : gmap string S3Object) (st dry : PushState) (e : WalkEntry) :
  dryOf st dry →
  (pushWalkFn env (dryRunOf opts) remoteFiles dry e).2
    = (pushWalkFn env opts remoteFiles st e).2 ∧
  dryOf (pushWalkFn env opts remoteFiles st e).1
    (pushWalkFn env (dryRunOf opts) remoteFiles dry e).1.
Proof.
  intros [HL Hlog]. unfold pushWalkFn, dryOf. simpl.
  destruct (we_err e); [done|].
  destruct (fi_IsDir (we_info e)); [done|].
  destruct (Rel (MountPath opts) (we_path e)) as [relPath|]; [|done].
  destruct (shouldExclude _ _); [done|].
  destruct (needsUpload _ _ _) as [[] reason]; destruct (DryRun opts); simpl;
    try destruct (UploadFile env _ _ _); simpl;
    rewrite !announced_app, !announced_one, HL, Hlog; simpl;
    by rewrite ?app_nil_r.
Qed.

Lemma pushDeleteStep_dry (env : Env) (opts : PushOptions)
    (st dry : PushState) (key : string) :
  dryOf st dry →
  dryOf (pushDeleteStep env opts st key)
    (pushDeleteStep env (dryRunOf opts) dry key).
Proof.
  intros [HL Hlog]. unfold pushDeleteStep, dryOf. simpl. rewrite HL.
  case_bool_decide; simpl; [done|].
  destruct (DryRun opts); simpl; try destruct (DeleteObject env _ _); simpl;
    rewrite !announced_app, !announced_one, Hlog; simpl;
    by rewrite ?app_nil_r.
Qed.

Lemma pushDeletions_dry (env : Env) (opts : PushOptions)
    (remoteFiles : gmap string S3Object) (st dry : PushState) :
  dryOf st dry →
  (pushDeletions env (dryRunOf opts) remoteFiles dry).2
    = announced (pushDeletions env opts remoteFiles st).2 ∧
  isOk (pushDeletions env (dryRunOf opts) remoteFiles dry).1
    = isOk (pushDeletions env opts remoteFiles st).1.
Proof.
  intros Hdry. unfold pushDeletions. simpl. split; [|done].
  destruct (Delete opts); [|apply Hdry].
  apply (foldl_sim (pushDeleteStep env opts)
           (pushDeleteStep env (dryRunOf opts)) dryOf); [|done].
  intros s1 s2 key. apply pushDeleteStep_dry.
Qed.

(** X10. A dry run of a push announces what the run itself announces: its
    log is the log of the run with the same options, in the same world,
    without the calls of [UploadFile] and [DeleteObject]; the same files
    are marked for upload with the same reasons, the same files are found
    up to date, the same keys are selected for deletion, and the dry run
    fails when the run fails, with the same error. *)
Theorem dry_run_predicts (env : Env) (opts : PushOptions) :
  (Push env (dryRunOf opts)).2 = announced (Push env opts).2 ∧
  toTransfer (Push env (dryRunOf opts)).2 = toTransfer (Push env opts).2 ∧
  toSkip (Push env (dryRunOf opts)).2 = toSkip (Push env opts).2 ∧
  toDelete (Push env (dryRunOf opts)).2 = toDelete (Push env opts).2 ∧
  (∀ err, (Push env (dryRunOf opts)).1 = Err err
          ↔ (Push env opts).1 = Err err).
Proof.
  assert (∀ {A} (f : Event → option A),
    (∀ ev, mutating ev = true → f ev = None) →
    ∀ log, omap f (announced log) = omap f log) as Homap.
  { intros A f Hf. induction log as [|ev log IH]; [done|].
    change (ev :: log) with ([ev] ++ log).
    rewrite announced_app, announced_one, !omap_app, IH.
    destruct (mutating ev) eqn:Hm; [|done].
    simpl. by rewrite (Hf ev Hm). }
  assert ((Push env (dryRunOf opts)).2 = announced (Push env opts).2 ∧
          (∀ err, (Push env (dryRunOf opts)).1 = Err err
                  ↔ (Push env opts).1 = Err err)) as [Hlog Herr].
  { unfold Push. cbn [dryRunOf Prefix MountPath Delete].
    destruct (ListObjects env (Prefix opts) true) as [objects|]; [|done].
    destruct (Stat env [] _) as [info|err0].
    - destruct (filepath_Walk_sim
        (pushWalkFn env opts (buildRemoteFiles objects))
        (pushWalkFn env (dryRunOf opts) (buildRemoteFiles objects)) dryOf
        (λ s1 s2 e, pushWalkFn_dry env opts _ s1 s2 e)
        (Walk env [] (Join (MountPath opts) (Prefix opts)))
        {| ps_stats := zeroPushStats; ps_localFiles := ∅; ps_log := [] |}
        {| ps_stats := zeroPushStats; ps_localFiles := ∅; ps_log := [] |})
        as [Hr Hdry]; [done|].
      destruct (filepath_Walk (pushWalkFn env opts _) _ _) as [st r],
        (filepath_Walk (pushWalkFn env (dryRunOf opts) _) _ _) as [dry r'].
      simpl in Hr, Hdry. subst r'. destruct r as [werr|].
      + simpl. split; [apply Hdry | done].
      + destruct (pushDeletions_dry env opts (buildRemoteFiles objects) st dry
                    Hdry) as [Hlog Hok].
        split; [done|]. intros err. unfold pushDeletions. simpl. by split.
    - destruct (IsNotExist (Some err0)); [|simpl; by split].
      destruct (Delete opts); simpl; [|by split].
      destruct (pushDeletions_dry env opts (buildRemoteFiles objects)
        {| ps_stats := zeroPushStats; ps_localFiles := ∅; ps_log := [] |}
        {| ps_stats := zeroPushStats; ps_localFiles := ∅; ps_log := [] |})
        as [Hlog Hok]; [done|].
      split; [done|]. intros err. unfold pushDeletions. simpl. by split. }
  split; [done|]. unfold toTransfer, toSkip, toDelete. rewrite Hlog.
  rewrite !Homap; [done|by intros []..].
Qed.

End MoreProperties.

(** * Properties of [pkg/config] *)

Lemma TrimLeftFunc_all (f : ascii → bool) (s : string) :
  Forall (λ c, f c = true) (list_ascii_of_string s) →
  TrimLeftFunc f s = "".
Proof.
  induction s as [|c s IH]; simpl; [done|].
  intros [Hc Hs]%Forall_cons. rewrite Hc. by apply IH.
Qed.

Lemma TrimSpace_blank (s : string) :
  Forall (λ c, isSpace c = true) (list_ascii_of_string s) → TrimSpace s = "".
Proof. intros Hs. unfold TrimSpace. by rewrite TrimLeftFunc_all. Qed.

Lemma append_nonempty (s t : string) : t ≠ "" → s +:+ t ≠ "".
Proof.
  intros Ht Hst. apply (f_equal String.length) in Hst.
  rewrite length_append in Hst. destruct t; [done|]. simpl in Hst. lia.
Qed.

Lemma Load_Ok_inv (os : config.Os) (cfg : config.Config) :
  config.Load os = Ok cfg →
  config.Validate cfg = None ∧
  config.AccessKeyID cfg = config.getConfigValue os "AWS_ACCESS_KEY_ID" ∧
  config.SecretAccessKey cfg
    = config.getConfigValue os "AWS_SECRET_ACCESS_KEY" ∧
  config.Endpoint cfg = config.getConfigValue os "AWS_ENDPOINT" ∧
  config.BucketName cfg = config.getConfigValue os "S3_BUCKET" ∧
  config.MountPath cfg ≠ "".
Proof.
  unfold config.Load.
  destruct (String.eqb_spec (config.getConfigValue os "MOUNT_PATH") "")
    as [Hmount|Hmount].
  - destruct (config.UserHomeDir os) as [home|]; [|done].
    destruct (config.Validate _) eqn:Hvalid; [done|].
    intros [= <-]. simpl. repeat split; try done. by apply append_nonempty.
  - destruct (config.Validate _) eqn:Hvalid; [done|].
    intros [= <-]. by simpl.
Qed.

(** X11. A configuration that [Load] returns is complete: the access key,
    the secret key, the endpoint and the mount path are not empty, each of
    the first three being what its file or else its environment variable
    gives.  The bucket name alone may be empty. *)
Theorem Load_complete (os : config.Os) (cfg : config.Config) :
  config.Load os = Ok cfg →
  config.AccessKeyID cfg ≠ "" ∧ config.SecretAccessKey cfg ≠ "" ∧
  config.Endpoint cfg ≠ "" ∧ config.MountPath cfg ≠ "" ∧
  config.AccessKeyID cfg = config.getConfigValue os "AWS_ACCESS_KEY_ID" ∧
  config.SecretAccessKey cfg
    = config.getConfigValue os "AWS_SECRET_ACCESS_KEY" ∧
  config.Endpoint cfg = config.getConfigValue os "AWS_ENDPOINT".
Proof.
  intros (Hvalid & Hid & Hsecret & Hendpoint & _ & Hmount)%Load_Ok_inv.
  unfold config.Validate in Hvalid.
  destruct (String.eqb_spec (config.AccessKeyID cfg) ""); [done|].
  destruct (String.eqb_spec (config.SecretAccessKey cfg) ""); [done|].
  destruct (String.eqb_spec (config.Endpoint cfg) ""); [done|].
  done.
Qed.

(** X12. A file of [/etc/config-nv] hides the environment variable of the
    same name even when it holds white space only: if the file of one of
    the three required values is blank, [Load] fails, whatever the
    environment holds. *)
Theorem blank_file_hides_env (os : config.Os) (key data : string) :
  key ∈ ["AWS_ACCESS_KEY_ID"; "AWS_SECRET_ACCESS_KEY"; "AWS_ENDPOINT"] →
  config.ReadFile os ("/etc/config-nv/" +:+ key) = Ok data →
  Forall (λ c, isSpace c = true) (list_ascii_of_string data) →
  config.getConfigValue os key = "" ∧ isOk (config.Load os) = false.
Proof.
  intros Hkey Hread Hblank.
  assert (config.getConfigValue os key = "") as Hvalue.
  { unfold config.getConfigValue.
    replace (config.configDir +:+ "/" +:+ key) with ("/etc/config-nv/" +:+ key)
      by done.
    rewrite Hread. by apply TrimSpace_blank. }
  split; [done|].
  destruct (config.Load os) as [cfg|] eqn:HLoad; [|done].
  apply Load_Ok_inv in HLoad as (Hvalid & Hid & Hsecret & Hendpoint & _).
  unfold config.Validate in Hvalid.
  rewrite Hid, Hsecret, Hendpoint in Hvalid.
  repeat (apply elem_of_cons in Hkey as [->|Hkey]);
    [| | |by apply elem_of_nil in Hkey];
    rewrite Hvalue in Hvalid; simpl in Hvalid; [done| |];
    repeat (destruct (String.eqb _ ""); try done).
Qed.

(** * Properties of [pkg/s3client] *)

Lemma TrimPrefix_app (prefix t : string) : TrimPrefix (prefix +:+ t) prefix = t.
Proof.
  unfold TrimPrefix.
  assert (HasPrefix (prefix +:+ t) prefix = true) as ->
    by (apply HasPrefix_spec; eauto).
  rewrite length_append.
  replace (String.length prefix + String.length t - String.length prefix)%nat
    with (String.length t) by lia.
  by rewrite substring_skip, substring_whole.
Qed.

Lemma TrimPrefix_none (s prefix : string) :
  HasPrefix s prefix = false → TrimPrefix s prefix = s.
Proof. intros Hs. unfold TrimPrefix. by rewrite Hs. Qed.

Lemma http_not_https (host : string) :
  HasPrefix ("http://" +:+ host) "https://" = false.
Proof.
  destruct (HasPrefix _ _) eqn:Hpre; [|done].
  apply HasPrefix_spec in Hpre as [t Ht].
  rewrite !append_cons in Ht. by injection Ht.
Qed.

(** X13. How [New] reads the endpoint.  With the scheme [https://] the
    MinIO client is made for the rest of the endpoint, from which a scheme
    [http://] is removed as well, and uses TLS; with the scheme [http://] it
    is made for the rest and does not use TLS; with neither it is made for
    the endpoint as it is, without TLS.  The region is always [hcm04]. *)
Theorem New_endpoint (w : s3client.World) (cfg : config.Config)
    (client : s3client.Client) :
  s3client.New w cfg = Ok client →
  s3client.cfg client = cfg ∧
  s3client.Region (s3client.minioClient client).2 = "hcm04" ∧
  (∀ host, config.Endpoint cfg = "https://" +:+ host →
     (s3client.minioClient client).1 = TrimPrefix host "http://" ∧
     s3client.Secure (s3client.minioClient client).2 = true) ∧
  (∀ host, config.Endpoint cfg = "http://" +:+ host →
     (s3client.minioClient client).1 = host ∧
     s3client.Secure (s3client.minioClient client).2 = false) ∧
  (HasPrefix (config.Endpoint cfg) "https://" = false →
   HasPrefix (config.Endpoint cfg) "http://" = false →
     (s3client.minioClient client).1 = config.Endpoint cfg ∧
     s3client.Secure (s3client.minioClient client).2 = false).
Proof.
  unfold s3client.New. destruct (s3client.minio_New w _ _); [done|].
  intros [= <-]. simpl. split; [done|]. split; [done|].
  split; [|split].
  - intros host ->. rewrite TrimPrefix_app. split; [done|].
    apply HasPrefix_spec. eauto.
  - intros host ->. rewrite (TrimPrefix_none _ "https://")
      by apply http_not_https.
    rewrite TrimPrefix_app. split; [done | apply http_not_https].
  - intros Hs Hp. by rewrite (TrimPrefix_none _ "https://"), TrimPrefix_none.
Qed.

Lemma collectObjects_spec (objectCh : list s3client.ObjectInfo)
    (objects : list S3Object) :
  match s3client.collectObjects objectCh objects with
  | Ok all =>
    Forall (λ object, s3client.oi_Err object = None) objectCh ∧
    all = objects ++ (listed <$> objectCh)
  | Err err =>
    ∃ before object after cause,
      objectCh = before ++ object :: after ∧
      Forall (λ object, s3client.oi_Err object = None) before ∧
      s3client.oi_Err object = Some cause ∧
      err = Wrapped "error listing objects" cause
  end.
Proof.
  revert objects. induction objectCh as [|object rest IH]; intros objects;
    simpl.
  { by rewrite app_nil_r. }
  destruct (s3client.oi_Err object) as [cause|] eqn:Herr.
  { by exists [], object, rest, cause. }
  specialize (IH (objects ++ [listed object])).
  fold (listed object).
  destruct (s3client.collectObjects rest _) as [all|err].
  - destruct IH as [Hrest ->]. split; [by constructor|].
    by rewrite <- (assoc_L (++)).
  - destruct IH as (before & object' & after & cause & -> & Hbefore & Hcause & ->).
    exists (object :: before), object', after, cause.
    repeat split; try done. by constructor.
Qed.

(** X14. [ListObjects] returns all of a listing or nothing.  When no item
    carries an error it returns one object for each item, in the order of
    the listing, with the key, the size and the modification time of the
    item and its ETag without the surrounding quotes; otherwise it returns
    the error of the first item that carries one, wrapped, and no object. *)
Theorem ListObjects_all_or_nothing (w : s3client.World)
    (client : s3client.Client) (prefix : string) (recursive : bool) :
  match s3client.ListObjects w client prefix recursive with
  | Ok objects =>
    Forall (λ object, s3client.oi_Err object = None)
      (s3client.minio_ListObjects w
         (config.BucketName (s3client.cfg client)) prefix recursive) ∧
    objects
      = listed <$> s3client.minio_ListObjects w
                     (config.BucketName (s3client.cfg client)) prefix recursive
  | Err err =>
    ∃ before object after cause,
      s3client.minio_ListObjects w
        (config.BucketName (s3client.cfg client)) prefix recursive
        = before ++ object :: after ∧
      Forall (λ object, s3client.oi_Err object = None) before ∧
      s3client.oi_Err object = Some cause ∧
      err = Wrapped "error listing objects" cause
  end.
Proof.
  unfold s3client.ListObjects.
  pose proof (collectObjects_spec
    (s3client.minio_ListObjects w (config.BucketName (s3client.cfg client))
       prefix recursive) []) as Hspec.
  destruct (s3client.collectObjects _ _) as [objects|err]; [|done].
  destruct Hspec as [Hall ->]. by split.
Qed.

Lemma TrimLeftFunc_head (f : ascii → bool) (s : string) (c : ascii)
    (rest : string) :
  TrimLeftFunc f s = String c rest → f c = false.
Proof.
  induction s as [|a s IH]; simpl; [done|].
  destruct (f a) eqn:Ha; [done|]. by intros [= <- _].
Qed.

Lemma TrimRightFunc_head (f : ascii → bool) (s : string) (c : ascii)
    (rest : string) :
  TrimRightFunc f s = String c rest → ∃ rest', s = String c rest'.
Proof.
  destruct s as [|a s]; simpl; [done|].
  destruct (_ && _); [done|]. intros [= <- _]. eauto.
Qed.

Lemma TrimRightFunc_last (f : ascii → bool) (s init : string) (c : ascii) :
  TrimRightFunc f s = init +:+ String c "" → f c = false.
Proof.
  revert init. induction s as [|a s IH]; intros init; simpl.
  { by destruct init. }
  destruct (String.eqb_spec (TrimRightFunc f s) "") as [Hempty|Hrest]; simpl.
  - destruct (f a) eqn:Ha; [by destruct init|].
    rewrite Hempty. destruct init as [|b init]; [by intros [= <-]|].
    rewrite append_cons. intros [= _ Hnil]. by destruct init.
  - destruct init as [|b init]; [by intros [= _ ?]|].
    rewrite append_cons. intros [= _ Heq]. by eapply IH.
Qed.

Lemma Trim_ends (s cutset : string) (c : ascii) :
  (∀ rest, Trim s cutset = String c rest → inCutset cutset c = false) ∧
  (∀ init, Trim s cutset = init +:+ String c "" → inCutset cutset c = false).
Proof.
  unfold Trim. split.
  - intros rest [rest' Hleft]%TrimRightFunc_head.
    by eapply TrimLeftFunc_head.
  - intros init. apply TrimRightFunc_last.
Qed.

(** X15. The objects that [ListObjects] returns have an ETag that neither
    starts nor ends with a double quote. *)
Theorem ETag_unquoted (w : s3client.World) (client : s3client.Client)
    (prefix : string) (recursive : bool) (objects : list S3Object)
    (obj : S3Object) :
  s3client.ListObjects w client prefix recursive = Ok objects →
  obj ∈ objects →
  HasPrefix (ETag obj) quote = false ∧ HasSuffix (ETag obj) quote = false.
Proof.
  intros Hlist Hobj. unfold s3client.ListObjects in Hlist.
  pose proof (collectObjects_spec
    (s3client.minio_ListObjects w (config.BucketName (s3client.cfg client))
       prefix recursive) []) as Hspec.
  rewrite Hlist in Hspec. destruct Hspec as [_ ->].
  apply list_elem_of_fmap in Hobj as (object & -> & _). simpl.
  destruct (Trim_ends (s3client.oi_ETag object) quote (ascii_of_nat 34))
    as [Hhead Hlast].
  split.
  - destruct (HasPrefix _ _) eqn:Hpre; [|done].
    apply HasPrefix_spec in Hpre as [rest Hrest]. by apply Hhead in Hrest.
  - destruct (HasSuffix _ _) eqn:Hsuf; [|done].
    apply HasSuffix_spec in Hsuf as [init Hinit]. by apply Hlast in Hinit.
Qed.

(** X16. What [DownloadFile] does, whatever its result: it adds its calls
    to those made before; what it opened it closes, in the reverse order,
    and nothing else; and it writes nothing (it does not create the local
    file, copy into it or set its time) unless [StatObject] and [GetObject]
    succeeded.  When it returns no error it has made all eight calls, the
    copy has written as many bytes as the size [StatObject] gave, and the
    time of the local file has been set to that of the object, successfully
    or not. *)
Theorem DownloadFile_calls (Dir : string → string) (w : s3client.World)
    (client : s3client.Client) (log : list s3client.Call)
    (key localPath : string) :
  ∃ new,
    (s3client.DownloadFile Dir w client log key localPath).2 = log ++ new ∧
    omap closedBy new = reverse (omap openedBy new) ∧
    ((∃ call, call ∈ new ∧ writes call = true) →
       s3client.CallStatObject key None ∈ new ∧
       s3client.CallGetObject key None ∈ new) ∧
    ((s3client.DownloadFile Dir w client log key localPath).1 = None →
       ∃ objInfo cherr,
         s3client.StatObject w
           (log ++ [s3client.CallMkdirAll (Dir localPath) None])
           (config.BucketName (s3client.cfg client)) key = Ok objInfo ∧
         new = [ s3client.CallMkdirAll (Dir localPath) None;
                 s3client.CallStatObject key None;
                 s3client.CallGetObject key None;
                 s3client.CallCreate localPath None;
                 s3client.CallCopy localPath key
                   (s3client.tenMB <? s3client.oi_Size objInfo)
                   (s3client.oi_Size objInfo) None;
                 s3client.CallChtimes localPath
                   (s3client.oi_LastModified objInfo) cherr;
                 s3client.CallCloseFile localPath;
                 s3client.CallCloseObject key ]).
Proof.
  assert (∀ new : list s3client.Call,
    (∀ call, call ∈ new → writes call = false) →
    (∃ call, call ∈ new ∧ writes call = true) →
    s3client.CallStatObject key None ∈ new ∧
    s3client.CallGetObject key None ∈ new) as Hnone.
  { intros new Hnew (call & Hin & Hcall). by rewrite (Hnew call Hin) in Hcall. }
  unfold s3client.DownloadFile.
  destruct (s3client.os_MkdirAll w log _) as [err|].
  { eexists. split; [done|]. split; [done|]. split; [|done].
    apply Hnone. by intros call ->%list_elem_of_singleton. }
  destruct (s3client.StatObject w _ _ key) as [objInfo|err] eqn:Hstat.
  2:{ eexists. split; [by rewrite <- (assoc_L (++))|]. split; [done|].
      split; [|done]. apply Hnone. intros call Hin.
      repeat (apply elem_of_cons in Hin as [->|Hin]); try done.
      by apply elem_of_nil in Hin. }
  destruct (s3client.GetObject w _ _ key) as [err|].
  { eexists. split; [by rewrite <- !(assoc_L (++))|]. split; [done|].
    split; [|done]. apply Hnone. intros call Hin.
    repeat (apply elem_of_cons in Hin as [->|Hin]); try done.
    by apply elem_of_nil in Hin. }
  destruct (s3client.os_Create w _ localPath) as [err|].
  { eexists. split; [by rewrite <- !(assoc_L (++))|]. split; [done|].
    split; [|done]. intros _. set_solver. }
  destruct (s3client.io_Copy w _ localPath key) as [written [err|]].
  { eexists. split; [by rewrite <- !(assoc_L (++))|]. split; [done|].
    split; [|done]. intros _. set_solver. }
  destruct (Z.eqb_spec written (s3client.oi_Size objInfo)) as [->|Hsize];
    simpl.
  - eexists. split; [by rewrite <- !(assoc_L (++))|]. split; [done|].
    split; [intros _; set_solver|]. intros _. by eexists _, _.
  - eexists. split; [by rewrite <- !(assoc_L (++))|]. split; [done|].
    split; [|done]. intros _. set_solver.
Qed.

(** X17. What [UploadFile] does, whatever its result: it adds its calls to
    those made before, it closes the local file exactly when it opened it,
    and it calls [PutObject] only after [os.Stat] and [os.Open] succeeded,
    with the size [os.Stat] gave, ten threads and parts of 16 MiB.  It
    returns no error exactly when the three calls succeed and [PutObject]
    reports the size of the file. *)
Theorem UploadFile_calls (w : s3client.World) (client : s3client.Client)
    (log : list s3client.Call) (localPath key : string) :
  ∃ new,
    (s3client.UploadFile w client log localPath key).2 = log ++ new ∧
    omap closedBy new = reverse (omap openedBy new) ∧
    (∀ call, call ∈ new → writes call = true →
       ∃ fileInfo err,
         s3client.os_Stat w log localPath = Ok fileInfo ∧
         s3client.CallOpen localPath None ∈ new ∧
         call = s3client.CallPutObject key (fi_Size fileInfo)
                  (s3client.tenMB <? fi_Size fileInfo)
                  {| s3client.ContentType := "application/octet-stream";
                     s3client.NumThreads := 10;
                     s3client.PartSize := 16777216;
                     s3client.SendContentMd5 := false |} err) ∧
    ((s3client.UploadFile w client log localPath key).1 = None ↔
       ∃ fileInfo,
         s3client.os_Stat w log localPath = Ok fileInfo ∧
         s3client.os_Open w (log ++ [s3client.CallStat localPath None])
           localPath = None ∧
         s3client.PutObject w
           (log ++ [s3client.CallStat localPath None;
                    s3client.CallOpen localPath None])
           (config.BucketName (s3client.cfg client)) key (fi_Size fileInfo)
           s3client.uploadOpts = Ok (fi_Size fileInfo)).
Proof.
  unfold s3client.UploadFile.
  destruct (s3client.os_Stat w log localPath) as [fileInfo|err].
  2:{ eexists. split; [done|]. split; [done|]. split.
      - by intros call ->%list_elem_of_singleton.
      - split; [done|]. by intros (? & ? & _). }
  destruct (s3client.os_Open w _ localPath) as [err|] eqn:Hopen.
  { eexists. split; [by rewrite <- !(assoc_L (++))|]. split; [done|]. split.
    - intros call Hin. repeat (apply elem_of_cons in Hin as [->|Hin]); try done.
      by apply elem_of_nil in Hin.
    - split; [done|]. intros (? & [= <-] & ? & _). congruence. }
  rewrite <- (assoc_L (++)). simpl.
  destruct (s3client.PutObject w _ _ key _ _) as [size|err] eqn:Hput.
  2:{ eexists. split; [by rewrite <- !(assoc_L (++))|]. split; [done|]. split.
      - intros call Hin.
        repeat (apply elem_of_cons in Hin as [->|Hin]); try done.
        + intros _. exists fileInfo, (Some err). set_solver.
        + by apply elem_of_nil in Hin.
      - split; [done|]. intros (? & [= <-] & _ & ?). congruence. }
  destruct (Z.eqb_spec size (fi_Size fileInfo)) as [->|Hsize]; simpl.
  - eexists. split; [by rewrite <- !(assoc_L (++))|]. split; [done|]. split.
    + intros call Hin.
      repeat (apply elem_of_cons in Hin as [->|Hin]); try done.
      * intros _. exists fileInfo, None. set_solver.
      * by apply elem_of_nil in Hin.
    + split; [|done]. intros _. by exists fileInfo.
  - eexists. split; [by rewrite <- !(assoc_L (++))|]. split; [done|]. split.
    + intros call Hin.
      repeat (apply elem_of_cons in Hin as [->|Hin]); try done.
      * intros _. exists fileInfo, None. set_solver.
      * by apply elem_of_nil in Hin.
    + split; [done|]. intros (? & [= <-] & _ & ?). congruence.
Qed.

(** ** The progress reader *)

Lemma wrap_int_idemp (x : Z) : wrap_int (wrap_int x) = wrap_int x.
Proof.
  pose proof (wrap_int_add x 0) as Hadd. by rewrite !Z.add_0_r in Hadd.
Qed.

Lemma Read_spec (pr : s3client.ProgressReader) (n : Z)
    (err : option s3client.ReadError) :
  s3client.current (s3client.Read pr n err).1
    = wrap_int (s3client.current pr + n) ∧
  s3client.total (s3client.Read pr n err).1 = s3client.total pr ∧
  wrap_int (s3client.current (s3client.Read pr n err).1
            - s3client.lastReported (s3client.Read pr n err).1)
    < s3client.tenMB ∧
  match (s3client.Read pr n err).2 with
  | Some line =>
    line = (s3client.current (s3client.Read pr n err).1, s3client.total pr)
  | None => err ≠ Some s3client.EOF
  end.
Proof.
  unfold s3client.Read, s3client.tenMB.
  destruct (Z.leb_spec (10 * 1024 * 1024)
              (wrap_int (wrap_int (s3client.current pr + n)
                         - s3client.lastReported pr))) as [Hge|Hlt]; simpl.
  - by rewrite Z.sub_diag, wrap_int_0.
  - destruct err as [[|cause]|]; simpl; by rewrite ?Z.sub_diag, ?wrap_int_0.
Qed.

Lemma ReadAll_spec (reads : list (Z * option s3client.ReadError))
    (pr : s3client.ProgressReader) :
  s3client.current pr = wrap_int (s3client.current pr) →
  wrap_int (s3client.current pr - s3client.lastReported pr)
    < s3client.tenMB →
  s3client.current (s3client.ReadAll pr reads).1
    = wrap_int (s3client.current pr + bytesRead reads) ∧
  wrap_int (s3client.current (s3client.ReadAll pr reads).1
            - s3client.lastReported (s3client.ReadAll pr reads).1)
    < s3client.tenMB ∧
  Forall (λ line, line.2 = s3client.total pr) (s3client.ReadAll pr reads).2 ∧
  ∀ init n, reads = init ++ [(n, Some s3client.EOF)] →
    last (s3client.ReadAll pr reads).2
    = Some (s3client.current (s3client.ReadAll pr reads).1,
            s3client.total pr).
Proof.
  revert pr. induction reads as [|[n err] reads IH]; intros pr Hrange Hpending.
  { simpl. rewrite Z.add_0_r. repeat split; try done.
    intros init n Hnil. by destruct init. }
  simpl.
  destruct (Read_spec pr n err) as (Hcurrent & Htotal & Hpending' & Hline).
  destruct (s3client.Read pr n err) as [pr' line]. simpl in *.
  destruct (IH pr') as (Hcurrent'' & Hpending'' & Hlines & Hlast);
    [by rewrite Hcurrent, wrap_int_idemp | done |].
  destruct (s3client.ReadAll pr' reads) as [pr'' lines] eqn:Hrest. simpl in *.
  split; [|split; [done|split]].
  - rewrite Hcurrent'', Hcurrent, wrap_int_add. f_equal. lia.
  - rewrite Htotal in Hlines. destruct line as [l|]; [|done].
    constructor; [by subst l | done].
  - intros init m Hreads. rewrite Htotal in Hlast.
    destruct init as [|read init].
    + injection Hreads as -> -> ->. injection Hrest as <- <-.
      destruct line as [l|]; [|done]. simpl. by subst l.
    + injection Hreads as _ Hreads.
      specialize (Hlast init m Hreads).
      destruct line as [l|]; [|done].
      destruct lines as [|l' lines]; [done|]. done.
Qed.

(** X18. The progress reader over the reads of one copy: its count is the
    sum of the byte counts read (as an [int64]), it never falls ten
    mebibytes or more behind what it has reported, every line it prints
    carries the total it was made with, and when the last read returns
    [io.EOF] the last line printed carries the count of all bytes read. *)
Theorem progress_reports (total : Z) (key : string)
    (reads : list (Z * option s3client.ReadError)) :
  s3client.current
    (s3client.ReadAll (s3client.NewProgressReader total key) reads).1
    = wrap_int (bytesRead reads) ∧
  wrap_int
    (s3client.current
       (s3client.ReadAll (s3client.NewProgressReader total key) reads).1
     - s3client.lastReported
         (s3client.ReadAll (s3client.NewProgressReader total key) reads).1)
    < 10 * 1024 * 1024 ∧
  Forall (λ line, line.2 = total)
    (s3client.ReadAll (s3client.NewProgressReader total key) reads).2 ∧
  (∀ init n, reads = init ++ [(n, Some s3client.EOF)] →
     last (s3client.ReadAll (s3client.NewProgressReader total key) reads).2
     = Some (wrap_int (bytesRead reads), total)).
Proof.
  destruct (ReadAll_spec reads (s3client.NewProgressReader total key))
    as (Hcurrent & Hpending & Hlines & Hlast); [done..|].
  simpl in *. split; [done|]. split; [done|]. split; [done|].
  intros init n Hreads. by rewrite (Hlast init n Hreads), Hcurrent.
Qed.

(** * Properties of the commands *)

Lemma New_cfg (w : s3client.World) (cfg : config.Config)
    (client : s3client.Client) :
  s3client.New w cfg = Ok client → s3client.cfg client = cfg.
Proof.
  unfold s3client.New. destruct (s3client.minio_New w _ _); [done|].
  by intros [= <-].
Qed.

Lemma callsOf_app (f : s3client.Call → bool) (calls new : list s3client.Call) :
  callsOf f (calls ++ new) = (callsOf f calls + callsOf f new)%nat.
Proof. unfold callsOf. by rewrite filter_app, length_app. Qed.

Lemma callsOf_one (f : s3client.Call → bool) (call : s3client.Call) :
  callsOf f [call] = if f call then 1%nat else 0%nat.
Proof.
  unfold callsOf. rewrite filter_cons, filter_nil.
  by destruct (f call); case_decide.
Qed.

Lemma rmStep_spec (w : s3client.World) (client : s3client.Client)
    (dryRun : bool) (st : cmd.RmState) (key : string) :
  rmTallied dryRun st →
  rmTallied dryRun (cmd.rmStep w client dryRun st key) ∧
  cmd.rm_announced (cmd.rmStep w client dryRun st key)
    = cmd.rm_announced st ++ [key].
Proof.
  intros (Hkeys & Hlen & Hdeleted & Hfailed & Hsum).
  unfold cmd.rmStep, s3client.DeleteObject, rmTallied.
  destruct dryRun; simpl; [done|].
  destruct (s3client.RemoveObject w _ _ key) as [err|]; simpl;
    rewrite omap_app, !length_app, !callsOf_app, Hkeys, Hlen, Hdeleted, Hfailed;
    rewrite !callsOf_one; simpl; rewrite ?int_incr_wrap, ?Nat.add_0_r;
    (repeat split; try done; try lia; f_equal; lia).
Qed.

Lemma rmSteps_spec (w : s3client.World) (client : s3client.Client)
    (dryRun : bool) (keys : list string) (st : cmd.RmState) :
  rmTallied dryRun st →
  rmTallied dryRun (foldl (cmd.rmStep w client dryRun) st keys) ∧
  cmd.rm_announced (foldl (cmd.rmStep w client dryRun) st keys)
    = cmd.rm_announced st ++ keys.
Proof.
  revert st. induction keys as [|key keys IH]; intros st Hst; simpl.
  { by rewrite app_nil_r. }
  destruct (rmStep_spec w client dryRun st key Hst) as [Hst' Hkeys].
  destruct (IH _ Hst') as [Hst'' Hkeys'']. split; [done|].
  by rewrite Hkeys'', Hkeys, <- (assoc_L (++)).
Qed.

Lemma rmStart_tallied (dryRun : bool) : rmTallied dryRun cmd.rmStart.
Proof. unfold rmTallied. simpl. by destruct dryRun. Qed.

(** X19. What [rm] does and counts.  In a dry run it calls nothing; in a
    live run it calls [RemoveObject] once for each key it announces, in
    that order, and nothing else.  [deleted] counts the calls that
    succeeded and [failed] those that failed, so every key is counted
    once; and when [rm] returns an error it has announced and removed
    nothing. *)
Theorem rm_accounting (os : config.Os) (w : s3client.World) (prefix : string)
    (dryRun recursive : bool) (args : list string) :
  rmTallied dryRun (cmd.rmRun os w prefix dryRun recursive args).2 ∧
  ((cmd.rmRun os w prefix dryRun recursive args).1 ≠ None →
   (cmd.rmRun os w prefix dryRun recursive args).2 = cmd.rmStart).
Proof.
  unfold cmd.rmRun.
  destruct (config.Load os) as [cfg|];
    [|by split; [apply rmStart_tallied|]].
  destruct (String.eqb _ ""); [by split; [apply rmStart_tallied|]|].
  destruct (s3client.New w cfg) as [client|];
    [|by split; [apply rmStart_tallied|]].
  destruct (cmd.rmKeys w client prefix recursive args) as [keys|];
    [|by split; [apply rmStart_tallied|]].
  destruct (length keys =? 0)%nat; simpl;
    [by split; [apply rmStart_tallied|]|].
  split; [|done].
  apply rmSteps_spec, rmStart_tallied.
Qed.

Lemma rmKeys_listed (objects : list S3Object) (keys : list string) :
  foldl (λ keysToDelete obj,
           if negb (HasSuffix (Key obj) "/")
           then keysToDelete ++ [Key obj] else keysToDelete)
        keys objects
  = keys ++ remoteKeys objects.
Proof.
  revert keys. induction objects as [|obj objects IH]; intros keys; simpl.
  { by rewrite app_nil_r. }
  rewrite IH, remoteKeys_cons.
  destruct (HasSuffix (Key obj) "/"); simpl; [done|].
  by rewrite <- (assoc_L (++)).
Qed.

(** X20. [rm --prefix]: with a prefix, the keys announced are the keys of
    the listing that do not end in a slash, in the order of the listing,
    whatever arguments were given; [rm] returns no error, also when
    removals fail; and when the listing fails nothing is removed. *)
Theorem rm_by_prefix (os : config.Os) (w : s3client.World) (prefix : string)
    (dryRun recursive : bool) (args : list string) (cfg : config.Config)
    (client : s3client.Client) :
  prefix ≠ "" →
  config.Load os = Ok cfg → config.BucketName cfg ≠ "" →
  s3client.New w cfg = Ok client →
  match s3client.ListObjects w client prefix recursive with
  | Ok objects =>
    (cmd.rmRun os w prefix dryRun recursive args).1 = None ∧
    cmd.rm_announced (cmd.rmRun os w prefix dryRun recursive args).2
      = remoteKeys objects
  | Err err =>
    cmd.rmRun os w prefix dryRun recursive args
      = (Some (Wrapped "failed to list objects" err), cmd.rmStart)
  end.
Proof.
  intros Hprefix HLoad Hbucket HNew. unfold cmd.rmRun, cmd.rmKeys.
  rewrite HLoad, HNew.
  destruct (String.eqb_spec (config.BucketName cfg) ""); [done|].
  destruct (String.eqb_spec prefix ""); [done|]. simpl.
  destruct (s3client.ListObjects w client prefix recursive) as [objects|err];
    [|done].
  rewrite rmKeys_listed. simpl.
  destruct (length (remoteKeys objects) =? 0)%nat eqn:Hnone; simpl.
  - split; [done|]. apply Nat.eqb_eq in Hnone.
    by destruct (remoteKeys objects).
  - split; [done|].
    by destruct (rmSteps_spec w client dryRun (remoteKeys objects) cmd.rmStart
                   (rmStart_tallied dryRun)) as [_ ->].
Qed.

Lemma ListBuckets_spec (w : s3client.World) (client : s3client.Client) :
  s3client.ListBuckets w client
  = match s3client.minio_ListBuckets w with
    | Ok buckets => Ok buckets
    | Err err => Err (Wrapped "failed to list buckets" err)
    end.
Proof.
  unfold s3client.ListBuckets.
  destruct (s3client.minio_ListBuckets w) as [buckets|]; [|done].
  f_equal. induction buckets as [|[name created] buckets IH]; [done|].
  simpl. by rewrite IH.
Qed.

(** X21. [ls] needs no bucket name: when the configuration names none, it
    makes the client first and then prints the buckets that MinIO lists, as
    they are and in that order, without listing any object; an error of
    that listing comes back wrapped twice as a failure to list buckets. *)
Theorem ls_without_bucket (os : config.Os) (w : s3client.World)
    (prefix : string) (recursive : bool) (cfg : config.Config) :
  config.Load os = Ok cfg → config.BucketName cfg = "" →
  cmd.lsRun os w prefix recursive
  = match s3client.New w cfg with
    | Err err => (Some (Wrapped "failed to create S3 client" err), None)
    | Ok _ =>
      match s3client.minio_ListBuckets w with
      | Ok buckets => (None, Some (cmd.LsBuckets buckets))
      | Err err =>
        (Some (Wrapped "failed to list buckets"
                 (Wrapped "failed to list buckets" err)), None)
      end
    end.
Proof.
  intros HLoad Hbucket. unfold cmd.lsRun. rewrite HLoad, Hbucket.
  destruct (s3client.New w cfg) as [client|]; [|done]. simpl.
  rewrite ListBuckets_spec.
  by destruct (s3client.minio_ListBuckets w).
Qed.

(** X22. [ls] of a bucket shows the whole listing or nothing: when an item
    of the listing carries an error it prints nothing and returns that
    error, wrapped; otherwise it prints one row for each item, directory
    markers included, in the order of the listing, and the number of items
    as the total.  An item is shown as a directory exactly when its size is
    zero, its time is the zero time and its ETag holds nothing but double
    quotes. *)
Theorem ls_listing (os : config.Os) (w : s3client.World) (prefix : string)
    (recursive : bool) (cfg : config.Config) (client : s3client.Client) :
  config.Load os = Ok cfg → config.BucketName cfg ≠ "" →
  s3client.New w cfg = Ok client →
  s3client.minio_ListObjects w (config.BucketName cfg) prefix recursive ≠ [] →
  match cmd.lsRun os w prefix recursive with
  | (None, Some (cmd.LsListing bucket _ rows total)) =>
    bucket = config.BucketName cfg ∧
    rows = (cmd.lsRow ∘ listed)
             <$> s3client.minio_ListObjects w (config.BucketName cfg) prefix
                   recursive ∧
    total = length (s3client.minio_ListObjects w (config.BucketName cfg)
                      prefix recursive) ∧
    Forall (λ object, s3client.oi_Err object = None)
      (s3client.minio_ListObjects w (config.BucketName cfg) prefix recursive) ∧
    ∀ object,
      (∃ key, cmd.lsRow (listed object) = cmd.RowDir key)
      ↔ s3client.oi_Size object = 0 ∧
        s3client.oi_LastModified object = zeroTime ∧
        Trim (s3client.oi_ETag object) quote = ""
  | (Some err, None) =>
    ∃ before object after cause,
      s3client.minio_ListObjects w (config.BucketName cfg) prefix recursive
        = before ++ object :: after ∧
      Forall (λ object, s3client.oi_Err object = None) before ∧
      s3client.oi_Err object = Some cause ∧
      err = Wrapped "failed to list objects"
              (Wrapped "error listing objects" cause)
  | _ => False
  end.
Proof.
  intros HLoad Hbucket HNew Hitems. unfold cmd.lsRun. rewrite HLoad, HNew.
  destruct (String.eqb_spec (config.BucketName cfg) ""); [done|].
  pose proof (New_cfg w cfg client HNew) as Hcfg.
  unfold s3client.ListObjects. rewrite Hcfg.
  pose proof (collectObjects_spec
    (s3client.minio_ListObjects w (config.BucketName cfg) prefix recursive) [])
    as Hspec.
  destruct (s3client.collectObjects _ _) as [objects|err].
  - destruct Hspec as [Hall ->]. simpl. rewrite length_fmap.
    destruct (s3client.minio_ListObjects w _ prefix recursive) as [|item items];
      [done|].
    simpl. split; [done|]. split; [by rewrite <- list_fmap_compose|].
    split; [done|]. split; [done|].
    intros object. unfold cmd.lsRow, cmd.IsZero. simpl.
    destruct (Z.eqb_spec (s3client.oi_Size object) 0);
      destruct (String.eqb_spec (Trim (s3client.oi_ETag object) quote) "");
      destruct (Z.eqb_spec (s3client.oi_LastModified object) zeroTime);
      simpl; split; try (by intros [key [=]]); try (by intros (? & ? & ?));
      eauto.
  - destruct Hspec as (before & object & after & cause & Heq & Hbefore & Herr & ->).
    by exists before, object, after, cause.
Qed.

Section Commands.
Context `{Filepath}.

Lemma summary_Failed (transferred : string) (n skipped : Z)
    (withDeleted : bool) (deleted failed m : Z) :
  transferred ≠ "Failed" →
  ("Failed", m) ∈ cmd.summary transferred n skipped withDeleted deleted failed
  ↔ 0 < failed ∧ m = failed.
Proof.
  intros Hname. unfold cmd.summary.
  rewrite !elem_of_app, !elem_of_cons, elem_of_nil.
  destruct withDeleted, (Z.ltb_spec 0 failed);
    rewrite ?elem_of_cons, ?elem_of_nil; naive_solver lia.
Qed.

(** X23. [push] returns no error exactly when the configuration loads, the
    bucket is named, the client is made and the push gets its two
    snapshots; failed uploads and deletions do not change that.  The
    summary then has a line [Failed] exactly when the count of failed
    calls, as an [int], is positive. *)
Theorem push_exit_status (os : config.Os) (w : s3client.World)
    (env : s3client.Client → Env) (prefix : string)
    (dryRun deleteRemote : bool) (exclude : list string) :
  ((cmd.pushRun os w env prefix dryRun deleteRemote exclude).1.1 = None ↔
   ∃ cfg client,
     config.Load os = Ok cfg ∧ config.BucketName cfg ≠ "" ∧
     s3client.New w cfg = Ok client ∧
     pushEnumerates (env client)
       {| Prefix := prefix; DryRun := dryRun; Delete := deleteRemote;
          ExcludeGlobs := exclude; MountPath := config.MountPath cfg |}) ∧
  ((cmd.pushRun os w env prefix dryRun deleteRemote exclude).1.1 = None →
   ∀ n, ("Failed", n)
          ∈ (cmd.pushRun os w env prefix dryRun deleteRemote exclude).2
        ↔ 0 < n ∧
          n = wrap_int (Z.of_nat (failures
                (cmd.pushRun os w env prefix dryRun deleteRemote exclude).1.2))).
Proof.
  unfold cmd.pushRun.
  destruct (config.Load os) as [cfg|err].
  2:{ simpl. split; [|done]. split; [done|]. by intros (? & ? & ? & _). }
  destruct (String.eqb_spec (config.BucketName cfg) "") as [Hbucket|Hbucket].
  { simpl. split; [|done]. split; [done|].
    by intros (? & ? & [= <-] & ? & _). }
  destruct (s3client.New w cfg) as [client|err] eqn:HNew.
  2:{ simpl. split; [|done]. split; [done|].
      intros (? & ? & [= <-] & _ & ? & _). congruence. }
  pose proof (Push_isOk (env client)
    {| Prefix := prefix; DryRun := dryRun; Delete := deleteRemote;
       ExcludeGlobs := exclude; MountPath := config.MountPath cfg |}) as Hok.
  pose proof (Push_counts_failures (env client)
    {| Prefix := prefix; DryRun := dryRun; Delete := deleteRemote;
       ExcludeGlobs := exclude; MountPath := config.MountPath cfg |}) as Hfailed.
  destruct (Push _ _) as [[stats|err] log]; simpl in *.
  - split.
    + split; [|done]. intros _. exists cfg, client.
      repeat split; try done; by apply Hok.
    + intros _ n. rewrite <- (Hfailed stats log eq_refl).
      rewrite summary_Failed by done. naive_solver.
  - split; [|done]. split; [done|].
    intros (cfg' & client' & [= <-] & _ & HNew' & Henum).
    rewrite HNew in HNew'. injection HNew' as <-.
    by apply Hok in Henum.
Qed.


End Commands.

(** * Trees that are in sync *)

Section InSync.
Context `{Filepath}.

Lemma pushWalkFn_in_sync (env : Env) (opts : PushOptions)
    (remoteFiles : gmap string S3Object) (st : PushState) (e : WalkEntry) :
  (∀ k, localKey (MountPath opts) e = Some k →
     shouldExclude k (ExcludeGlobs opts) = false →
     ∃ obj, remoteFiles !! k = Some obj ∧ Key obj ≠ "" ∧
       Size obj = fi_Size (we_info e) ∧
       fi_ModTime (we_info e) - LastModified obj ≤ 1000 * Millisecond) →
  noUpload st → noUpload (pushWalkFn env opts remoteFiles st e).1.
Proof.
  intros Hsync Hst. unfold pushWalkFn, localKey in *.
  destruct (we_err e); [done|].
  destruct (fi_IsDir (we_info e)); [done|].
  destruct (Rel (MountPath opts) (we_path e)) as [relPath|]; [|done].
  destruct (shouldExclude _ _) eqn:Hexcluded; [done|].
  destruct (Hsync _ eq_refl Hexcluded) as (obj & -> & Hkey & Hsize & Htime).
  simpl. rewrite needsUpload_selected by done.
  destruct (Time_After _ _) eqn:Hafter; [apply Time_After_Add in Hafter; lia|].
  destruct Hst as (Ht & Hc & Hu).
  unfold noUpload, toTransfer, transferCalls in *.
  destruct (DryRun opts); simpl; by rewrite !omap_app, Ht, Hc.
Qed.

Lemma pushWalk_in_sync (env : Env) (opts : PushOptions)
    (remoteFiles : gmap string S3Object) (entries : list WalkEntry)
    (st : PushState) :
  (∀ e k, e ∈ entries → localKey (MountPath opts) e = Some k →
     shouldExclude k (ExcludeGlobs opts) = false →
     ∃ obj, remoteFiles !! k = Some obj ∧ Key obj ≠ "" ∧
       Size obj = fi_Size (we_info e) ∧
       fi_ModTime (we_info e) - LastModified obj ≤ 1000 * Millisecond) →
  noUpload st →
  noUpload (filepath_Walk (pushWalkFn env opts remoteFiles) st entries).1.
Proof.
  revert st. induction entries as [|e rest IH]; intros st Hsync Hst; simpl;
    [done|].
  pose proof (pushWalkFn_in_sync env opts remoteFiles st e
    (λ k, Hsync e k (list_elem_of_here e rest)) Hst) as Hst'.
  destruct (pushWalkFn env opts remoteFiles st e) as [st' [err|]]; [done|].
  apply IH; [|done]. intros e' k Hin. apply Hsync. by right.
Qed.

Lemma pushDeletions_no_upload (env : Env) (opts : PushOptions)
    (remoteFiles : gmap string S3Object) (st : PushState) :
  noUpload st →
  toTransfer (pushDeletions env opts remoteFiles st).2 = [] ∧
  transferCalls (pushDeletions env opts remoteFiles st).2 = [] ∧
  ∀ stats, (pushDeletions env opts remoteFiles st).1 = Ok stats →
    Uploaded stats = 0.
Proof.
  intros Hst. unfold pushDeletions.
  assert (noUpload (if Delete opts
                    then foldl (pushDeleteStep env opts) st
                           (rangeKeys env remoteFiles)
                    else st)) as (Ht & Hc & Hu).
  { destruct (Delete opts); [|done].
    apply foldl_invariant; [|done]. intros st1 key (Ht & Hc & Hu).
    destruct (pushDeleteStep_shape env opts st1 key)
      as [->|(new & stats' & -> & _ & Hcase)]; [done|].
    unfold noUpload, toTransfer, transferCalls in *. simpl.
    rewrite !omap_app, Ht, Hc.
    by destruct Hcase as [(-> & _ & ->)|[(err & -> & _ & ->)|(-> & _ & ->)]]. }
  simpl. split; [done|]. split; [done|]. by intros stats [= <-].
Qed.

(** X25. A push over a tree that is in sync uploads nothing.  If every
    walked file that no rule excludes has a non-empty key under which the
    remote snapshot holds an object of the same size, the file being at
    most one second newer than the object, then no file is marked for
    upload, [UploadFile] is never called and [Uploaded] is zero. *)
Theorem push_in_sync (env : Env) (opts : PushOptions) :
  (∀ e k, e ∈ pushSource env opts →
     localKey (MountPath opts) e = Some k →
     shouldExclude k (ExcludeGlobs opts) = false →
     k ≠ "" ∧
     ∃ obj, pushTarget env opts !! k = Some obj ∧
       Size obj = fi_Size (we_info e) ∧
       fi_ModTime (we_info e) - LastModified obj ≤ 1000 * Millisecond) →
  toTransfer (Push env opts).2 = [] ∧
  transferCalls (Push env opts).2 = [] ∧
  ∀ stats, (Push env opts).1 = Ok stats → Uploaded stats = 0.
Proof.
  unfold Push, pushSource, pushTarget, pushRoot.
  destruct (ListObjects env (Prefix opts) true) as [objects|]; [|done].
  intros Hsync.
  assert (noUpload {| ps_stats := zeroPushStats; ps_localFiles := ∅;
                      ps_log := [] |}) as Hstart by done.
  destruct (Stat env [] _) as [info|err].
  - pose proof (pushWalk_in_sync env opts (buildRemoteFiles objects)
      (Walk env [] (Join (MountPath opts) (Prefix opts)))
      {| ps_stats := zeroPushStats; ps_localFiles := ∅; ps_log := [] |})
      as Hwalk.
    destruct (filepath_Walk _ _ _) as [st [werr|]]; simpl in Hwalk.
    + destruct Hwalk as (Ht & Hc & _); [|done|done].
      intros e k Hin Hkey Hexcluded.
      destruct (Hsync e k Hin Hkey Hexcluded) as (Hk & obj & Hobj & Hrest).
      exists obj. split; [done|]. split; [|done].
      by destruct (proj2 (buildRemoteFiles_lookup objects k) obj Hobj) as [-> _].
    + apply pushDeletions_no_upload, Hwalk; [|done].
      intros e k Hin Hkey Hexcluded.
      destruct (Hsync e k Hin Hkey Hexcluded) as (Hk & obj & Hobj & Hrest).
      exists obj. split; [done|]. split; [|done].
      by destruct (proj2 (buildRemoteFiles_lookup objects k) obj Hobj) as [-> _].
  - destruct (IsNotExist (Some err)); [|done].
    destruct (Delete opts); simpl;
      [|by split; [|split; [|intros ? [= <-]]]].
    by apply pushDeletions_no_upload.
Qed.

Lemma pullStep_in_sync (env : Env) (opts : PullOptions)
    (st : PullState) (obj : S3Object) :
  (HasSuffix (Key obj) "/" = false →
   ∃ info, Stat env (pl_log st) (Join (pl_MountPath opts) (Key obj)) = Ok info ∧
     fi_Size info = Size obj ∧
     LastModified obj - fi_ModTime info ≤ 1000 * Millisecond) →
  noDownload st → noDownload (pullStep env opts st obj).
Proof.
  intros Hsync (Ht & Hc & Hd). unfold pullStep.
  destruct (HasSuffix (Key obj) "/"); [done|].
  destruct (Hsync eq_refl) as (info & Hstat & Hsize & Htime).
  simpl. rewrite (needsDownload_selected env _ obj _ info Hstat Hsize).
  destruct (Time_After _ _) eqn:Hafter; [apply Time_After_Add in Hafter; lia|].
  unfold noDownload, toTransfer, transferCalls in *.
  destruct (pl_DryRun opts); simpl; by rewrite !omap_app, Ht, Hc.
Qed.

Lemma pullDeletions_no_download (env : Env) (opts : PullOptions)
    (objects : list S3Object) (st : PullState) :
  noDownload st →
  toTransfer (pullDeletions env opts objects st).2 = [] ∧
  transferCalls (pullDeletions env opts objects st).2 = [] ∧
  ∀ stats, (pullDeletions env opts objects st).1 = Ok stats →
    Downloaded stats = 0.
Proof.
  intros Hst. unfold pullDeletions.
  destruct (pl_Delete opts).
  2:{ destruct Hst as (Ht & Hc & Hd). simpl. by split; [|split; [|intros ? [= <-]]]. }
  pose proof (filepath_Walk_invariant
    (pullWalkFn env opts (buildRemoteKeys objects)) noDownload) as Hwalk.
  specialize (Hwalk).
  assert (∀ st1 e, noDownload st1 →
            noDownload (pullWalkFn env opts (buildRemoteKeys objects) st1 e).1)
    as Hstep.
  { intros st1 e (Ht & Hc & Hd).
    destruct (pullWalkFn_shape env opts (buildRemoteKeys objects) st1 e)
      as [->|(rel & new & stats' & -> & _ & Hcase)]; [done|].
    unfold noDownload, toTransfer, transferCalls in *. simpl.
    rewrite !omap_app, Ht, Hc.
    by destruct Hcase as [(-> & _ & ->)|[(err & -> & _ & ->)|(-> & _ & ->)]]. }
  specialize (Hwalk Hstep
    (Walk env (pl_log st) (Join (pl_MountPath opts) (pl_Prefix opts))) st Hst).
  destruct (filepath_Walk _ _ _) as [st' [werr|]]; simpl in Hwalk;
    destruct Hwalk as (Ht & Hc & Hd);
    [destruct (IsNotExist (Some werr))|]; simpl;
    by split; [|split; [|intros ? [= <-]]].
Qed.

(** X26. A pull over a tree that is in sync downloads nothing.  If, however
    far the run has got, every listed object that is not a directory marker
    has a local file of the same size, the object being at most one second
    newer than the file, then no object is marked for download,
    [DownloadFile] is never called and [Downloaded] is zero. *)
Theorem pull_in_sync (env : Env) (opts : PullOptions) :
  (∀ objects obj log,
     ListObjects env (pl_Prefix opts) true = Ok objects → obj ∈ objects →
     HasSuffix (Key obj) "/" = false →
     ∃ info,
       Stat env log (Join (pl_MountPath opts) (Key obj)) = Ok info ∧
       fi_Size info = Size obj ∧
       LastModified obj - fi_ModTime info ≤ 1000 * Millisecond) →
  toTransfer (Pull env opts).2 = [] ∧
  transferCalls (Pull env opts).2 = [] ∧
  ∀ stats, (Pull env opts).1 = Ok stats → Downloaded stats = 0.
Proof.
  intros Hsync. unfold Pull.
  destruct (ListObjects env (pl_Prefix opts) true) as [objects|]; [|done].
  specialize (Hsync objects).
  assert (∀ st, noDownload st →
    toTransfer (pullFrom env opts objects st).2 = [] ∧
    transferCalls (pullFrom env opts objects st).2 = [] ∧
    ∀ stats, (pullFrom env opts objects st).1 = Ok stats →
      Downloaded stats = 0) as Hfrom.
  { intros st Hst. unfold pullFrom. apply pullDeletions_no_download.
    assert (∀ past todo st1, objects = past ++ todo → noDownload st1 →
              noDownload (foldl (pullStep env opts) st1 todo)) as Hloop.
    { intros past todo. revert past.
      induction todo as [|obj todo IH]; intros past st1 Hobjects Hst1; simpl;
        [done|].
      apply (IH (past ++ [obj])); [by rewrite <- (assoc_L (++))|].
      apply pullStep_in_sync; [|done]. intros Hfile.
      apply Hsync; [done| |done]. rewrite Hobjects. set_solver. }
    by apply (Hloop [] objects). }
  destruct (pl_DryRun opts); simpl; [by apply Hfrom|].
  destruct (MkdirAll env [] (pl_MountPath opts)); [done|]. by apply Hfrom.
Qed.

End InSync.
(** * The properties on the example world *)

#[local] Existing Instance Unix.paths.

(** The runs themselves. *)

Example push_live_run :
  Push Example.env (Example.pushOpts false true ["*.tmp"]) =
    (Ok {| Uploaded := 2; Skipped := 1; Deleted := 2; Failed := 1 |},
     [Seen "a.txt"; UpToDate "a.txt";
      Seen "b.txt"; Uploading "b.txt" "size differs";
      CallUploadFile "/ws/b.txt" "b.txt" (Some (ErrOther "access denied"));
      Seen "c.txt"; Uploading "c.txt" "new file";
      CallUploadFile "/ws/c.txt" "c.txt" None;
      Seen "d.txt"; Uploading "d.txt" "local is newer";
      CallUploadFile "/ws/d.txt" "d.txt" None;
      DeletingRemote "old.txt"; CallDeleteObject "old.txt" None;
      DeletingRemote "cache.tmp"; CallDeleteObject "cache.tmp" None]).
Proof. vm_compute. reflexivity. Qed.

Example push_dry_run :
  Push Example.env (Example.pushOpts true true ["*.tmp"]) =
    (Ok zeroPushStats,
     [Seen "a.txt"; UpToDate "a.txt";
      Seen "b.txt"; Uploading "b.txt" "size differs";
      Seen "c.txt"; Uploading "c.txt" "new file";
      Seen "d.txt"; Uploading "d.txt" "local is newer";
      DeletingRemote "old.txt"; DeletingRemote "cache.tmp"]).
Proof. vm_compute. reflexivity. Qed.

Example pull_live_run :
  Pull Example.env (Example.pullOpts false true) =
    (Ok {| Downloaded := 1; pl_Skipped := 3; pl_Deleted := 1; pl_Failed := 1 |},
     [CallMkdirAll "/ws" None;
      UpToDate "a.txt";
      Downloading "b.txt" "size differs";
      CallDownloadFile "b.txt" "/ws/b.txt" None;
      UpToDate "cache.tmp"; UpToDate "d.txt";
      Downloading "old.txt" "new file";
      CallDownloadFile "old.txt" "/ws/old.txt" (Some (ErrOther "size mismatch"));
      DeletingLocal "c.txt"; CallRemove "/ws/c.txt" None]).
Proof. vm_compute. reflexivity. Qed.

Example pull_dry_run :
  Pull Example.env (Example.pullOpts true true) =
    (Ok zeroPullStats,
     [UpToDate "a.txt"; Downloading "b.txt" "size differs";
      UpToDate "cache.tmp"; UpToDate "d.txt";
      Downloading "old.txt" "new file"; DeletingLocal "c.txt"]).
Proof. vm_compute. reflexivity. Qed.

(** [filepath.Match] on Unix: [*] and [?] stop at a separator, and a
    malformed pattern is an error. *)
Example Match_examples :
  Match "*.tmp" "cache.tmp" = (true, None) ∧
  Match "*.tmp" "build/cache.tmp" = (false, None) ∧
  Match "a?c" "abc" = (true, None) ∧
  Match "a?c" "a/c" = (false, None) ∧
  Match ".git/*" ".git/config" = (true, None) ∧
  Match ".git/*" ".git/hooks/pre-commit" = (false, None) ∧
  Match "ab[b-d]" "abc" = (true, None) ∧
  Match "[" "[" = (false, Some ErrBadPattern) ∧
  Match "a[" "x" = (false, Some ErrBadPattern).
Proof. vm_compute. repeat split. Qed.

(** A directory rule reaches below the directory, where the glob does not;
    a malformed rule still excludes the path equal to it. *)
Example shouldExclude_examples :
  shouldExclude ".git/hooks/pre-commit" ["*.tmp"; ".git/*"] = true ∧
  shouldExclude "build/cache.tmp" ["*.tmp"; ".git/*"] = false ∧
  shouldExclude "notes.txt" ["["; "notes.txt"] = true ∧
  shouldExclude "[" ["["] = true.
Proof. vm_compute. repeat split. Qed.

(** C4 as stated fails on the path ["["] and the single rule ["["]: the
    glob of the rule is malformed, and the rule still excludes the path,
    which is equal to it. *)
Lemma shouldExclude_counterexample :
  Match "[" "[" = (false, Some ErrBadPattern) ∧
  shouldExclude "[" ["["] = true ∧
  shouldExclude "[" [] = false.
Proof. vm_compute. repeat split. Qed.

(** C8 as stated fails when the bucket cannot be listed: the local root does
    not exist, no delete pass is asked for, and the push returns an error. *)
Lemma push_missing_root_counterexample :
  let opts := Example.pushOpts false false [] in
  Stat Example.envNoListing [] (pushRoot opts) = Err ErrNotExist ∧
  Delete opts = false ∧
  Push Example.envNoListing opts =
    (Err (Wrapped "failed to list remote objects"
            (ErrOther "connection refused")), []) ∧
  (Push Example.envNoListing opts).1 ≠ Ok zeroPushStats.
Proof. vm_compute. repeat split. discriminate. Qed.

(** Witness of C2: [d.txt], 1001ms newer on the local side. *)
Lemma tolerance_boundary_witness :
  let info := Example.file 7 (Example.sec 1000 + 1001 * Millisecond) in
  let obj := Example.object "d.txt" 7 (Example.sec 1000) in
  (needsUpload "/ws/d.txt" info obj).1 = true ∧
  (needsDownload Example.env [] obj "/ws/d.txt").1 = false.
Proof.
  intros info obj.
  destruct (tolerance_boundary Example.env [] "/ws/d.txt" "/ws/d.txt" info obj)
    as (_ & Hdown & _ & Hup & _); [done | reflexivity | reflexivity |].
  split.
  - apply Hup. reflexivity.
  - apply not_true_is_false. intros Hsel.
    apply Hdown in Hsel. vm_compute in Hsel. discriminate Hsel.
Defined.

(** C7 as stated fails on [d.txt]: the local file is 1001ms newer than the
    remote object of the same size, and the reason of the transfer is "local
    is newer", not "source is newer". *)
Lemma newer_reason_counterexample :
  let info := Example.file 7 (Example.sec 1000 + 1001 * Millisecond) in
  let obj := Example.object "d.txt" 7 (Example.sec 1000) in
  Key obj ≠ "" ∧ fi_Size info = Size obj ∧
  fi_ModTime info - LastModified obj > 1000 * Millisecond ∧
  needsUpload "/ws/d.txt" info obj = (true, "local is newer") ∧
  (needsUpload "/ws/d.txt" info obj).2 ≠ "source is newer".
Proof. repeat split; done. Qed.

(** Witness of C7 as amended. *)
Lemma newer_reason_witness :
  needsUpload "/ws/d.txt"
    (Example.file 7 (Example.sec 1000 + 1001 * Millisecond))
    (Example.object "d.txt" 7 (Example.sec 1000)) = (true, "local is newer") ∧
  needsDownload Example.env []
    (Example.object "a.txt" 10 (Example.sec 1002)) "/ws/a.txt"
    = (true, "remote is newer").
Proof.
  destruct newer_reason as (Hup & Hdown & _). split.
  - apply Hup; [done | reflexivity | reflexivity].
  - apply (Hdown Example.env [] _ _ (Example.file 10 (Example.sec 1000)));
      reflexivity.
Defined.

(** Witness of C1: a push of the example with no rule and no delete pass. *)
Lemma push_partition_witness :
  let log := (Push Example.env (Example.pushOpts false false [])).2 in
  (toTransfer log).*1 ++ toSkip log
    ≡ₚ ["a.txt"; "b.txt"; "c.txt"; "cache.tmp"; "d.txt"] ∧
  (∀ k, ¬ (k ∈ (toTransfer log).*1 ∧ k ∈ toSkip log)) ∧
  ("c.txt", "new file") ∈ toTransfer log.
Proof.
  intros log.
  destruct (push_partition Example.env (Example.pushOpts false false [])
              (Example.pushStatsOf
                 (Push Example.env (Example.pushOpts false false [])))
              log)
    as (Hperm & Hdisjoint & Hnew & _);
    [reflexivity | reflexivity | vm_compute; reflexivity | compute_done |].
  split; [exact Hperm|]. split; [exact Hdisjoint|].
  apply Hnew; compute_done.
Defined.

(** Witness of C3: [cache.tmp] is excluded on the local side and deleted on
    the remote side. *)
Lemma push_delete_sweep_witness :
  let log := (Push Example.env (Example.pushOpts false true ["*.tmp"])).2 in
  toDelete log = ["old.txt"; "cache.tmp"] ∧
  deleteCalls log = toDelete log ∧
  (∀ key, key ∈ toDelete log
          ↔ key ∈ remoteKeys Example.remote
            ∧ key ∉ consideredKeys (Example.pushOpts false true ["*.tmp"])
                      Example.tree).
Proof.
  intros log.
  destruct (push_delete_sweep Example.env
              (Example.pushOpts false true ["*.tmp"]) Example.remote
              (Example.pushStatsOf
                 (Push Example.env (Example.pushOpts false true ["*.tmp"])))
              log)
    as (Hiff & _ & _ & Hcalls);
    [reflexivity | reflexivity | vm_compute; reflexivity |].
  split; [compute_done|]. split; [exact Hcalls | exact Hiff].
Defined.

(** Witness of C5: a live push and a live pull of the example, each with one
    failing transfer. *)
Lemma item_failures_do_not_abort_witness :
  let opts := Example.pushOpts false true ["*.tmp"] in
  let popts := Example.pullOpts false true in
  pushEnumerates Example.env opts ∧
  pullEnumerates Example.env popts ∧
  (∃ stats log, Push Example.env opts = (Ok stats, log) ∧
     decided log = ["a.txt"; "b.txt"; "c.txt"; "d.txt"] ∧
     transferCalls log = (toTransfer log).*1 ∧
     deleteCalls log = toDelete log ∧
     Failed stats = wrap_int (Z.of_nat (failures log))) ∧
  (∃ objects stats log,
     ListObjects Example.env (pl_Prefix popts) true = Ok objects ∧
     Pull Example.env popts = (Ok stats, log) ∧
     decided log = remoteKeys objects ∧
     transferCalls log = (toTransfer log).*1 ∧
     length (removeCalls log) = length (toDelete log) ∧
     pl_Failed stats = wrap_int (Z.of_nat (failures log))).
Proof.
  intros opts popts.
  assert (pushEnumerates Example.env opts) as Hpush
    by (split; vm_compute; reflexivity).
  assert (pullEnumerates Example.env popts) as Hpull
    by (split; [|split]; [reflexivity | reflexivity | intros _ log; exact I]).
  destruct (item_failures_do_not_abort Example.env opts popts)
    as [Hpushed Hpulled]; [reflexivity | reflexivity |].
  split; [exact Hpush|]. split; [exact Hpull|].
  split; [exact (Hpushed Hpush) | exact (Hpulled Hpull)].
Defined.

(** Witness of C6: dry runs of the example, which plan transfers and
    deletions. *)
Lemma dry_run_no_mutation_witness :
  let opts := Example.pushOpts true true ["*.tmp"] in
  let popts := Example.pullOpts true true in
  (Forall (λ ev, mutating ev = false) (Push Example.env opts).2 ∧
   ∀ stats, (Push Example.env opts).1 = Ok stats →
            Uploaded stats = 0 ∧ Deleted stats = 0) ∧
  (Forall (λ ev, mutating ev = false) (Pull Example.env popts).2 ∧
   ∀ stats, (Pull Example.env popts).1 = Ok stats →
            Downloaded stats = 0 ∧ pl_Deleted stats = 0).
Proof.
  intros opts popts.
  apply (dry_run_no_mutation Example.env opts popts); reflexivity.
Defined.

(** Witness of C10: the same dry runs, which skip [a.txt]. *)
Lemma dry_run_counters_zero_witness :
  let opts := Example.pushOpts true true ["*.tmp"] in
  let popts := Example.pullOpts true true in
  (Push Example.env opts).1 = Ok zeroPushStats ∧
  (Pull Example.env popts).1 = Ok zeroPullStats ∧
  toSkip (Push Example.env opts).2 = ["a.txt"] ∧
  toSkip (Pull Example.env popts).2 = ["a.txt"; "cache.tmp"; "d.txt"].
Proof.
  intros opts popts.
  destruct (dry_run_counters_zero Example.env opts popts)
    as [Hpush Hpull]; [reflexivity | reflexivity |].
  destruct (Push Example.env opts).1 as [stats|] eqn:Hpushed;
    [|vm_compute in Hpushed; discriminate Hpushed].
  destruct (Pull Example.env popts).1 as [pstats|] eqn:Hpulled;
    [|vm_compute in Hpulled; discriminate Hpulled].
  destruct (Hpush stats eq_refl) as (Hu & Hs & Hd & Hf).
  destruct (Hpull pstats eq_refl) as (Hpu & Hps & Hpd & Hpf).
  destruct stats, pstats. simpl in *. subst.
  split; [reflexivity|]. split; [reflexivity|]. split; compute_done.
Defined.

(** Witness of C8: the example without its workspace directory. *)
Lemma push_missing_root_witness :
  Push Example.envNoRoot (Example.pushOpts false false []) =
    (Ok zeroPushStats, []) ∧
  (∃ stats log,
     Push Example.envNoRoot (Example.pushOpts false true []) = (Ok stats, log) ∧
     (∀ key, key ∈ toDelete log ↔ key ∈ remoteKeys Example.remote) ∧
     deleteCalls log = toDelete log ∧
     toTransfer log = [] ∧ transferCalls log = [] ∧
     Uploaded stats = 0 ∧ Skipped stats = 0).
Proof.
  split.
  - apply (push_missing_root Example.envNoRoot
             (Example.pushOpts false false []) Example.remote); reflexivity.
  - apply (push_missing_root Example.envNoRoot
             (Example.pushOpts false true []) Example.remote); reflexivity.
Defined.

(** Witness of C9: the upload of [b.txt] fails and [b.txt] stays on the
    remote side. *)
Lemma failed_upload_not_deleted_witness :
  let log := (Push Example.env (Example.pushOpts false true ["*.tmp"])).2 in
  CallUploadFile "/ws/b.txt" "b.txt" (Some (ErrOther "access denied")) ∈ log ∧
  (DeletingRemote "b.txt" ∉ log) ∧
  (∀ r, CallDeleteObject "b.txt" r ∉ log).
Proof.
  intros log.
  assert (CallUploadFile "/ws/b.txt" "b.txt" (Some (ErrOther "access denied"))
            ∈ log) as Hfailed
    by (vm_compute; repeat constructor).
  split; [exact Hfailed|].
  destruct (failed_upload_not_deleted Example.env
              (Example.pushOpts false true ["*.tmp"])) as (_ & _ & Hkept).
  exact (Hkept _ _ _ Hfailed).
Defined.

(** * The further properties on the example world *)

(** Runs of the commands and of the client on the machine. *)

Example rm_live_run :
  cmd.rmRun Machine.os Machine.world "data/" false true []
  = (None,
     {| cmd.rm_announced := ["data/a.txt"; "data/b.txt"; "data/old.txt"];
        cmd.rm_calls :=
          [s3client.CallRemoveObject "data/a.txt" None;
           s3client.CallRemoveObject "data/b.txt"
             (Some (ErrOther "access denied"));
           s3client.CallRemoveObject "data/old.txt" None];
        cmd.rm_deleted := 2; cmd.rm_failed := 1 |}).
Proof. vm_compute. reflexivity. Qed.

Example push_command_run :
  cmd.pushRun Machine.os Machine.world (λ _, Example.env) "" false true
    ["*.tmp"]
  = (None,
     (Push Example.env (Example.pushOpts false true ["*.tmp"])).2,
     [("Uploaded", 2); ("Skipped", 1); ("Deleted", 2); ("Failed", 1)]).
Proof. vm_compute. reflexivity. Qed.

Example download_run :
  s3client.DownloadFile (λ _, "/ws") Machine.world Machine.client []
    "data/b.txt" "/ws/b.txt"
  = (None,
     [s3client.CallMkdirAll "/ws" None;
      s3client.CallStatObject "data/b.txt" None;
      s3client.CallGetObject "data/b.txt" None;
      s3client.CallCreate "/ws/b.txt" None;
      s3client.CallCopy "/ws/b.txt" "data/b.txt" false 10 None;
      s3client.CallChtimes "/ws/b.txt" (Example.sec 1000) None;
      s3client.CallCloseFile "/ws/b.txt";
      s3client.CallCloseObject "data/b.txt"]).
Proof. vm_compute. reflexivity. Qed.

Example upload_missing_file :
  s3client.UploadFile Machine.world Machine.client [] "/ws/none" "data/none"
  = (Some (Wrapped "failed to stat local file /ws/none" ErrNotExist),
     [s3client.CallStat "/ws/none" (Some ErrNotExist)]).
Proof. vm_compute. reflexivity. Qed.

Example progress_run :
  s3client.ReadAll (s3client.NewProgressReader 25000000 "model.bin")
    [(8000000, None); (8000000, None); (8000000, None);
     (1000000, Some s3client.EOF)]
  = ({| s3client.total := 25000000; s3client.current := 25000000;
        s3client.key := "model.bin"; s3client.lastReported := 25000000 |},
     [(16000000, 25000000); (25000000, 25000000)]).
Proof. vm_compute. reflexivity. Qed.

(** Witness of X1: the walk of the broken tree stops at [/ws/private]. *)
Lemma push_failed_walk_witness :
  ∃ log,
    Push Machine.envBrokenWalk (Example.pushOpts false true [])
      = (Err (Wrapped "failed to walk directory"
                (ErrOther "permission denied")), log) ∧
    decided log = ["a.txt"; "b.txt"] ∧
    transferCalls log = (toTransfer log).*1 ∧
    toDelete log = [] ∧ deleteCalls log = [].
Proof.
  destruct (push_failed_walk Machine.envBrokenWalk
              (Example.pushOpts false true []) Example.remote Example.dir
              (ErrOther "permission denied"))
    as (log & HPush & Hdecided & Hcalls & Hdelete & Hdeleted);
    [reflexivity | reflexivity | reflexivity |].
  exists log. split; [exact HPush|].
  split; [rewrite Hdecided; vm_compute; reflexivity|].
  split; [exact Hcalls|]. split; [exact Hdelete | exact Hdeleted].
Defined.

(** Witness of X2: a push of the example without the delete pass. *)
Lemma push_without_delete_witness :
  toDelete (Push Example.env (Example.pushOpts false false [])).2 = [] ∧
  deleteCalls (Push Example.env (Example.pushOpts false false [])).2 = [].
Proof.
  apply (push_without_delete Example.env (Example.pushOpts false false [])).
  reflexivity.
Defined.

(** Witness of X3: [a.txt] is marked as seen in the push of the example. *)
Lemma push_respects_exclusions_witness :
  shouldExclude "a.txt" ["*.tmp"] = false ∧
  "a.txt" ∈ sourceKeys "/ws"
              (pushSource Example.env (Example.pushOpts false true ["*.tmp"])).
Proof.
  apply (push_respects_exclusions Example.env
           (Example.pushOpts false true ["*.tmp"]) "a.txt").
  left. vm_compute. apply list_elem_of_here.
Defined.

(** Witness of X4: the counters of the live push of the example. *)
Lemma push_counters_witness :
  tallied true 2 1 2 1
    (Push Example.env (Example.pushOpts false true ["*.tmp"])).2.
Proof.
  apply (push_counters Example.env (Example.pushOpts false true ["*.tmp"])
           {| Uploaded := 2; Skipped := 1; Deleted := 2; Failed := 1 |}
           (Push Example.env (Example.pushOpts false true ["*.tmp"])).2).
  vm_compute. reflexivity.
Defined.

(** Witness of X5: the counters of the live pull of the example. *)
Lemma pull_counters_witness :
  tallied true 1 3 1 1 (Pull Example.env (Example.pullOpts false true)).2.
Proof.
  apply (pull_counters Example.env (Example.pullOpts false true)
           {| Downloaded := 1; pl_Skipped := 3; pl_Deleted := 1;
              pl_Failed := 1 |}
           (Pull Example.env (Example.pullOpts false true)).2).
  vm_compute. reflexivity.
Defined.

(** Witness of X6: the pull of the example removes [c.txt], which the
    bucket does not hold. *)
Lemma pull_delete_sweep_witness :
  ∃ before after,
    (Pull Example.env (Example.pullOpts false true)).2 = before ++ after ∧
    decided before = remoteKeys Example.remote ∧ toDelete before = [] ∧
    decided after = [] ∧
    toDelete after
      = filter (λ k, k ∉ remoteKeys Example.remote)
          (sourceKeys "/ws"
             (walkedBefore "/ws"
                (Walk Example.env before (Unix.filepath_Join "/ws" "")))).
Proof.
  apply (pull_delete_sweep Example.env (Example.pullOpts false true)
           Example.remote
           (Machine.pullStatsOf (Pull Example.env (Example.pullOpts false true)))
           (Pull Example.env (Example.pullOpts false true)).2);
    [reflexivity | reflexivity | vm_compute; reflexivity].
Defined.

(** Witness of X7: a pull of the example without the delete pass. *)
Lemma pull_without_delete_witness :
  toDelete (Pull Example.env (Example.pullOpts false false)).2 = [] ∧
  removeCalls (Pull Example.env (Example.pullOpts false false)).2 = [].
Proof.
  apply (pull_without_delete Example.env (Example.pullOpts false false)).
  reflexivity.
Defined.

(** Witness of X8: the pull over the broken tree fails in the delete pass,
    after all five objects have been decided. *)
Lemma pull_errors_witness :
  ∃ cause objects,
    ListObjects Machine.envBrokenWalk "" true = Ok objects ∧
    (Pull Machine.envBrokenWalk (Example.pullOpts false true)).1
      = Err (Wrapped "failed to walk directory" cause) ∧
    decided (Pull Machine.envBrokenWalk (Example.pullOpts false true)).2
      = remoteKeys objects.
Proof.
  destruct (pull_errors Machine.envBrokenWalk (Example.pullOpts false true)
              (Wrapped "failed to walk directory"
                 (ErrOther "permission denied"))
              (Pull Machine.envBrokenWalk (Example.pullOpts false true)).2)
    as [(cause & Hlist & _)|[(cause & _ & Hmkdir & _)|
        (cause & objects & _ & Hlist & Herr & _ & Hdecided)]];
    [vm_compute; reflexivity | discriminate Hlist | discriminate Hmkdir |].
  exists cause, objects. split; [exact Hlist|]. split; [|exact Hdecided].
  rewrite <- Herr. vm_compute. reflexivity.
Defined.

(** Witness of X9: [d.txt], of the same size on both sides and newer
    locally, is uploaded by a push and left alone by a pull. *)
Lemma sync_directions_witness :
  needsUpload "/ws/d.txt"
    (Example.file 7 (Example.sec 1000 + 1001 * Millisecond))
    (Example.object "d.txt" 7 (Example.sec 1000))
    = (true, "local is newer") ∧
  (needsDownload Example.env [] (Example.object "d.txt" 7 (Example.sec 1000))
     "/ws/d.txt").1 = false.
Proof.
  destruct (sync_directions Example.env [] "/ws/d.txt"
              (Example.file 7 (Example.sec 1000 + 1001 * Millisecond))
              (Example.object "d.txt" 7 (Example.sec 1000)))
    as [_ Hsame]; [reflexivity | discriminate |].
  destruct (Hsame eq_refl) as [Hboth _].
  split; [reflexivity | exact Hboth].
Defined.

(** Witness of X11: the configuration of the machine. *)
Lemma Load_complete_witness :
  config.Load Machine.os = Ok Machine.cfg ∧
  config.Endpoint Machine.cfg
    = config.getConfigValue Machine.os "AWS_ENDPOINT" ∧
  config.MountPath Machine.cfg ≠ "".
Proof.
  assert (config.Load Machine.os = Ok Machine.cfg) as HLoad
    by (vm_compute; reflexivity).
  destruct (Load_complete Machine.os Machine.cfg HLoad)
    as (_ & _ & _ & Hmount & _ & _ & Hendpoint).
  split; [exact HLoad|]. split; [exact Hendpoint | exact Hmount].
Defined.

(** Witness of X12: the endpoint file holds a space and a line feed, and the
    environment variable [AWS_ENDPOINT] is set. *)
Lemma blank_file_hides_env_witness :
  config.Getenv Machine.osBlank "AWS_ENDPOINT" = "http://unused.example.com" ∧
  config.getConfigValue Machine.osBlank "AWS_ENDPOINT" = "" ∧
  isOk (config.Load Machine.osBlank) = false.
Proof.
  split; [reflexivity|].
  apply (blank_file_hides_env Machine.osBlank "AWS_ENDPOINT"
           (" " +:+ Machine.newline)).
  - apply list_elem_of_further, list_elem_of_further, list_elem_of_here.
  - reflexivity.
  - repeat constructor.
Defined.

(** Witness of X13: the endpoint [https://s3.example.com]. *)
Lemma New_endpoint_witness :
  s3client.New Machine.world Machine.cfg = Ok Machine.client ∧
  (s3client.minioClient Machine.client).1 = "s3.example.com" ∧
  s3client.Secure (s3client.minioClient Machine.client).2 = true.
Proof.
  assert (s3client.New Machine.world Machine.cfg = Ok Machine.client) as HNew
    by (vm_compute; reflexivity).
  destruct (New_endpoint Machine.world Machine.cfg Machine.client HNew)
    as (_ & _ & Hhttps & _).
  split; [exact HNew|]. exact (Hhttps "s3.example.com" eq_refl).
Defined.

(** Witness of X15: the first object of the listing of the machine. *)
Lemma ETag_unquoted_witness :
  s3client.oi_ETag (Machine.item "data/a.txt" 10 "9a0364b9")
    = quote +:+ "9a0364b9" +:+ quote ∧
  ETag (listed (Machine.item "data/a.txt" 10 "9a0364b9")) = "9a0364b9" ∧
  HasPrefix (ETag (listed (Machine.item "data/a.txt" 10 "9a0364b9"))) quote
    = false ∧
  HasSuffix (ETag (listed (Machine.item "data/a.txt" 10 "9a0364b9"))) quote
    = false.
Proof.
  split; [reflexivity|]. split; [vm_compute; reflexivity|].
  apply (ETag_unquoted Machine.world Machine.client "data/" true
           (listed <$> Machine.items)).
  - vm_compute. reflexivity.
  - apply list_elem_of_here.
Defined.

(** Witness of X20: [rm --prefix data/] on the machine, with an argument
    that is ignored. *)
Lemma rm_by_prefix_witness :
  (cmd.rmRun Machine.os Machine.world "data/" false true ["ignored"]).1
    = None ∧
  cmd.rm_announced
    (cmd.rmRun Machine.os Machine.world "data/" false true ["ignored"]).2
    = ["data/a.txt"; "data/b.txt"; "data/old.txt"].
Proof.
  exact (rm_by_prefix Machine.os Machine.world "data/" false true ["ignored"]
           Machine.cfg Machine.client
           ltac:(discriminate) ltac:(vm_compute; reflexivity)
           ltac:(discriminate) ltac:(vm_compute; reflexivity)).
Defined.


Lemma synced_tree_in_sync (e : WalkEntry) (k : string) :
  e ∈ pushSource Machine.envSynced
        (Example.pushOpts false true ["b.txt"; "c.txt"; "d.txt"]) →
  localKey "/ws" e = Some k →
  shouldExclude k ["b.txt"; "c.txt"; "d.txt"] = false →
  k ≠ "" ∧
  ∃ obj, pushTarget Machine.envSynced
           (Example.pushOpts false true ["b.txt"; "c.txt"; "d.txt"]) !! k
         = Some obj ∧
    Size obj = fi_Size (we_info e) ∧
    fi_ModTime (we_info e) - LastModified obj ≤ 1000 * Millisecond.
Proof.
  intros Hin Hkey Hexcluded. change (e ∈ Example.tree) in Hin.
  repeat (apply elem_of_cons in Hin as [->|Hin]);
    [| | | | | |by apply elem_of_nil in Hin];
    vm_compute in Hkey; try discriminate Hkey; injection Hkey as <-;
    vm_compute in Hexcluded; try discriminate Hexcluded.
  - split; [discriminate|].
    exists (Example.object "a.txt" 10 (Example.sec 1000)).
    split; [vm_compute; reflexivity|]. split; [reflexivity|].
    vm_compute. discriminate.
  - split; [discriminate|].
    exists (Example.object "cache.tmp" 3 (Example.sec 1001)).
    split; [vm_compute; reflexivity|]. split; [reflexivity|].
    vm_compute. discriminate.
Qed.

(** Witness of X25: the push of a tree whose files, the excluded ones
    apart, are in the bucket. *)
Lemma push_in_sync_witness :
  toTransfer
    (Push Machine.envSynced
       (Example.pushOpts false true ["b.txt"; "c.txt"; "d.txt"])).2 = [] ∧
  transferCalls
    (Push Machine.envSynced
       (Example.pushOpts false true ["b.txt"; "c.txt"; "d.txt"])).2 = [] ∧
  ∀ stats,
    (Push Machine.envSynced
       (Example.pushOpts false true ["b.txt"; "c.txt"; "d.txt"])).1 = Ok stats →
    Uploaded stats = 0.
Proof.
  apply (push_in_sync Machine.envSynced
           (Example.pushOpts false true ["b.txt"; "c.txt"; "d.txt"])).
  exact synced_tree_in_sync.
Defined.

Lemma synced_bucket_in_sync (objects : list S3Object) (obj : S3Object)
    (log : list Event) :
  ListObjects Machine.envSynced "" true = Ok objects → obj ∈ objects →
  HasSuffix (Key obj) "/" = false →
  ∃ info,
    Stat Machine.envSynced log (Unix.filepath_Join "/ws" (Key obj)) = Ok info ∧
    fi_Size info = Size obj ∧
    LastModified obj - fi_ModTime info ≤ 1000 * Millisecond.
Proof.
  intros [= <-] Hin Hfile.
  repeat (apply elem_of_cons in Hin as [->|Hin]);
    [| | |by apply elem_of_nil in Hin]; try discriminate Hfile.
  - exists (Example.file 10 (Example.sec 1000)).
    split; [vm_compute; reflexivity|]. split; [reflexivity|].
    vm_compute. discriminate.
  - exists (Example.file 3 (Example.sec 1000)).
    split; [vm_compute; reflexivity|]. split; [reflexivity|].
    vm_compute. discriminate.
Qed.

(** Witness of X26: the pull of a bucket whose objects are in the tree, one
    of them exactly one second newer than its file. *)
Lemma pull_in_sync_witness :
  toTransfer (Pull Machine.envSynced (Example.pullOpts false false)).2 = [] ∧
  transferCalls (Pull Machine.envSynced (Example.pullOpts false false)).2
    = [] ∧
  ∀ stats,
    (Pull Machine.envSynced (Example.pullOpts false false)).1 = Ok stats →
    Downloaded stats = 0.
Proof.
  apply (pull_in_sync Machine.envSynced (Example.pullOpts false false)).
  intros objects obj log. apply synced_bucket_in_sync.
Defined.

(** Witness of X21: [ls] on the machine without a bucket name. *)
Lemma ls_without_bucket_witness :
  cmd.lsRun Machine.osNoBucket Machine.world "" true
  = (None,
     Some (cmd.LsBuckets
             [ {| s3client.Name := "volume";
                  s3client.CreationDate := Example.sec 500 |} ])).
Proof.
  exact (ls_without_bucket Machine.osNoBucket Machine.world "" true
           {| config.AccessKeyID := "AKIA"; config.SecretAccessKey := "secret";
              config.Endpoint := "https://s3.example.com";
              config.BucketName := ""; config.MountPath := "/ws" |}
           ltac:(vm_compute; reflexivity) eq_refl).
Defined.

(** Witness of X22: [ls --prefix data/] on the machine shows four rows, the
    directory marker among them. *)
Lemma ls_listing_witness :
  ∃ rows,
    cmd.lsRun Machine.os Machine.world "data/" true
    = (None, Some (cmd.LsListing "volume" (Some "data/") rows 4)) ∧
    rows = (cmd.lsRow ∘ listed) <$> Machine.items ∧
    length rows = 4%nat.
Proof.
  pose proof (ls_listing Machine.os Machine.world "data/" true Machine.cfg
                Machine.client ltac:(vm_compute; reflexivity)
                ltac:(discriminate) ltac:(vm_compute; reflexivity)
                ltac:(discriminate)) as Hls.
  assert (cmd.lsRun Machine.os Machine.world "data/" true
          = (None, Some (cmd.LsListing "volume" (Some "data/")
                           ((cmd.lsRow ∘ listed) <$> Machine.items) 4)))
    as Hrun by (vm_compute; reflexivity).
  rewrite Hrun in Hls. destruct Hls as (_ & Hrows & _).
  exists ((cmd.lsRow ∘ listed) <$> Machine.items).
  split; [exact Hrun|]. split; [exact Hrows | reflexivity].
Defined.
